(** * srctools.fgd: a shallow embedding and its verified properties

    The development follows [src/srctools/fgd.py].  Python values are
    modelled as the code uses them:
    - [str] is [string] (the model is exact on ASCII text; [upper] and
      [casefold] leave bytes above 127 alone);
    - a [frozenset] of tags is a [gset string]; a [dict] is an association
      list in insertion order, because the code iterates over dictionaries
      and the order is observable ([kv_order], the binary layout);
    - entity objects live in a store indexed by address, since bases are
      shared references that [collapse_bases] mutates in place;
    - a raised exception is the [Raise] branch of [result]. *)

From Stdlib Require Import ZArith Ascii String.
From stdpp Require Import gmap strings list fin_maps sets pretty.

Open Scope string_scope.
Open Scope Z_scope.
Open Scope list_scope.

(** ** Exceptions *)

Inductive exn : Type :=
  | ValueError (msg : string)
  | KeyError (msg : string)
  | TypeError (msg : string)
  | IndexError (msg : string)
  | AttributeError (msg : string)
  | StructError (msg : string)   (* struct.error, raised by Struct.pack *)
  | TokError (msg : string)      (* tok.error(...) of the external tokenizer *)
  | OutOfFuel                    (* not an exception: the step budget of a
                                    model loop ran out *)
  | Dangling.                    (* not an exception: an address that holds
                                    no object, which no reference does *)

Inductive result (A : Type) : Type :=
  | Ok (a : A)
  | Raise (e : exn).
Arguments Ok {A} a.
Arguments Raise {A} e.

#[global] Instance result_ret : MRet result := fun A a => Ok a.
#[global] Instance result_bind : MBind result := fun A B k r =>
  match r with
  | Ok a => k a
  | Raise e => Raise e
  end.

#[global] Instance result_fmap : FMap result := fun A B f r =>
  match r with
  | Ok a => Ok (f a)
  | Raise e => Raise e
  end.

Definition is_ok {A} (r : result A) : bool :=
  match r with Ok _ => true | Raise _ => false end.

(** ** Strings *)

Definition upper_ascii (c : ascii) : ascii :=
  let n := nat_of_ascii c in
  if ((97 <=? n) && (n <=? 122))%nat then ascii_of_nat (n - 32) else c.

Definition lower_ascii (c : ascii) : ascii :=
  let n := nat_of_ascii c in
  if ((65 <=? n) && (n <=? 90))%nat then ascii_of_nat (n + 32) else c.

Fixpoint str_map (f : ascii -> ascii) (s : string) : string :=
  match s with
  | EmptyString => EmptyString
  | String c r => String (f c) (str_map f r)
  end.

(** [str.upper()] and [str.casefold()] as they act on ASCII text: the
    letters a-z and A-Z are mapped and every other byte is kept.  Python
    maps letters outside ASCII as well, so a statement that compares the
    two maps is made for ASCII strings. *)
Definition upper : string -> string := str_map upper_ascii.
Definition casefold : string -> string := str_map lower_ascii.

(** [s[0:1]] and [s[1:]]. *)
Definition first1 (s : string) : string :=
  match s with
  | EmptyString => EmptyString
  | String c _ => String c EmptyString
  end.

Definition from1 (s : string) : string :=
  match s with
  | EmptyString => EmptyString
  | String _ r => r
  end.

Definition is_sigil (c : ascii) : bool :=
  (Ascii.eqb c "!" || Ascii.eqb c "-" || Ascii.eqb c "+")%char.

(** [s.lstrip('!-+')]: every leading character of the set is dropped. *)
Fixpoint lstrip_sigils (s : string) : string :=
  match s with
  | EmptyString => EmptyString
  | String c r => if is_sigil c then lstrip_sigils r else s
  end.

(** ** Tag engine *)

(** The loop of [match_tags]; [matched] is the tri-state local of the
    source: [None], [Some true] or [Some false]. *)
Fixpoint match_tags_loop (search : gset string) (has_all : bool)
    (matched : option bool) (tags : list string) : bool :=
  match tags with
  | [] => negb (bool_decide (matched = Some false))
  | tag :: rest =>
      let tag := upper tag in
      let start := first1 tag in
      if String.eqb start "!" || String.eqb start "-" then
        if bool_decide (from1 tag ∈ search) then false
        else match_tags_loop search has_all matched rest
      else if String.eqb start "+" then
        if bool_decide (from1 tag ∉ search) then false
        else match_tags_loop search has_all matched rest
      else
        let matched := match matched with None => Some false | _ => matched end in
        let matched :=
          if has_all || bool_decide (tag ∈ search) then Some true else matched in
        match_tags_loop search has_all matched rest
  end.

Definition match_tags (search : gset string) (tags : list string) : bool :=
  match tags with
  | [] => true
  | _ => match_tags_loop search (bool_decide ("<ALL>" ∈ search)) None tags
  end.

Definition validate_tags (tags : list string) (error : string -> exn)
    : result (gset string) :=
  let temp_set : gset string :=
    list_to_set ((fun t => upper (lstrip_sigils t)) <$> tags) in
  if bool_decide (size temp_set ≠ List.length tags) then
    Raise (error "Duplicate tags!")
  else if bool_decide ("<any>" ∈ temp_set) then
    Raise (error "<any> cannot be used as a tag!")
  else Ok (list_to_set (upper <$> tags)).

(** The reading of a raw tag that the specification uses: the sigil is the
    first character of the tag as written, and the label is what follows
    it, upper-cased. *)
Inductive sigil : Type := Negative | Positive | Plain.

#[global] Instance sigil_eq_dec : EqDecision sigil.
Proof. solve_decision. Defined.

Definition sigil_of (t : string) : sigil :=
  match t with
  | String "!" _ | String "-" _ => Negative
  | String "+" _ => Positive
  | _ => Plain
  end.

Definition label_of (t : string) : string :=
  match sigil_of t with
  | Plain => upper t
  | _ => upper (from1 t)
  end.

(** What a candidate tag does to a query [Q]. *)
Definition neg_hit (Q : gset string) (t : string) : Prop :=
  sigil_of t = Negative ∧ label_of t ∈ Q.
Definition pos_miss (Q : gset string) (t : string) : Prop :=
  sigil_of t = Positive ∧ label_of t ∉ Q.
Definition plain_hit (Q : gset string) (t : string) : Prop :=
  sigil_of t = Plain ∧ label_of t ∈ Q.

(** A plain tag satisfied by the query, [b] being the wildcard flag. *)
Definition plain_ok (Q : gset string) (b : bool) (t : string) : Prop :=
  sigil_of t = Plain ∧ (b = true ∨ label_of t ∈ Q).

(** [validate_tags] as the specification words it: duplicates and the
    reserved wildcard are rejected, and the stored set has the sigils
    stripped. *)
Definition validate_tags_spec (tags : list string) (error : string -> exn)
    : result (gset string) :=
  let labels := (fun t => upper (lstrip_sigils t)) <$> tags in
  if bool_decide (NoDup labels) then
    if bool_decide ("<any>" ∈ (casefold <$> tags)) then
      Raise (error "<any> cannot be used as a tag!")
    else Ok (list_to_set labels)
  else Raise (error "Duplicate tags!").

(** Two positions of [tags] hold the same tag once sigils and case are
    ignored. *)
Definition duplicate_tags (tags : list string) : Prop :=
  ∃ (i j : nat) (a b : string),
    i ≠ j ∧ tags !! i = Some a ∧ tags !! j = Some b ∧
    casefold (lstrip_sigils a) = casefold (lstrip_sigils b).

(** ** Dictionaries

    A Python [dict] keeps its keys in insertion order; assigning to a key
    that is present replaces the value in place. *)

Section dict.
Context {K V : Type} `{EqDecision K}.

Fixpoint dict_get (d : list (K * V)) (k : K) : option V :=
  match d with
  | [] => None
  | (k', v) :: r => if decide (k = k') then Some v else dict_get r k
  end.

Fixpoint dict_set (d : list (K * V)) (k : K) (v : V) : list (K * V) :=
  match d with
  | [] => [(k, v)]
  | (k', v') :: r =>
      if decide (k = k') then (k', v) :: r else (k', v') :: dict_set r k v
  end.

Definition dict_has (d : list (K * V)) (k : K) : bool :=
  match dict_get d k with Some _ => true | None => false end.
End dict.

(** ** Enumerations *)

(** Types which can be applied to a KeyValue. *)
Module ValueTypes.
Inductive t : Type :=
  | VOID | CHOICES | SPAWNFLAGS | STRING | BOOL | INT | FLOAT | VEC
  | ANGLES | TARG_DEST | TARG_DEST_CLASS | TARG_SOURCE | TARG_NPC_CLASS
  | TARG_POINT_CLASS | TARG_FILTER_NAME | TARG_NODE_DEST
  | TARG_NODE_SOURCE | STR_SCENE | STR_SOUND | STR_PARTICLE | STR_SPRITE
  | STR_DECAL | STR_MATERIAL | STR_MODEL | STR_VSCRIPT
  | STR_VSCRIPT_SINGLE | ANGLE_NEG_PITCH | VEC_LINE | VEC_ORIGIN
  | VEC_AXIS | COLOR_1 | COLOR_255 | SIDE_LIST | INST_FILE | INST_VAR_DEF
  | INST_VAR_REP.

#[global] Instance eq_dec : EqDecision t.
Proof. solve_decision. Defined.

(** The members in declaration order, as iterating the enum gives them. *)
Definition members : list t :=
  [VOID; CHOICES; SPAWNFLAGS; STRING; BOOL; INT; FLOAT; VEC; ANGLES;
   TARG_DEST; TARG_DEST_CLASS; TARG_SOURCE; TARG_NPC_CLASS;
   TARG_POINT_CLASS; TARG_FILTER_NAME; TARG_NODE_DEST; TARG_NODE_SOURCE;
   STR_SCENE; STR_SOUND; STR_PARTICLE; STR_SPRITE; STR_DECAL;
   STR_MATERIAL; STR_MODEL; STR_VSCRIPT; STR_VSCRIPT_SINGLE;
   ANGLE_NEG_PITCH; VEC_LINE; VEC_ORIGIN; VEC_AXIS; COLOR_1; COLOR_255;
   SIDE_LIST; INST_FILE; INST_VAR_DEF; INST_VAR_REP].

(** The [.value] of a member. *)
Definition value (x : t) : string :=
  match x with
  | VOID => "void"
  | CHOICES => "choices"
  | SPAWNFLAGS => "flags"
  | STRING => "string"
  | BOOL => "boolean"
  | INT => "integer"
  | FLOAT => "float"
  | VEC => "vector"
  | ANGLES => "angle"
  | TARG_DEST => "target_destination"
  | TARG_DEST_CLASS => "target_name_or_class"
  | TARG_SOURCE => "target_source"
  | TARG_NPC_CLASS => "npcclass"
  | TARG_POINT_CLASS => "pointentityclass"
  | TARG_FILTER_NAME => "filterclass"
  | TARG_NODE_DEST => "node_dest"
  | TARG_NODE_SOURCE => "node_id"
  | STR_SCENE => "scene"
  | STR_SOUND => "sound"
  | STR_PARTICLE => "particlesystem"
  | STR_SPRITE => "sprite"
  | STR_DECAL => "decal"
  | STR_MATERIAL => "material"
  | STR_MODEL => "studio"
  | STR_VSCRIPT => "scriptlist"
  | STR_VSCRIPT_SINGLE => "script"
  | ANGLE_NEG_PITCH => "angle_negative_pitch"
  | VEC_LINE => "vecline"
  | VEC_ORIGIN => "origin"
  | VEC_AXIS => "axis"
  | COLOR_1 => "color1"
  | COLOR_255 => "color255"
  | SIDE_LIST => "sidelist"
  | INST_FILE => "instance_file"
  | INST_VAR_DEF => "instance_parm"
  | INST_VAR_REP => "instance_variable"
  end.

(** Calling the enum on a value: the first member with that value. *)
Definition of_value (s : string) : option t :=
  snd <$> list_find (fun x => value x = s) members.

Definition has_list (x : t) : bool :=
  bool_decide (value x ∈ ["choices"; "flags"]).

Definition is_literal (x : t) : bool :=
  bool_decide (value x ∈ ["boolean"; "integer"; "float"]).
End ValueTypes.

(** The kinds of entity definition. *)
Module EntityTypes.
Inductive t : Type :=
  | BASE | POINT | BRUSH | ROPES | TRACK | FILTER | NPC.

#[global] Instance eq_dec : EqDecision t.
Proof. solve_decision. Defined.

(** The members in declaration order, as iterating the enum gives them. *)
Definition members : list t :=
  [BASE; POINT; BRUSH; ROPES; TRACK; FILTER; NPC].

(** The [.value] of a member. *)
Definition value (x : t) : string :=
  match x with
  | BASE => "baseclass"
  | POINT => "pointclass"
  | BRUSH => "solidclass"
  | ROPES => "keyframeclass"
  | TRACK => "moveclass"
  | FILTER => "filterclass"
  | NPC => "npcclass"
  end.

(** Calling the enum on a value: the first member with that value. *)
Definition of_value (s : string) : option t :=
  snd <$> list_find (fun x => value x = s) members.
End EntityTypes.

(** Types of functions in the entity header. *)
Module HelperTypes.
Inductive t : Type :=
  | INHERIT | HALF_GRID_SNAP | CUBE | BBOX | TINT | SPHERE | LINE
  | FRUSTUM | CYLINDER | BRUSH_SIDES | BOUNDING_BOX_HELPER | SWEPT_HULL
  | SPRITE | MODEL | MODEL_PROP | MODEL_NEG_PITCH | ENT_SPRITE
  | ENT_INSTANCE | ENT_DECAL | ENT_OVERLAY | ENT_OVERLAY_WATER
  | ENT_LIGHT | ENT_LIGHT_CONE | ENT_ROPE | ENT_TRACK
  | ENT_BREAKABLE_SURF | ENT_WORLDTEXT | EXT_APPLIES_TO | EXT_ORDERBY.

#[global] Instance eq_dec : EqDecision t.
Proof. solve_decision. Defined.

(** The members in declaration order, as iterating the enum gives them. *)
Definition members : list t :=
  [INHERIT; HALF_GRID_SNAP; CUBE; BBOX; TINT; SPHERE; LINE; FRUSTUM;
   CYLINDER; BRUSH_SIDES; BOUNDING_BOX_HELPER; SWEPT_HULL; SPRITE; MODEL;
   MODEL_PROP; MODEL_NEG_PITCH; ENT_SPRITE; ENT_INSTANCE; ENT_DECAL;
   ENT_OVERLAY; ENT_OVERLAY_WATER; ENT_LIGHT; ENT_LIGHT_CONE; ENT_ROPE;
   ENT_TRACK; ENT_BREAKABLE_SURF; ENT_WORLDTEXT; EXT_APPLIES_TO;
   EXT_ORDERBY].

(** The [.value] of a member. *)
Definition value (x : t) : string :=
  match x with
  | INHERIT => "base"
  | HALF_GRID_SNAP => "halfgridsnap"
  | CUBE => "size"
  | BBOX => "bbox"
  | TINT => "color"
  | SPHERE => "sphere"
  | LINE => "line"
  | FRUSTUM => "frustum"
  | CYLINDER => "cylinder"
  | BRUSH_SIDES => "sidelist"
  | BOUNDING_BOX_HELPER => "wirebox"
  | SWEPT_HULL => "sweptplayerhull"
  | SPRITE => "iconsprite"
  | MODEL => "studio"
  | MODEL_PROP => "studioprop"
  | MODEL_NEG_PITCH => "lightprop"
  | ENT_SPRITE => "sprite"
  | ENT_INSTANCE => "instance"
  | ENT_DECAL => "decal"
  | ENT_OVERLAY => "overlay"
  | ENT_OVERLAY_WATER => "overlay_transition"
  | ENT_LIGHT => "light"
  | ENT_LIGHT_CONE => "lightcone"
  | ENT_ROPE => "keyframe"
  | ENT_TRACK => "animator"
  | ENT_BREAKABLE_SURF => "quadbounds"
  | ENT_WORLDTEXT => "worldtext"
  | EXT_APPLIES_TO => "appliesto"
  | EXT_ORDERBY => "orderby"
  end.

(** Calling the enum on a value: the first member with that value. *)
Definition of_value (s : string) : option t :=
  snd <$> list_find (fun x => value x = s) members.
End HelperTypes.

(** [VALUE_TYPE_LOOKUP]: every value, and two alternative spellings. *)
Definition VALUE_TYPE_LOOKUP : list (string * ValueTypes.t) :=
  dict_set
    (dict_set
       (foldl (fun d typ => dict_set d (ValueTypes.value typ) typ) [] ValueTypes.members)
       "bool" ValueTypes.BOOL)
    "int" ValueTypes.INT.

(** Ordered list of value types, for encoding in the binary format. *)
Definition VALUE_TYPE_ORDER : list ValueTypes.t :=
  [ValueTypes.VOID; ValueTypes.CHOICES; ValueTypes.SPAWNFLAGS;
   ValueTypes.STRING; ValueTypes.BOOL; ValueTypes.INT; ValueTypes.FLOAT;
   ValueTypes.VEC; ValueTypes.ANGLES; ValueTypes.TARG_DEST;
   ValueTypes.TARG_DEST_CLASS; ValueTypes.TARG_SOURCE;
   ValueTypes.TARG_NPC_CLASS; ValueTypes.TARG_POINT_CLASS;
   ValueTypes.TARG_FILTER_NAME; ValueTypes.TARG_NODE_DEST;
   ValueTypes.TARG_NODE_SOURCE; ValueTypes.STR_SCENE; ValueTypes.STR_SOUND;
   ValueTypes.STR_PARTICLE; ValueTypes.STR_SPRITE; ValueTypes.STR_DECAL;
   ValueTypes.STR_MATERIAL; ValueTypes.STR_MODEL; ValueTypes.STR_VSCRIPT;
   ValueTypes.ANGLE_NEG_PITCH; ValueTypes.VEC_LINE; ValueTypes.VEC_ORIGIN;
   ValueTypes.VEC_AXIS; ValueTypes.COLOR_1; ValueTypes.COLOR_255;
   ValueTypes.SIDE_LIST; ValueTypes.INST_FILE; ValueTypes.INST_VAR_DEF;
   ValueTypes.INST_VAR_REP; ValueTypes.STR_VSCRIPT_SINGLE].

Definition ENTITY_TYPE_ORDER : list EntityTypes.t :=
  [EntityTypes.BASE; EntityTypes.POINT; EntityTypes.BRUSH; EntityTypes.ROPES;
   EntityTypes.TRACK; EntityTypes.FILTER; EntityTypes.NPC].

(** [{val: ind for (ind, val) in enumerate(order)}]. *)
Definition index_table {A} `{EqDecision A} (order : list A) : list (A * Z) :=
  foldl (fun d '(ind, val) => dict_set d val (Z.of_nat ind)) []
    (imap (fun ind val => (ind, val)) order).

Definition VALUE_TYPE_INDEX : list (ValueTypes.t * Z) := index_table VALUE_TYPE_ORDER.
Definition ENTITY_TYPE_INDEX : list (EntityTypes.t * Z) := index_table ENTITY_TYPE_ORDER.

(** ** Python values

    The entries of a [val_list] are tuples whose arity depends on who built
    them, and [readonly] holds a [bool] or an [int]; both are kept as
    dynamically typed values. *)

Inductive pyval : Type :=
  | PInt (n : Z)
  | PStr (s : string)
  | PBool (b : bool)
  | PTags (tags : gset string).

#[global] Instance pyval_eq_dec : EqDecision pyval.
Proof. solve_decision. Defined.

(** Truth value, as [if x:] tests it. *)
Definition truthy (x : pyval) : bool :=
  match x with
  | PInt n => negb (n =? 0)
  | PStr s => negb (String.eqb s "")
  | PBool b => b
  | PTags tags => negb (bool_decide (tags = ∅))
  end.

(** [x == y]: a [bool] is an [int]; values of unrelated types are unequal. *)
Definition py_eq (x y : pyval) : bool :=
  match x, y with
  | PInt n, PInt m => n =? m
  | PInt n, PBool b | PBool b, PInt n => n =? (if b then 1 else 0)
  | PBool a, PBool b => Bool.eqb a b
  | PStr s, PStr t => String.eqb s t
  | PTags s, PTags t => bool_decide (s = t)
  | _, _ => false
  end.

(** ** Leaf records *)

Record KeyValues : Type := mkKeyValues {
  kv_name : string;
  kv_type : ValueTypes.t;
  kv_disp_name : string;
  kv_default : string;
  kv_desc : string;
  kv_val_list : option (list (list pyval));
  kv_readonly : pyval;
}.

Record IODef : Type := mkIODef {
  io_name : string;
  io_type : ValueTypes.t;
  io_desc : string;
}.

#[global] Instance KeyValues_eq_dec : EqDecision KeyValues.
Proof. solve_decision. Defined.
#[global] Instance IODef_eq_dec : EqDecision IODef.
Proof. solve_decision. Defined.

(** [KeyValues.copy]: the value list is copied, so the copy shares nothing
    mutable with the original; an empty list becomes [None]. *)
Definition KeyValues_copy (self : KeyValues) : KeyValues :=
  mkKeyValues (kv_name self) (kv_type self) (kv_disp_name self) (kv_default self)
    (kv_desc self)
    (match kv_val_list self with
     | Some ((_ :: _) as l) => Some l
     | _ => None
     end)
    (kv_readonly self).

Definition IODef_copy (self : IODef) : IODef :=
  mkIODef (io_name self) (io_type self) (io_desc self).

(** ** Entities

    An entity is an object: bases refer to it by address, and the database
    maps class names to addresses. *)

Definition addr : Type := positive.

Inductive base_ref : Type :=
  | BaseName (name : string)   (* not yet resolved *)
  | BaseEnt (ent : addr).

#[global] Instance base_ref_eq_dec : EqDecision base_ref.
Proof. solve_decision. Defined.

(** A [name -> {tags} -> value] dictionary. *)
Definition tag_map (T : Type) : Type := list (gset string * T).
Definition attr_map (T : Type) : Type := list (string * tag_map T).

Record EntityDef : Type := mkEntityDef {
  ent_type : EntityTypes.t;
  classname : string;
  keyvalues : attr_map KeyValues;
  inputs : attr_map IODef;
  outputs : attr_map IODef;
  kv_order : list string;
  bases : list base_ref;
  helpers : list (HelperTypes.t * list string);
  desc : string;
}.

(** [EntityDef(typ)]. *)
Definition EntityDef_init (typ : EntityTypes.t) : EntityDef :=
  mkEntityDef typ "" [] [] [] [] [] [] "".

Definition set_classname (name : string) (e : EntityDef) : EntityDef :=
  mkEntityDef (ent_type e) name (keyvalues e) (inputs e) (outputs e) (kv_order e)
    (bases e) (helpers e) (desc e).
Definition set_keyvalues (kv : attr_map KeyValues) (e : EntityDef) : EntityDef :=
  mkEntityDef (ent_type e) (classname e) kv (inputs e) (outputs e) (kv_order e)
    (bases e) (helpers e) (desc e).
Definition set_inputs (io : attr_map IODef) (e : EntityDef) : EntityDef :=
  mkEntityDef (ent_type e) (classname e) (keyvalues e) io (outputs e) (kv_order e)
    (bases e) (helpers e) (desc e).
Definition set_outputs (io : attr_map IODef) (e : EntityDef) : EntityDef :=
  mkEntityDef (ent_type e) (classname e) (keyvalues e) (inputs e) io (kv_order e)
    (bases e) (helpers e) (desc e).
Definition set_kv_order (order : list string) (e : EntityDef) : EntityDef :=
  mkEntityDef (ent_type e) (classname e) (keyvalues e) (inputs e) (outputs e) order
    (bases e) (helpers e) (desc e).
Definition set_bases (bs : list base_ref) (e : EntityDef) : EntityDef :=
  mkEntityDef (ent_type e) (classname e) (keyvalues e) (inputs e) (outputs e)
    (kv_order e) bs (helpers e) (desc e).
Definition set_helpers (hs : list (HelperTypes.t * list string)) (e : EntityDef)
    : EntityDef :=
  mkEntityDef (ent_type e) (classname e) (keyvalues e) (inputs e) (outputs e)
    (kv_order e) (bases e) hs (desc e).
Definition set_desc (d : string) (e : EntityDef) : EntityDef :=
  mkEntityDef (ent_type e) (classname e) (keyvalues e) (inputs e) (outputs e)
    (kv_order e) (bases e) (helpers e) d.

(** The store of entity objects. *)
Notation heap := (gmap addr EntityDef).

(** The database.  The two map bounds are integers after parsing and
    floats after [unserialise]; a float is kept as its eight bytes. *)
Inductive number : Type :=
  | NInt (n : Z)
  | NFloat (bytes : list Z).

Record FGD : Type := mkFGD {
  entities : list (string * addr);
  map_size_min : number;
  map_size_max : number;
}.

Definition FGD_init : FGD := mkFGD [] (NInt 0) (NInt 0).

Definition set_entities (ents : list (string * addr)) (fgd : FGD) : FGD :=
  mkFGD ents (map_size_min fgd) (map_size_max fgd).

(** [FGD.__getitem__]. *)
Definition FGD_getitem (self : FGD) (name : string) : result addr :=
  match dict_get (entities self) (casefold name) with
  | Some ent => Ok ent
  | None => Raise (KeyError ("No class " +:+ name))
  end.

(** [FGD.__iter__]: the entity objects, in the order of the dictionary. *)
Definition FGD_iter (self : FGD) : list addr := (entities self).*2.

(** ** More string operations *)

(** ASCII white space, as [str.strip()] removes it. *)
Definition is_space (c : ascii) : bool :=
  let n := nat_of_ascii c in
  ((n =? 32) || ((9 <=? n) && (n <=? 13)) || ((28 <=? n) && (n <=? 31)))%nat.

Fixpoint lstrip_with (drop : ascii -> bool) (s : string) : string :=
  match s with
  | EmptyString => EmptyString
  | String c r => if drop c then lstrip_with drop r else s
  end.

Definition str_rev (s : string) : string :=
  string_of_list_ascii (rev (list_ascii_of_string s)).

Definition rstrip_with (drop : ascii -> bool) (s : string) : string :=
  str_rev (lstrip_with drop (str_rev s)).

(** [s.strip()] and [s.rstrip(',')]. *)
Definition strip (s : string) : string := rstrip_with is_space (lstrip_with is_space s).
Definition rstrip_comma (s : string) : string := rstrip_with (Ascii.eqb ",") s.

(** [s.split(',')]. *)
Fixpoint split_comma (s : string) : list string :=
  match s with
  | EmptyString => [EmptyString]
  | String c r =>
      if Ascii.eqb c "," then EmptyString :: split_comma r
      else match split_comma r with
           | h :: t => String c h :: t
           | [] => [String c EmptyString]
           end
  end.

Definition digit_of (c : ascii) : option Z :=
  let n := nat_of_ascii c in
  if ((48 <=? n) && (n <=? 57))%nat then Some (Z.of_nat (n - 48)) else None.

Fixpoint digits_value (acc : Z) (s : string) : option Z :=
  match s with
  | EmptyString => Some acc
  | String c r =>
      match digit_of c with
      | Some d => digits_value (10 * acc + d) r
      | None => None
      end
  end.

(** [int(s)] for a decimal literal: surrounding white space and one sign
    are accepted (digit separators are not modelled). *)
Definition py_int (s : string) : result Z :=
  let s := strip s in
  let '(sign, body) :=
    match s with
    | String "-" r => (-1, r)
    | String "+" r => (1, r)
    | _ => (1, s)
    end in
  match body with
  | EmptyString => Raise (ValueError "invalid literal for int()")
  | _ =>
      match digits_value 0 body with
      | Some n => Ok (sign * n)
      | None => Raise (ValueError "invalid literal for int()")
      end
  end.

(** [math.log2] of an integer.  The source only asks whether the result is
    a whole number and for its integer part; both are exact when the
    argument is a power of two, which is what the format stores (for other
    arguments the float may round to the next whole number). *)
Definition math_log2_whole (n : Z) : result bool :=
  if n <=? 0 then Raise (ValueError "math domain error")
  else Ok (n =? 2 ^ Z.log2 n).

Definition math_log2_int (n : Z) : result Z :=
  if n <=? 0 then Raise (ValueError "math domain error")
  else Ok (Z.log2 n).

(** ** The token stream

    Modelled from the spec: the tokenizer ([srctools.tokenizer]) is an
    external collaborator, "an abstract iterator yielding classified
    tokens" with "a constructor for syntax errors".  A stream is the list
    of the tokens still to come; calling it past the end yields [EOF], a
    [for] loop over it ends at [EOF], and [expect] skips newlines before
    it compares. *)

Module Token.
Inductive t : Type :=
  | EOF | STRING | NEWLINE | PAREN_ARGS | BRACE_OPEN | BRACE_CLOSE
  | BRACK_OPEN | BRACK_CLOSE | COLON | EQUALS | PLUS.

#[global] Instance eq_dec : EqDecision t.
Proof. solve_decision. Defined.
End Token.

Notation tokens := (list (Token.t * string)).

(** [tok()]. *)
Definition tok_call (toks : tokens) : (Token.t * string) * tokens :=
  match toks with
  | [] => ((Token.EOF, EmptyString), [])
  | t :: r => (t, r)
  end.

(** One step of [for token, value in tok]; [None] ends the loop. *)
Definition tok_iter (toks : tokens) : option (Token.t * string) * tokens :=
  match tok_call toks with
  | ((Token.EOF, _), r) => (None, r)
  | (t, r) => (Some t, r)
  end.

(** [tok.expect(want)]. *)
Fixpoint tok_expect (want : Token.t) (toks : tokens) : result (string * tokens) :=
  match toks with
  | [] =>
      if decide (want = Token.EOF) then Ok (EmptyString, [])
      else Raise (TokError "Unexpected token")
  | (Token.NEWLINE, _) :: r => tok_expect want r
  | (t, v) :: r =>
      if decide (t = want) then Ok (v, r) else Raise (TokError "Unexpected token")
  end.

(** [strings[-1] += more]. *)
Definition append_to_last (strings : list string) (more : string) : list string :=
  match rev strings with
  | last :: front => rev front ++ [last +:+ more]
  | [] => []
  end.

(** [read_colon_list].  Every loop of the parser takes a step budget
    [fuel]; a stream of [n] tokens never needs more than [n + 1] steps. *)
Fixpoint read_colon_list_loop (fuel : nat) (strings : list string)
    (ready_for_string : bool) (toks : tokens)
    : result (list string * Token.t * tokens) :=
  match fuel with
  | O => Raise OutOfFuel
  | S fuel =>
      match tok_iter toks with
      | (None, _) => Raise (TokError "Unexpected token")
      | (Some (token, tok_value), toks) =>
          match token with
          | Token.STRING =>
              if negb ready_for_string then Raise (TokError "Too many strings!")
              else read_colon_list_loop fuel (strings ++ [tok_value]) false toks
          | Token.COLON =>
              read_colon_list_loop fuel
                (if ready_for_string then strings ++ [EmptyString] else strings)
                true toks
          | Token.PLUS =>
              if ready_for_string || bool_decide (strings = []) then
                Raise (TokError "+ without a string before it!")
              else
                '(more, toks) ← tok_expect Token.STRING toks;
                read_colon_list_loop fuel (append_to_last strings more)
                  ready_for_string toks
          | _ =>
              if ready_for_string && bool_decide (token = Token.NEWLINE) then
                read_colon_list_loop fuel strings ready_for_string toks
              else if ready_for_string then Raise (TokError "Unexpected token")
              else Ok (strings, token, toks)
          end
      end
  end.

Definition read_colon_list (fuel : nat) (toks : tokens) (had_colon : bool)
    : result (list string * Token.t * tokens) :=
  read_colon_list_loop fuel [] had_colon toks.

(** [read_tags]: the open bracket was just read. *)
Fixpoint read_tags_loop (fuel : nat) (tags : list string) (toks : tokens)
    : result (list string * tokens) :=
  match fuel with
  | O => Raise OutOfFuel
  | S fuel =>
      match tok_call toks with
      | ((Token.STRING, value), toks) =>
          read_tags_loop fuel (tags ++ [rstrip_comma (casefold value)]) toks
      | ((Token.BRACK_CLOSE, _), toks) => Ok (tags, toks)
      | ((Token.EOF, _), _) => Raise (TokError "Unclosed tags!")
      | _ => Raise (TokError "Unexpected token")
      end
  end.

Definition read_tags (fuel : nat) (toks : tokens) : result (gset string * tokens) :=
  '(tags, toks) ← read_tags_loop fuel [] toks;
  tagset ← validate_tags tags TokError;
  Ok (tagset, toks).

(** [d.setdefault(k, {})] followed by [d[k][tags] = value]. *)
Definition attr_store {T} (d : attr_map T) (name : string) (tags : gset string)
    (value : T) : attr_map T :=
  let tags_map := default [] (dict_get d name) in
  dict_set d name (dict_set tags_map tags value).

(** ** EntityDef.parse *)

(** The header: helper names with their arguments, up to the [=]. *)
Fixpoint parse_header (fuel : nat) (fgd : FGD) (eval_bases : bool)
    (entity : EntityDef) (help_type : option HelperTypes.t) (toks : tokens)
    : result (EntityDef * option HelperTypes.t * tokens) :=
  match fuel with
  | O => Raise OutOfFuel
  | S fuel =>
      match tok_iter toks with
      | (None, _) => Raise (TokError "Entity header never ended!")
      | (Some (token, token_value), toks) =>
          match token with
          | Token.NEWLINE => parse_header fuel fgd eval_bases entity help_type toks
          | Token.STRING =>
              match help_type with
              | None =>
                  match HelperTypes.of_value token_value with
                  | Some ht => parse_header fuel fgd eval_bases entity (Some ht) toks
                  | None => Raise (TokError "Unknown HelperType!")
                  end
              | Some ht =>
                  (* No arguments for the previous helper. *)
                  let entity :=
                    set_helpers (helpers entity ++ [(ht, [EmptyString])]) entity in
                  parse_header fuel fgd eval_bases entity help_type toks
              end
          | Token.PAREN_ARGS =>
              match help_type with
              | None => Raise (TokError "Args without helper type!")
              | Some ht =>
                  let args := strip <$> split_comma token_value in
                  if decide (ht = HelperTypes.INHERIT) then
                    new_bases ←
                      foldl (fun acc base =>
                          bs ← acc;
                          base ← (if eval_bases then BaseEnt <$> FGD_getitem fgd base
                                  else Ok (BaseName base));
                          Ok (if decide (base ∈ bs) then bs else bs ++ [base]))
                        (Ok (bases entity)) args;
                    parse_header fuel fgd eval_bases (set_bases new_bases entity)
                      None toks
                  else
                    let entity := set_helpers (helpers entity ++ [(ht, args)]) entity in
                    parse_header fuel fgd eval_bases entity None toks
              end
          | Token.EQUALS => Ok (entity, help_type, toks)
          | _ => Raise (TokError "Unexpected token")
          end
      end
  end.

(** The optional description between the class name and the [[]. *)
Fixpoint parse_desc (fuel : nat) (entity : EntityDef) (desc : option (list string))
    (toks : tokens) : result (EntityDef * tokens) :=
  match fuel with
  | O => Raise OutOfFuel
  | S fuel =>
      match tok_iter toks with
      | (None, toks) => Ok (entity, toks)
      | (Some (doc_token, token_value), toks) =>
          match doc_token with
          | Token.NEWLINE => parse_desc fuel entity desc toks
          | Token.COLON =>
              match desc with
              | None => parse_desc fuel entity (Some []) toks
              | Some _ => Raise (TokError "Two colons in entity description!")
              end
          | Token.STRING =>
              match desc with
              | Some [] => parse_desc fuel entity (Some [token_value]) toks
              | _ => Raise (TokError "Unexpected token")
              end
          | Token.PLUS =>
              match desc with
              | Some ((_ :: _) as parts) =>
                  '(more, toks) ← tok_expect Token.STRING toks;
                  parse_desc fuel entity (Some (parts ++ [more])) toks
              | _ => Raise (TokError "+ without string before it!")
              end
          | Token.BRACK_OPEN =>
              match desc with
              | Some ((_ :: _) as parts) =>
                  Ok (set_desc (String.concat EmptyString parts) entity, toks)
              | _ => Ok (entity, toks)
              end
          | _ => Raise (TokError "Unexpected token")
          end
      end
  end.

(** The optional tag list and the value type that follow a name. *)
Definition read_tags_and_type (fuel : nat) (toks : tokens)
    : result (gset string * Token.t * string * tokens) :=
  let '((val_token, raw_value_type), toks) := tok_call toks in
  if decide (val_token = Token.BRACK_OPEN) then
    '(tags, toks) ← read_tags fuel toks;
    let '((val_token, raw_value_type), toks) := tok_call toks in
    Ok (tags, val_token, raw_value_type, toks)
  else Ok (∅, val_token, raw_value_type, toks).

Definition lookup_value_type (raw_value_type : string) : result ValueTypes.t :=
  match dict_get VALUE_TYPE_LOOKUP (casefold raw_value_type) with
  | Some val_typ => Ok val_typ
  | None => Raise (TokError "Unknown keyvalue type!")
  end.

(** The leading value of a spawnflags entry: an integer power of two. *)
Definition spawnflag_value (choices_value : string) : result pyval :=
  n ← match py_int choices_value with
      | Ok n => Ok n
      | Raise _ => Raise (TokError "SpawnFlags must be integer values!")
      end;
  whole ← math_log2_whole n;
  if whole : bool then Ok (PInt n)
  else Raise (TokError "SpawnFlags must be powers of two!").

(** One entry of a value list, once its strings and tags are read. *)
Definition parse_list_entry (val_typ : ValueTypes.t) (choices_value : string)
    (vals : list string) (val_tags : gset string) : result (list pyval) :=
  choices_value ←
    (if decide (val_typ = ValueTypes.SPAWNFLAGS) then spawnflag_value choices_value
     else Ok (PStr choices_value));
  match vals with
  | [name; dflt] =>
      if decide (val_typ = ValueTypes.SPAWNFLAGS) then
        Ok [choices_value; PStr name; PBool (String.eqb (strip dflt) "1");
            PTags val_tags]
      else Raise (TokError "Too many values!")
  | [name] =>
      if decide (val_typ = ValueTypes.SPAWNFLAGS) then
        Ok [choices_value; PStr name; PBool true; PTags val_tags]
      else Ok [choices_value; PStr name; PTags val_tags]
  | [] => Raise (TokError "Unexpected token")
  | _ => Raise (TokError "Too many values!")
  end.

(** The entries between [[] and []] of a choices or spawnflags keyvalue. *)
Fixpoint parse_val_list (fuel : nat) (val_typ : ValueTypes.t)
    (val_list : list (list pyval)) (toks : tokens)
    : result (list (list pyval) * tokens) :=
  match fuel with
  | O => Raise OutOfFuel
  | S fuel =>
      match tok_iter toks with
      | (None, _) => Raise (TokError "Unexpected token")
      | (Some (choices_token, choices_value), toks) =>
          match choices_token with
          | Token.NEWLINE => parse_val_list fuel val_typ val_list toks
          | Token.BRACK_CLOSE => Ok (val_list, toks)
          | Token.STRING =>
              '(vals, end_token, toks) ← read_colon_list fuel toks false;
              '(val_tags, toks) ←
                (if decide (end_token = Token.BRACK_OPEN) then read_tags fuel toks
                 else Ok (∅, toks));
              entry ← parse_list_entry val_typ choices_value vals val_tags;
              let val_list := val_list ++ [entry] in
              if decide (end_token = Token.BRACK_CLOSE) then Ok (val_list, toks)
              else parse_val_list fuel val_typ val_list toks
          | _ => Raise (TokError "Unexpected token")
          end
      end
  end.

(** An [input] or [output] line; [io_type] is the keyword. *)
Definition parse_io (fuel : nat) (entity : EntityDef) (io_type : string)
    (toks : tokens) : result (EntityDef * tokens) :=
  '(name, toks) ← tok_expect Token.STRING toks;
  '(tags, val_token, raw_value_type, toks) ← read_tags_and_type fuel toks;
  val_typ ← lookup_value_type (strip raw_value_type);
  if ValueTypes.has_list val_typ then
    Raise (TokError "value type is not valid for an input or output!")
  else
    '(attrs, token, toks) ← read_colon_list fuel toks false;
    if decide (token = Token.EQUALS) then Raise (TokError "Unexpected token")
    else
      io_desc ←
        match attrs with
        | [] => Ok EmptyString
        | [io_desc] => Ok io_desc
        | _ => Raise (TokError "Too many values for IO definition!")
        end;
      let value := mkIODef name val_typ io_desc in
      if String.eqb io_type "input" then
        Ok (set_inputs (attr_store (inputs entity) (casefold name) tags value) entity,
            toks)
      else
        Ok (set_outputs (attr_store (outputs entity) (casefold name) tags value) entity,
            toks).

(** A keyvalue line; [name] is the word that opened it. *)
Definition parse_keyvalue (fuel : nat) (entity : EntityDef) (name : string)
    (toks : tokens) : result (EntityDef * tokens) :=
  '(tags, val_token, raw_value_type, toks) ← read_tags_and_type fuel toks;
  if decide (val_token ≠ Token.PAREN_ARGS) then Raise (TokError "Unexpected token")
  else
    val_typ ← lookup_value_type (strip raw_value_type);
    let '((next_token, key_flag), toks) := tok_call toks in
    '(is_readonly, had_colon, has_equal, attrs) ←
      match next_token with
      | Token.STRING =>
          Ok (String.eqb (casefold key_flag) "readonly", false, None, None)
      | Token.COLON => Ok (false, true, None, None)
      | Token.EQUALS =>
          if decide (val_typ = ValueTypes.SPAWNFLAGS) then
            Ok (false, false, Some next_token, Some [])
          else Ok (false, false, None, None)
      | Token.NEWLINE => Ok (false, false, Some next_token, Some [])
      | _ => Raise (TokError "Unexpected token")
      end;
    '(attrs, has_equal, toks) ←
      match attrs with
      | Some attrs => Ok (attrs, has_equal, toks)
      | None =>
          '(attrs, token, toks) ← read_colon_list fuel toks had_colon;
          Ok (attrs, Some token, toks)
      end;
    '(disp_name, dflt, desc) ←
      match attrs with
      | [disp_name; dflt; desc] => Ok (disp_name, dflt, desc)
      | [disp_name; dflt] => Ok (disp_name, dflt, EmptyString)
      | [disp_name] => Ok (disp_name, EmptyString, EmptyString)
      | [] => Ok (name, EmptyString, EmptyString)
      | _ => Raise (TokError "Too many attributes for keyvalue!")
      end;
    '(val_list, toks) ←
      (if ValueTypes.has_list val_typ then
         if decide (has_equal ≠ Some Token.EQUALS) then
           Raise (TokError "No list for this value type!")
         else
           '(_, toks) ← tok_expect Token.BRACK_OPEN toks;
           '(val_list, toks) ← parse_val_list fuel val_typ [] toks;
           Ok (Some val_list, toks)
       else if decide (has_equal = Some Token.EQUALS) then
         Raise (TokError "value types of this kind can't have lists!")
       else Ok (None, toks));
    let key := casefold name in
    let tags_map := default [] (dict_get (keyvalues entity) key) in
    let entity :=
      if bool_decide (tags_map = []) then set_kv_order (kv_order entity ++ [key]) entity
      else entity in
    let value :=
      mkKeyValues name val_typ disp_name dflt desc val_list
        (PBool (py_eq (PBool is_readonly) (PStr "readonly"))) in
    Ok (set_keyvalues (attr_store (keyvalues entity) key tags value) entity, toks).

(** The body: keyvalue and input/output lines up to the closing []]. *)
Fixpoint parse_body (fuel : nat) (entity : EntityDef) (toks : tokens)
    : result (EntityDef * tokens) :=
  match fuel with
  | O => Raise OutOfFuel
  | S fuel =>
      match tok_iter toks with
      | (None, toks) => Ok (entity, toks)
      | (Some (token, token_value), toks) =>
          match token with
          | Token.BRACK_CLOSE => Ok (entity, toks)
          | Token.NEWLINE => parse_body fuel entity toks
          | Token.STRING =>
              let io_type := casefold token_value in
              '(entity, toks) ←
                (if bool_decide (io_type ∈ ["input"; "output"]) then
                   parse_io fuel entity io_type toks
                 else parse_keyvalue fuel entity io_type toks);
              parse_body fuel entity toks
          | _ => Raise (TokError "Unexpected token")
          end
      end
  end.

(** [EntityDef.parse].  The new object gets a fresh address; it is entered
    in the database as soon as its class name is known, and the store
    holds it once the body is read. *)
Definition EntityDef_parse (fuel : nat) (h : heap) (fgd : FGD) (toks : tokens)
    (ent_type : EntityTypes.t) (eval_bases : bool) : result (heap * FGD * tokens) :=
  let this : addr := fresh (dom h) in
  let entity := EntityDef_init ent_type in
  '(entity, help_type, toks) ← parse_header fuel fgd eval_bases entity None toks;
  let entity :=
    match help_type with
    | Some ht => set_helpers (helpers entity ++ [(ht, [])]) entity
    | None => entity
    end in
  '(name, toks) ← tok_expect Token.STRING toks;
  let entity := set_classname (strip name) entity in
  '(entity, toks) ← parse_desc fuel entity None toks;
  let fgd := set_entities (dict_set (entities fgd) (casefold (classname entity)) this) fgd in
  '(entity, toks) ← parse_body fuel entity toks;
  Ok (<[this := entity]> h, fgd, toks).

(** ** struct packing

    [Struct.pack] raises [struct.error] when the number does not fit the
    field.  Bytes are integers in [0, 256). *)

Definition pack_u8 (n : Z) : result (list Z) :=
  if (0 <=? n) && (n <=? 255) then Ok [n]
  else Raise (StructError "ubyte format requires 0 <= number <= 255").

Definition pack_u16 (n : Z) : result (list Z) :=
  if (0 <=? n) && (n <=? 65535) then Ok [n / 256; n mod 256]
  else Raise (StructError "'H' format requires 0 <= number <= 65535").

Definition pack_u32 (n : Z) : result (list Z) :=
  if (0 <=? n) && (n <=? 4294967295) then
    Ok [n / 16777216; (n / 65536) mod 256; (n / 256) mod 256; n mod 256]
  else Raise (StructError "'I' format requires 0 <= number <= 4294967295").

(** ** BinStrDict *)

Record BinStrDict : Type := mkBinStrDict {
  _dict : list (string * Z);
  cur_index : Z;
}.

Definition BinStrDict_init : BinStrDict := mkBinStrDict [] 0.

(** [BinStrDict.__call__].  The object is mutated before the overflow
    check, so the new state is returned next to the outcome. *)
Definition BinStrDict_call (self : BinStrDict) (str : string)
    : BinStrDict * result (list Z) :=
  match dict_get (_dict self) str with
  | Some index => (self, pack_u16 index)
  | None =>
      let index := cur_index self in
      let self := mkBinStrDict (dict_set (_dict self) str index) (index + 1) in
      if index >? Z.shiftl 1 16 then
        (self, Raise (ValueError "Too many items in dictionary!"))
      else (self, pack_u16 index)
  end.

(** Registering strings one after the other on the same dictionary, as the
    serialisers do; the first exception ends the run. *)
Fixpoint register_all (self : BinStrDict) (strs : list string)
    : BinStrDict * result (list (list Z)) :=
  match strs with
  | [] => (self, Ok [])
  | s :: rest =>
      match BinStrDict_call self s with
      | (self, Ok bytes) =>
          match register_all self rest with
          | (self, Ok more) => (self, Ok (bytes :: more))
          | (self, Raise e) => (self, Raise e)
          end
      | (self, Raise e) => (self, Raise e)
      end
  end.

(** The distinct strings of a run, in the order of their first
    occurrence, starting from those already [seen]. *)
Fixpoint first_seen_from (seen : list string) (strs : list string) : list string :=
  match strs with
  | [] => seen
  | s :: rest =>
      if decide (s ∈ seen) then first_seen_from seen rest
      else first_seen_from (seen ++ [s]) rest
  end.

Definition first_seen (strs : list string) : list string := first_seen_from [] strs.

(** The dictionary that numbers [seen] from zero. *)
Definition numbered (seen : list string) : list (string * Z) :=
  imap (fun i s => (s, Z.of_nat i)) seen.

(** The bytes that [__call__] returns for the string numbered [i]. *)
Definition index_bytes (i : nat) : list Z := [Z.of_nat i / 256; Z.of_nat i mod 256].

(** ** FGD.apply_bases and FGD.collapse_bases

    A stateful operation returns the store it leaves behind together with
    the exception that ended it, if any: the caller of a failed call still
    sees the mutations made before the failure. *)

Definition outcome : Type := heap * option exn.

(** The bases of one entity, strings replaced by the entities they name. *)
Fixpoint resolve_bases (fgd : FGD) (classname : string) (orig_bases : list base_ref)
    (new_bases : list base_ref) : list base_ref * option exn :=
  match orig_bases with
  | [] => (new_bases, None)
  | BaseEnt b :: rest => resolve_bases fgd classname rest (new_bases ++ [BaseEnt b])
  | BaseName base :: rest =>
      match FGD_getitem fgd base with
      | Ok b => resolve_bases fgd classname rest (new_bases ++ [BaseEnt b])
      | Raise _ => (new_bases, Some (ValueError ("Unknown base (" +:+ base +:+ ") for " +:+ classname)))
      end
  end.

(** [FGD.apply_bases]: [ent.bases] is a new list that is filled as the old
    one is read, so a failure leaves the entity with the bases done so
    far. *)
Fixpoint apply_bases_loop (fgd : FGD) (h : heap) (ents : list addr) : outcome :=
  match ents with
  | [] => (h, None)
  | ent :: rest =>
      match h !! ent with
      | None => (h, Some Dangling)
      | Some e =>
          let '(new_bases, err) := resolve_bases fgd (classname e) (bases e) [] in
          let h := <[ent := set_bases new_bases e]> h in
          match err with
          | Some _ => (h, err)
          | None => apply_bases_loop fgd h rest
          end
      end
  end.

Definition FGD_apply_bases (fgd : FGD) (h : heap) : outcome :=
  apply_bases_loop fgd h (FGD_iter fgd).

(** Tuples compare field by field with [==]. *)
Fixpoint py_tuple_eq (x y : list pyval) : bool :=
  match x, y with
  | [], [] => true
  | a :: x, b :: y => py_eq a b && py_tuple_eq x y
  | _, _ => false
  end.

(** [for val in vals: if val not in targ_list: targ_list.append(val)]. *)
Definition union_val_lists (targ_list vals : list (list pyval)) : list (list pyval) :=
  foldl (fun targ val => if existsb (py_tuple_eq val) targ then targ else targ ++ [val])
    targ_list vals.

Definition set_val_list (l : option (list (list pyval))) (kv : KeyValues) : KeyValues :=
  mkKeyValues (kv_name kv) (kv_type kv) (kv_disp_name kv) (kv_default kv) (kv_desc kv)
    l (kv_readonly kv).

(** One [(tag, kv)] of a base merged into the tag map of the entity. *)
Definition merge_kv (ent_kv_map : tag_map KeyValues) (tag : gset string)
    (kv : KeyValues) : result (tag_map KeyValues) :=
  match dict_get ent_kv_map tag with
  | None => Ok (dict_set ent_kv_map tag (KeyValues_copy kv))
  | Some target =>
      if ValueTypes.has_list (kv_type kv) then
        match kv_val_list target with
        | Some ((_ :: _) as targ_list) =>
            match kv_val_list kv with
            | None => Raise (TypeError "'NoneType' object is not iterable")
            | Some vals =>
                Ok (dict_set ent_kv_map tag
                      (set_val_list (Some (union_val_lists targ_list vals)) target))
            end
        | _ => Ok ent_kv_map
        end
      else Ok ent_kv_map
  end.

Definition merge_io (ent_tags_map : tag_map IODef) (tag : gset string)
    (io_def : IODef) : tag_map IODef :=
  match dict_get ent_tags_map tag with
  | None => dict_set ent_tags_map tag (IODef_copy io_def)
  | Some _ => ent_tags_map
  end.

(** The state of the merge of one entity: its keyvalues, the names found
    in bases so far ([base_kv]) and the names already ordered. *)
Definition merge_kv_name (st : attr_map KeyValues * list string * gset string)
    (name : string) (base_kv_map : tag_map KeyValues)
    : result (attr_map KeyValues * list string * gset string) :=
  let '(ent_kv, base_kv, keyvalue_names) := st in
  let ent_kv_map := default [] (dict_get ent_kv name) in
  ent_kv_map ←
    foldl (fun acc '(tag, kv) => m ← acc; merge_kv m tag kv) (Ok ent_kv_map) base_kv_map;
  let ent_kv := dict_set ent_kv name ent_kv_map in
  if bool_decide (name ∈ keyvalue_names) then Ok (ent_kv, base_kv, keyvalue_names)
  else Ok (ent_kv, base_kv ++ [name], {[name]} ∪ keyvalue_names).

Definition merge_io_map (ent_map base_map : attr_map IODef) : attr_map IODef :=
  foldl (fun ent_map '(name, base_tags_map) =>
      let ent_tags_map := default [] (dict_get ent_map name) in
      dict_set ent_map name
        (foldl (fun m '(tag, io_def) => merge_io m tag io_def) ent_tags_map
           base_tags_map))
    ent_map base_map.

(** The merge of one base into the entity at [ent]. *)
Definition merge_base (h : heap) (ent : addr)
    (names : list string * gset string) (base : base_ref)
    : heap * result (list string * gset string) :=
  match base with
  | BaseName _ => (h, Raise (TypeError "'str' object has no attribute 'keyvalues'"))
  | BaseEnt b =>
      match h !! b, h !! ent with
      | Some base, Some e =>
          match
            foldl (fun acc '(name, base_kv_map) =>
                st ← acc; merge_kv_name st name base_kv_map)
              (Ok (keyvalues e, names.1, names.2)) (keyvalues base)
          with
          | Raise err => (h, Raise err)
          | Ok (ent_kv, base_kv, keyvalue_names) =>
              let e := set_keyvalues ent_kv e in
              let e := set_inputs (merge_io_map (inputs e) (inputs base)) e in
              let e := set_outputs (merge_io_map (outputs e) (outputs base)) e in
              (<[ent := e]> h, Ok (base_kv, keyvalue_names))
          end
      | _, _ => (h, Raise Dangling)
      end
  end.

Fixpoint merge_bases (h : heap) (ent : addr) (names : list string * gset string)
    (todo_bases : list base_ref) : heap * result (list string * gset string) :=
  match todo_bases with
  | [] => (h, Ok names)
  | base :: rest =>
      match merge_base h ent names base with
      | (h, Ok names) => merge_bases h ent names rest
      | (h, Raise err) => (h, Raise err)
      end
  end.

(** All of this entity's bases are collapsed: collapse it. *)
Definition collapse_ent (h : heap) (ent : addr) : outcome :=
  match h !! ent with
  | None => (h, Some Dangling)
  | Some e =>
      match merge_bases h ent ([], list_to_set (kv_order e)) (bases e) with
      | (h, Raise err) => (h, Some err)
      | (h, Ok (base_kv, _)) =>
          match h !! ent with
          | None => (h, Some Dangling)
          | Some e =>
              (<[ent := set_bases [] (set_kv_order (base_kv ++ kv_order e) e)]> h, None)
          end
      end
  end.

(** The inner loop over the bases of an entity that is not yet done. *)
Fixpoint check_bases (done deferred : gset addr) (ready : bool)
    (ent_bases : list base_ref) : result (gset addr * bool) :=
  match ent_bases with
  | [] => Ok (deferred, ready)
  | BaseName base :: _ => Raise (ValueError ("Unevaluated base: " +:+ base))
  | BaseEnt base :: rest =>
      if bool_decide (base ∈ done) then check_bases done deferred ready rest
      else check_bases done ({[base]} ∪ deferred) false rest
  end.

Record pass_state : Type := mkPass {
  ps_heap : heap;
  ps_done : gset addr;
  ps_deferred : gset addr;
}.

(** The body of [for ent in todo]. *)
Definition collapse_visit (st : pass_state) (ent : addr) : pass_state * option exn :=
  match ps_heap st !! ent with
  | None => (st, Some Dangling)
  | Some e =>
      if bool_decide (bases e = []) then
        (mkPass (ps_heap st) ({[ent]} ∪ ps_done st) (ps_deferred st), None)
      else
        match check_bases (ps_done st) (ps_deferred st) true (bases e) with
        | Raise err => (st, Some err)
        | Ok (deferred, false) =>
            (mkPass (ps_heap st) (ps_done st) ({[ent]} ∪ deferred), None)
        | Ok (deferred, true) =>
            match collapse_ent (ps_heap st) ent with
            | (h, Some err) => (mkPass h (ps_done st) deferred, Some err)
            | (h, None) => (mkPass h ({[ent]} ∪ ps_done st) deferred, None)
            end
        end
  end.

Fixpoint collapse_pass (st : pass_state) (visit : list addr) : pass_state * option exn :=
  match visit with
  | [] => (st, None)
  | ent :: rest =>
      match collapse_visit st ent with
      | (st, None) => collapse_pass st rest
      | (st, Some err) => (st, Some err)
      end
  end.

(** The [while todo] loop.  [set_order] is the order in which a set is
    iterated, which Python leaves open; [fuel] bounds the passes. *)
Fixpoint collapse_loop (fuel : nat) (set_order : gset addr → list addr)
    (h : heap) (todo done : gset addr) : outcome :=
  match fuel with
  | O => (h, Some OutOfFuel)
  | S fuel =>
      if bool_decide (todo = ∅) then (h, None)
      else
        match collapse_pass (mkPass h done ∅) (set_order todo) with
        | (st, Some err) => (ps_heap st, Some err)
        | (st, None) =>
            if bool_decide (todo = ps_deferred st) then
              (ps_heap st, Some (ValueError "Loop in bases!"))
            else collapse_loop fuel set_order (ps_heap st) (ps_deferred st) (ps_done st)
        end
  end.

(** [FGD.collapse_bases]. *)
Definition FGD_collapse_bases (fuel : nat) (set_order : gset addr → list addr)
    (fgd : FGD) (h : heap) : outcome :=
  collapse_loop fuel set_order h (list_to_set (FGD_iter fgd)) ∅.

(** A keyvalue of a list type carries a non-empty value list. *)
Definition kv_listed (kv : KeyValues) : Prop :=
  ValueTypes.has_list (kv_type kv) = true → ∃ x l, kv_val_list kv = Some (x :: l).

Definition all_kv_listed (kvs : attr_map KeyValues) : Prop :=
  Forall (fun entry : string * tag_map KeyValues =>
      Forall (fun tagged : gset string * KeyValues => kv_listed tagged.2) entry.2)
    kvs.

(** Well-formedness of a store for [collapse_bases]: every base is a
    reference to a stored entity, and list-typed keyvalues have their
    lists. *)
Definition bases_resolved (h : heap) : Prop :=
  ∀ a e, h !! a = Some e →
    ∀ b, b ∈ bases e → ∃ b', b = BaseEnt b' ∧ is_Some (h !! b').

Definition val_lists_present (h : heap) : Prop :=
  ∀ a e, h !! a = Some e → all_kv_listed (keyvalues e).

(** The invariant of the passes of [collapse_bases] over a store whose
    addresses are [U] and where [A] and [B] are each other's base. *)
Definition cycle_inv (A B : addr) (eA eB : EntityDef) (U : gset addr)
    (h : heap) (done : gset addr) : Prop :=
  dom h = U ∧ bases_resolved h ∧ val_lists_present h ∧
  (∀ a, a ∈ done → ∃ e, h !! a = Some e ∧ bases e = []) ∧
  h !! A = Some eA ∧ h !! B = Some eB.

(** How far a pass has got: what it may have added to the two sets. *)
Definition pass_progress (U : gset addr) (st st' : pass_state) : Prop :=
  ps_done st ⊆ ps_done st' ∧ ps_deferred st ⊆ ps_deferred st' ∧
  (∀ y, y ∈ ps_deferred st' → y ∈ ps_deferred st ∨ (y ∉ ps_done st ∧ y ∈ U)).

(** The passes left at most, for a store of [n] entities: the measure that
    every pass decreases. *)
Definition passes_left (U todo done : gset addr) : nat :=
  size (U ∖ done) * (2 * size U + 2)
  + (if decide (todo ∩ done = ∅) then 0 else size U + 1)
  + size (U ∖ todo).

(** A visiting order for sets: the members, as they come in [priority]. *)
Definition visit_in (priority : list addr) (X : gset addr) : list addr :=
  filter (fun a => a ∈ X) priority.

(** The tokens of
    [base(Base1) = my_ent : "desc" [ "field"(integer) : "Field" : "5" ]]
    and of [= Base1 [ other(string) : "Other" : "x" ]]. *)
Definition my_ent_tokens : tokens :=
  [(Token.STRING, "base"); (Token.PAREN_ARGS, "Base1"); (Token.EQUALS, "=");
   (Token.STRING, "my_ent"); (Token.COLON, ":"); (Token.STRING, "desc");
   (Token.BRACK_OPEN, "["); (Token.NEWLINE, ""); (Token.STRING, "field");
   (Token.PAREN_ARGS, "integer"); (Token.COLON, ":"); (Token.STRING, "Field");
   (Token.COLON, ":"); (Token.STRING, "5"); (Token.NEWLINE, "");
   (Token.BRACK_CLOSE, "]")].

Definition Base1_tokens : tokens :=
  [(Token.EQUALS, "="); (Token.STRING, "Base1"); (Token.BRACK_OPEN, "[");
   (Token.NEWLINE, ""); (Token.STRING, "other"); (Token.PAREN_ARGS, "string");
   (Token.COLON, ":"); (Token.STRING, "Other"); (Token.COLON, ":");
   (Token.STRING, "x"); (Token.NEWLINE, ""); (Token.BRACK_CLOSE, "]")].

(** The database of the example: both entities parsed without evaluating
    bases, then [apply_bases]. *)
Definition example_parsed : result (heap * FGD) :=
  '(h, fgd, _) ← EntityDef_parse 20 ∅ FGD_init my_ent_tokens EntityTypes.POINT false;
  '(h, fgd, _) ← EntityDef_parse 20 h fgd Base1_tokens EntityTypes.BASE false;
  Ok (h, fgd).

(** The two entities once parsed and linked by [apply_bases]. *)
Definition my_ent_addr : addr := 1%positive.
Definition Base1_addr : addr := 2%positive.

Definition my_ent_def : EntityDef :=
  mkEntityDef EntityTypes.POINT "my_ent"
    [("field",
      [(∅, mkKeyValues "field" ValueTypes.INT "Field" "5" "" None (PBool false))])]
    [] [] ["field"] [BaseEnt Base1_addr] [] "desc".

Definition Base1_def : EntityDef :=
  mkEntityDef EntityTypes.BASE "Base1"
    [("other",
      [(∅, mkKeyValues "other" ValueTypes.STRING "Other" "x" "" None (PBool false))])]
    [] [] ["other"] [] [] "".

Definition example_heap : heap :=
  <[Base1_addr := Base1_def]> (<[my_ent_addr := my_ent_def]> ∅).

Definition example_fgd : FGD :=
  mkFGD [("my_ent", my_ent_addr); ("base1", Base1_addr)] (NInt 0) (NInt 0).

(** [my_ent] after a successful collapse. *)
Definition my_ent_collapsed : EntityDef :=
  mkEntityDef EntityTypes.POINT "my_ent"
    [("field",
      [(∅, mkKeyValues "field" ValueTypes.INT "Field" "5" "" None (PBool false))]);
     ("other",
      [(∅, mkKeyValues "other" ValueTypes.STRING "Other" "x" "" None (PBool false))])]
    [] [] ["other"; "field"] [] [] "desc".

(** A database read from five declarations: [A] and [B] are each other's
    base; [E1] declares the keyvalue [mode(choices)] with an empty list;
    [E2] has the base [E1]; [E3] has the base [E2] and its own
    [mode(choices)] with one choice. *)
Definition chain_A_tokens : tokens :=
  [(Token.STRING, "base"); (Token.PAREN_ARGS, "B"); (Token.EQUALS, "=");
   (Token.STRING, "A"); (Token.BRACK_OPEN, "["); (Token.NEWLINE, "");
   (Token.BRACK_CLOSE, "]")].

Definition chain_B_tokens : tokens :=
  [(Token.STRING, "base"); (Token.PAREN_ARGS, "A"); (Token.EQUALS, "=");
   (Token.STRING, "B"); (Token.BRACK_OPEN, "["); (Token.NEWLINE, "");
   (Token.BRACK_CLOSE, "]")].

Definition chain_E1_tokens : tokens :=
  [(Token.EQUALS, "="); (Token.STRING, "E1"); (Token.BRACK_OPEN, "[");
   (Token.NEWLINE, ""); (Token.STRING, "mode"); (Token.PAREN_ARGS, "choices");
   (Token.COLON, ":"); (Token.STRING, "Mode"); (Token.COLON, ":");
   (Token.STRING, "0"); (Token.EQUALS, "="); (Token.NEWLINE, "");
   (Token.BRACK_OPEN, "["); (Token.NEWLINE, ""); (Token.BRACK_CLOSE, "]");
   (Token.NEWLINE, ""); (Token.BRACK_CLOSE, "]")].

Definition chain_E2_tokens : tokens :=
  [(Token.STRING, "base"); (Token.PAREN_ARGS, "E1"); (Token.EQUALS, "=");
   (Token.STRING, "E2"); (Token.BRACK_OPEN, "["); (Token.NEWLINE, "");
   (Token.BRACK_CLOSE, "]")].

Definition chain_E3_tokens : tokens :=
  [(Token.STRING, "base"); (Token.PAREN_ARGS, "E2"); (Token.EQUALS, "=");
   (Token.STRING, "E3"); (Token.BRACK_OPEN, "["); (Token.NEWLINE, "");
   (Token.STRING, "mode"); (Token.PAREN_ARGS, "choices"); (Token.COLON, ":");
   (Token.STRING, "Mode"); (Token.COLON, ":"); (Token.STRING, "0");
   (Token.EQUALS, "="); (Token.NEWLINE, ""); (Token.BRACK_OPEN, "[");
   (Token.NEWLINE, ""); (Token.STRING, "0"); (Token.COLON, ":");
   (Token.STRING, "Off"); (Token.NEWLINE, ""); (Token.BRACK_CLOSE, "]");
   (Token.NEWLINE, ""); (Token.BRACK_CLOSE, "]")].

(** The five entities parsed without evaluating bases. *)
Definition chain_parsed : result (heap * FGD) :=
  '(h, fgd, _) ← EntityDef_parse 30 ∅ FGD_init chain_A_tokens EntityTypes.BASE false;
  '(h, fgd, _) ← EntityDef_parse 30 h fgd chain_B_tokens EntityTypes.BASE false;
  '(h, fgd, _) ← EntityDef_parse 30 h fgd chain_E1_tokens EntityTypes.BASE false;
  '(h, fgd, _) ← EntityDef_parse 30 h fgd chain_E2_tokens EntityTypes.BASE false;
  '(h, fgd, _) ← EntityDef_parse 30 h fgd chain_E3_tokens EntityTypes.POINT false;
  Ok (h, fgd).

(** The same database once [apply_bases] has linked it; [choices] is the
    value list of the keyvalue of [E1]. *)
Definition chain_A : addr := 1%positive.
Definition chain_B : addr := 2%positive.
Definition chain_E1 : addr := 3%positive.
Definition chain_E2 : addr := 4%positive.
Definition chain_E3 : addr := 5%positive.

Definition chain_A_def : EntityDef :=
  mkEntityDef EntityTypes.BASE "A" [] [] [] [] [BaseEnt chain_B] [] "".

Definition chain_B_def : EntityDef :=
  mkEntityDef EntityTypes.BASE "B" [] [] [] [] [BaseEnt chain_A] [] "".

Definition mode_kv (val_list : option (list (list pyval))) : KeyValues :=
  mkKeyValues "mode" ValueTypes.CHOICES "Mode" "0" "" val_list (PBool false).

Definition chain_heap_with (choices : list (list pyval)) : heap :=
  <[chain_E3 := mkEntityDef EntityTypes.POINT "E3"
      [("mode", [(∅, mode_kv (Some [[PStr "0"; PStr "Off"; PTags ∅]]))])]
      [] [] ["mode"] [BaseEnt chain_E2] [] ""]>
  (<[chain_E2 := mkEntityDef EntityTypes.BASE "E2" [] [] [] []
      [BaseEnt chain_E1] [] ""]>
  (<[chain_E1 := mkEntityDef EntityTypes.BASE "E1"
      [("mode", [(∅, mode_kv (Some choices))])] [] [] ["mode"] [] [] ""]>
  (<[chain_B := chain_B_def]> (<[chain_A := chain_A_def]> ∅)))).

Definition chain_heap : heap := chain_heap_with [].

Definition chain_fgd : FGD :=
  mkFGD [("a", chain_A); ("b", chain_B); ("e1", chain_E1); ("e2", chain_E2);
         ("e3", chain_E3)] (NInt 0) (NInt 0).

(** [E2] once collapsed: the keyvalue it took from [E1] has lost its
    empty value list. *)
Definition chain_E2_collapsed : EntityDef :=
  mkEntityDef EntityTypes.BASE "E2" [("mode", [(∅, mode_kv None)])] [] []
    ["mode"] [] [] "".

(** ** The entity view

    [_EntityView] looks a name up in the entity and then in its bases,
    depth first.  [_maps] is a generator, so the walk stops at the map
    that answers the lookup; [fuel] bounds the depth of the recursion. *)

Inductive view_key : Type :=
  | Bare (name : string)                          (* obj['name'] *)
  | Tagged (name : string) (tags : list string).  (* obj['name', {tags}] *)

(** [sorted(tag_map.items(), key=lambda t: len(t[0]), reverse=True)]: a
    stable sort, larger tag sets first. *)
Fixpoint insert_by_size {T} (x : gset string * T) (l : tag_map T) : tag_map T :=
  match l with
  | [] => [x]
  | y :: rest =>
      if (size x.1 <? size y.1)%nat then y :: insert_by_size x rest
      else x :: y :: rest
  end.

Definition sorted_by_size {T} (items : tag_map T) : tag_map T :=
  foldr insert_by_size [] items.

(** The first value of a tag map whose tags match the search. *)
Definition first_match {T} (search_tags : gset string) (items : tag_map T) : option T :=
  snd <$> find (fun item => match_tags search_tags (elements item.1))
            (sorted_by_size items).

(** The walk over [_maps()] with the body of the loop of [__getitem__]
    applied to each map: [Some value] stops the walk. *)
Fixpoint view_find {T} (fuel : nat) (h : heap) (attr : EntityDef → attr_map T)
    (name : string) (search_tags : gset string) (ent : base_ref)
    : result (option T) :=
  match fuel with
  | O => Raise OutOfFuel
  | S fuel =>
      match ent with
      | BaseName _ => Raise (AttributeError "'str' object has no such attribute")
      | BaseEnt a =>
          match h !! a with
          | None => Raise Dangling
          | Some e =>
              match dict_get (attr e) name ≫= first_match search_tags with
              | Some value => Ok (Some value)
              | None =>
                  (fix walk (todo : list base_ref) : result (option T) :=
                     match todo with
                     | [] => Ok None
                     | base :: rest =>
                         match view_find fuel h attr name search_tags base with
                         | Ok None => walk rest
                         | found_or_raised => found_or_raised
                         end
                     end) (bases e)
              end
          end
      end
  end.

(** [_EntityView.__getitem__]. *)
Definition EntityView_getitem {T} (fuel : nat) (h : heap) (ent : addr)
    (attr : EntityDef → attr_map T) (key : view_key) : result T :=
  let '(name, search_tags) :=
    match key with
    | Bare name => (name, ∅)
    | Tagged name tags => (name, list_to_set (casefold <$> tags))
    end in
  let name := casefold name in
  found ← view_find fuel h attr name search_tags (BaseEnt ent);
  match found with
  | Some value => Ok value
  | None => Raise (KeyError name)
  end.

(** An entity with one keyvalue, declared under the tag [A]. *)
Definition tagged_kv : KeyValues :=
  mkKeyValues "k" ValueTypes.STRING "K" "" "" None (PBool false).
Definition tagged_ent : EntityDef :=
  mkEntityDef EntityTypes.POINT "ent" [("k", [({[ "A" ]}, tagged_kv)])]
    [] [] ["k"] [] [] "".
Definition tagged_heap : heap := <[1%positive := tagged_ent]> ∅.

(** ** The binary writer

    A serialiser appends bytes to the file and may enter strings in the
    shared dictionary; an exception abandons the output. *)

Definition writer : Type := BinStrDict → result (BinStrDict * list Z).

(** [file.write(fmt.pack(...))]. *)
Definition w_bytes (packed : result (list Z)) : writer :=
  fun dic => bytes ← packed; Ok (dic, bytes).

(** [file.write(str_dict(s))]. *)
Definition w_str (s : string) : writer :=
  fun dic =>
    let '(dic, packed) := BinStrDict_call dic s in
    bytes ← packed; Ok (dic, bytes).

Definition w_raise (e : exn) : writer := fun _ => Raise e.
Definition w_nop : writer := fun dic => Ok (dic, []).

Definition w_seq (first second : writer) : writer :=
  fun dic =>
    '(dic, front) ← first dic;
    '(dic, back) ← second dic;
    Ok (dic, front ++ back).

Infix ";;;" := w_seq (at level 62, right associativity).

Fixpoint w_each {A} (f : A → writer) (l : list A) : writer :=
  match l with
  | [] => w_nop
  | x :: rest => f x ;;; w_each f rest
  end.

(** [BinStrDict.write_tags]: the tags go out in the iteration order of
    the set. *)
Definition write_tags (tags : gset string) : writer :=
  w_bytes (pack_u8 (Z.of_nat (size tags))) ;;; w_each w_str (elements tags).

(** One spawnflags entry: [for val, name, default in self.val_list]. *)
Definition serialise_flag (entry : list pyval) : writer :=
  match entry with
  | [val; name; dflt] =>
      match val, name with
      | PInt n, PStr name =>
          fun dic =>
            power ← math_log2_int n;
            let power := if truthy dflt then Z.lor power 128 else power in
            (w_bytes (pack_u8 power) ;;; w_str name) dic
      | _, _ => w_raise (TypeError "must be real number, not str")
      end
  | _ :: _ :: _ :: _ :: _ => w_raise (ValueError "too many values to unpack (expected 3)")
  | _ => w_raise (ValueError "not enough values to unpack (expected 3)")
  end.

(** One choices entry: [for val, name in self.val_list]. *)
Definition serialise_choice (entry : list pyval) : writer :=
  match entry with
  | [val; name] =>
      match val, name with
      | PStr val, PStr name => w_str val ;;; w_str name
      | _, _ => w_raise (TypeError "string expected")
      end
  | _ :: _ :: _ :: _ => w_raise (ValueError "too many values to unpack (expected 2)")
  | _ => w_raise (ValueError "not enough values to unpack (expected 2)")
  end.

(** [KeyValues.serialise]. *)
Definition KeyValues_serialise (self : KeyValues) : writer :=
  w_str (kv_name self) ;;;
  w_str (kv_disp_name self) ;;;
  match dict_get VALUE_TYPE_INDEX (kv_type self) with
  | None => w_raise (KeyError "value type")
  | Some value_type =>
      let value_type :=
        if truthy (kv_readonly self) then Z.lor value_type 128 else value_type in
      w_bytes (pack_u8 value_type) ;;;
      if decide (kv_type self = ValueTypes.SPAWNFLAGS) then
        match kv_val_list self with
        | None => w_raise (TypeError "object of type 'NoneType' has no len()")
        | Some val_list =>
            w_bytes (pack_u8 (Z.of_nat (List.length val_list))) ;;;
            w_each serialise_flag val_list
        end
      else
        w_str (kv_default self) ;;;
        if decide (kv_type self = ValueTypes.CHOICES) then
          match kv_val_list self with
          | None => w_raise (TypeError "object of type 'NoneType' has no len()")
          | Some val_list =>
              w_bytes (pack_u16 (Z.of_nat (List.length val_list))) ;;;
              w_each serialise_choice val_list
          end
        else w_nop
  end.

(** [IODef.serialise]. *)
Definition IODef_serialise (self : IODef) : writer :=
  w_str (io_name self) ;;;
  match dict_get VALUE_TYPE_INDEX (io_type self) with
  | None => w_raise (KeyError "value type")
  | Some value_type => w_bytes (pack_u8 value_type)
  end.

(** ** The rest of the binary format: writing *)

Definition BIN_FORMAT_VERSION : Z := 2.

(** A [str] is kept as the bytes of its UTF-8 form: [encode] gives those
    bytes, and [len] counts the code points, that is, the bytes that are
    not continuation bytes. *)
Definition utf8 (s : string) : list Z :=
  (fun c => Z.of_nat (nat_of_ascii c)) <$> list_ascii_of_string s.

Definition py_len (s : string) : Z :=
  Z.of_nat (List.length (filter (fun b => ¬ (128 <= b < 192)) (utf8 s))).

(** [bytes.decode('utf8')], exact on ASCII. *)
Definition decode_utf8 (bytes : list Z) : string :=
  string_of_list_ascii ((fun b => ascii_of_nat (Z.to_nat b)) <$> bytes).

Definition is_ascii (s : string) : Prop := Forall (fun b => b < 128) (utf8 s).

(** [struct.pack('>d', x)]: an integer is converted to the nearest double
    (ties to even); a float is its eight bytes already. *)
Definition u64_bytes (n : Z) : list Z :=
  [n / 2 ^ 56 mod 256; n / 2 ^ 48 mod 256; n / 2 ^ 40 mod 256; n / 2 ^ 32 mod 256;
   n / 2 ^ 24 mod 256; n / 2 ^ 16 mod 256; n / 2 ^ 8 mod 256; n mod 256].

Definition double_of_int (n : Z) : result (list Z) :=
  if n =? 0 then Ok (u64_bytes 0)
  else
    let sign := if n <? 0 then 1 else 0 in
    let m := Z.abs n in
    let e := Z.log2 m in
    let '(q, e) :=
      if e <=? 52 then (m * 2 ^ (52 - e), e)
      else
        let shift := e - 52 in
        let q := m / 2 ^ shift in
        let r := m mod 2 ^ shift in
        let half := 2 ^ (shift - 1) in
        let q := if (half <? r) || ((r =? half) && Z.odd q) then q + 1 else q in
        if q =? 2 ^ 53 then (2 ^ 52, e + 1) else (q, e) in
    if 1023 <? e then Raise (StructError "float too large to pack with d format")
    else Ok (u64_bytes (sign * 2 ^ 63 + (e + 1023) * 2 ^ 52 + (q - 2 ^ 52))).

Definition pack_double (x : number) : result (list Z) :=
  match x with
  | NInt n => double_of_int n
  | NFloat bytes => Ok bytes
  end.

(** [_fmt_ent_header.pack]: five unsigned bytes. *)
Definition pack_ent_header (type_ind n_bases n_kv n_inp n_out : Z) : result (list Z) :=
  a ← pack_u8 type_ind; b ← pack_u8 n_bases; c ← pack_u8 n_kv;
  d ← pack_u8 n_inp; e ← pack_u8 n_out;
  Ok (a ++ b ++ c ++ d ++ e).

(** [_fmt_header.pack]: version, the two map bounds, the entity count. *)
Definition pack_header (version : Z) (map_min map_max : number) (count : Z)
    : result (list Z) :=
  a ← pack_u8 version; b ← pack_double map_min; c ← pack_double map_max;
  d ← pack_u32 count;
  Ok (a ++ b ++ c ++ d).

(** The block of one name of an attribute map. *)
Definition write_attr {T} (ser : T → writer) (tags_map : tag_map T) : writer :=
  let tagged :=
    w_bytes (pack_u8 (Z.of_nat (List.length tags_map))) ;;;
    w_each (fun item => write_tags item.1 ;;; ser item.2) tags_map in
  match tags_map with
  | [] => w_nop
  | [(tags, value)] =>
      if bool_decide (tags = ∅) then w_bytes (pack_u8 0) ;;; ser value else tagged
  | _ => tagged
  end.

Definition base_classname (h : heap) (base : base_ref) : result string :=
  match base with
  | BaseName _ => Raise (AttributeError "'str' object has no attribute 'classname'")
  | BaseEnt b =>
      match h !! b with
      | Some e => Ok (classname e)
      | None => Raise Dangling
      end
  end.

(** [EntityDef.serialise]. *)
Definition EntityDef_serialise (h : heap) (self : EntityDef) : writer :=
  match dict_get ENTITY_TYPE_INDEX (ent_type self) with
  | None => w_raise (KeyError "entity type")
  | Some type_ind =>
      w_bytes
        (pack_ent_header type_ind
           (Z.of_nat (List.length (bases self)))
           (Z.of_nat (List.length (keyvalues self)))
           (Z.of_nat (List.length (inputs self)))
           (Z.of_nat (List.length (outputs self)))) ;;;
      w_str (classname self) ;;;
      w_each (fun base =>
          match base_classname h base with
          | Ok name => w_str name
          | Raise err => w_raise err
          end) (bases self) ;;;
      w_each (fun entry => write_attr KeyValues_serialise entry.2) (keyvalues self) ;;;
      w_each (fun entry => write_attr IODef_serialise entry.2) (inputs self) ;;;
      w_each (fun entry => write_attr IODef_serialise entry.2) (outputs self)
  end.

(** [BinStrDict.serialise]: the strings by index, each with its length. *)
Definition BinStrDict_inv_list (self : BinStrDict) : result (list string) :=
  foldl (fun acc '(txt, ind) =>
      inv_list ← acc;
      if (0 <=? ind) && (ind <? Z.of_nat (List.length inv_list)) then
        Ok (<[Z.to_nat ind := txt]> inv_list)
      else Raise (IndexError "list assignment index out of range"))
    (Ok (replicate (List.length (_dict self)) EmptyString)) (_dict self).

Definition write_string (txt : string) : result (list Z) :=
  size ← pack_u16 (py_len txt); Ok (size ++ utf8 txt).

Fixpoint write_strings (inv_list : list string) : result (list Z) :=
  match inv_list with
  | [] => Ok []
  | txt :: rest => a ← write_string txt; b ← write_strings rest; Ok (a ++ b)
  end.

Definition BinStrDict_serialise (self : BinStrDict) : result (list Z) :=
  inv_list ← BinStrDict_inv_list self;
  count ← pack_u32 (Z.of_nat (List.length inv_list));
  strs ← write_strings inv_list;
  Ok (count ++ strs).

(** [poss_name not in self]: the database has no [__contains__], so the
    test walks [__iter__] and compares the string with each entity
    object; a string never equals an entity. *)
Definition FGD_contains (self : FGD) (name : string) : bool :=
  existsb (fun _ : addr => false) (FGD_iter self).

Definition is_digit_or_underscore (c : ascii) : bool :=
  let n := nat_of_ascii c in ((n =? 95) || ((48 <=? n) && (n <=? 57)))%nat.

(** [for num in itertools.count(1)]: the first free name. *)
Fixpoint free_name (fuel : nat) (fgd : FGD) (base_name : string) (num : Z)
    : result string :=
  match fuel with
  | O => Raise OutOfFuel
  | S fuel =>
      let poss_name := base_name +:+ pretty num in
      if negb (FGD_contains fgd poss_name) then Ok poss_name
      else free_name fuel fgd base_name (num + 1)
  end.

(** [FGD._fix_missing_bases]. *)
Fixpoint fix_missing_bases (fuel : nat) (fgd : FGD) (h : heap) (ent : addr)
    : FGD * heap * option exn :=
  match fuel with
  | O => (fgd, h, Some OutOfFuel)
  | S fuel =>
      match h !! ent with
      | None => (fgd, h, Some Dangling)
      | Some e =>
          (fix each (fgd : FGD) (h : heap) (todo : list base_ref) :=
             match todo with
             | [] => (fgd, h, None)
             | BaseName _ :: _ =>
                 (fgd, h, Some (AttributeError "'str' object has no attribute 'classname'"))
             | BaseEnt b :: rest =>
                 match h !! b with
                 | None => (fgd, h, Some Dangling)
                 | Some base =>
                     match FGD_getitem fgd (classname base) with
                     | Raise err => (fgd, h, Some err)
                     | Ok found =>
                         if decide (found = b) then each fgd h rest
                         else
                           let base_name :=
                             casefold (rstrip_with is_digit_or_underscore (classname base))
                             +:+ "_" in
                           match free_name (S fuel) fgd base_name 1 with
                           | Raise err => (fgd, h, Some err)
                           | Ok poss_name =>
                               let h := <[b := set_classname poss_name base]> h in
                               let fgd :=
                                 set_entities (dict_set (entities fgd) poss_name b) fgd in
                               match fix_missing_bases fuel fgd h b with
                               | (fgd, h, None) => each fgd h rest
                               | failed => failed
                               end
                           end
                     end
                 end
             end) fgd h (bases e)
      end
  end.

Fixpoint fix_all (fuel : nat) (fgd : FGD) (h : heap) (ents : list addr)
    : FGD * heap * option exn :=
  match ents with
  | [] => (fgd, h, None)
  | ent :: rest =>
      match fix_missing_bases fuel fgd h ent with
      | (fgd, h, None) => fix_all fuel fgd h rest
      | failed => failed
      end
  end.

(** The bytes of a database whose bases are in order. *)
Definition FGD_encode (fgd : FGD) (h : heap) : result (list Z) :=
  header ←
    pack_header BIN_FORMAT_VERSION (map_size_min fgd) (map_size_max fgd)
      (Z.of_nat (List.length (entities fgd)));
  '(dictionary, ent_data) ←
    w_each (fun ent =>
        match h !! ent with
        | Some e => EntityDef_serialise h e
        | None => w_raise Dangling
        end) (FGD_iter fgd) BinStrDict_init;
  dict_data ← BinStrDict_serialise dictionary;
  Ok ([70; 71; 68] ++ header ++ dict_data ++ ent_data).

(** [FGD.serialise]: the database and the store as the call leaves them,
    and the bytes written. *)
Definition FGD_serialise (fuel : nat) (fgd : FGD) (h : heap)
    : FGD * heap * result (list Z) :=
  match fix_all fuel fgd h (FGD_iter fgd) with
  | (fgd, h, Some err) => (fgd, h, Raise err)
  | (fgd, h, None) => (fgd, h, FGD_encode fgd h)
  end.

(** ** The rest of the binary format: reading *)

Definition reader (A : Type) : Type := list Z → result (A * list Z).

#[global] Instance reader_ret : MRet reader := fun A a file => Ok (a, file).
#[global] Instance reader_bind : MBind reader := fun A B k r file =>
  match r file with
  | Ok (a, file) => k a file
  | Raise e => Raise e
  end.

Definition r_raise {A} (e : exn) : reader A := fun _ => Raise e.

(** [fmt.unpack(file.read(fmt.size))] for the integer formats. *)
Definition read_u8 : reader Z := fun file =>
  match file with
  | a :: rest => Ok (a, rest)
  | _ => Raise (StructError "unpack requires a buffer of 1 bytes")
  end.

Definition read_u16 : reader Z := fun file =>
  match file with
  | a :: b :: rest => Ok (a * 256 + b, rest)
  | _ => Raise (StructError "unpack requires a buffer of 2 bytes")
  end.

Definition read_u32 : reader Z := fun file =>
  match file with
  | a :: b :: c :: d :: rest => Ok (((a * 256 + b) * 256 + c) * 256 + d, rest)
  | _ => Raise (StructError "unpack requires a buffer of 4 bytes")
  end.

(** [file.read(n)]: what is left of the file when it is shorter. *)
Definition read_upto (n : nat) : reader (list Z) := fun file =>
  Ok (take n file, drop n file).

(** Exactly [n] bytes, for a field of a struct. *)
Definition read_exactly (n : nat) : reader (list Z) := fun file =>
  if (List.length file <? n)%nat then Raise (StructError "unpack requires a longer buffer")
  else Ok (take n file, drop n file).

(** [for _ in range(n)], collecting what each round reads. *)
Fixpoint r_repeat {A} (n : nat) (r : reader A) : reader (list A) :=
  match n with
  | O => mret []
  | S n => a ← r; rest ← r_repeat n r; mret (a :: rest)
  end.

(** [BinStrDict.unserialise]: the list of strings; [lookup] below is the
    function it returns. *)
Definition read_string : reader string :=
  str_len ← read_u16;
  bytes ← read_upto (Z.to_nat str_len);
  mret (decode_utf8 bytes).

Definition BinStrDict_unserialise : reader (list string) :=
  count ← read_u32;
  r_repeat (Z.to_nat count) read_string.

Definition lookup (inv_list : list string) : reader string :=
  index ← read_u16;
  match inv_list !! Z.to_nat index with
  | Some s => mret s
  | None => r_raise (IndexError "list index out of range")
  end.

(** [BinStrDict.read_tags]. *)
Definition read_tagset (from_dict : reader string) : reader (gset string) :=
  size ← read_u8;
  tags ← r_repeat (Z.to_nat size) from_dict;
  mret (list_to_set tags).

Definition index_into {A} (order : list A) (ind : Z) : reader A :=
  match order !! Z.to_nat ind with
  | Some x => mret x
  | None => r_raise (IndexError "list index out of range")
  end.

(** [KeyValues.unserialise]. *)
Definition KeyValues_unserialise (from_dict : reader string) : reader KeyValues :=
  name ← from_dict;
  disp_name ← from_dict;
  value_ind ← read_u8;
  let readonly := PInt (Z.land value_ind 128) in
  value_type ← index_into VALUE_TYPE_ORDER (Z.land value_ind 127);
  if decide (value_type = ValueTypes.SPAWNFLAGS) then
    val_count ← read_u8;
    val_list ←
      r_repeat (Z.to_nat val_count)
        (power ← read_u8;
         val_name ← from_dict;
         mret [PInt (Z.shiftl 1 (Z.land power 127)); PStr val_name;
               PBool (negb (Z.land power 128 =? 0))]);
    mret (mkKeyValues name value_type disp_name EmptyString EmptyString
            (Some val_list) readonly)
  else
    dflt ← from_dict;
    if decide (value_type = ValueTypes.CHOICES) then
      val_count ← read_u16;
      val_list ←
        r_repeat (Z.to_nat val_count)
          (val ← from_dict; val_name ← from_dict; mret [PStr val; PStr val_name]);
      mret (mkKeyValues name value_type disp_name dflt EmptyString
              (Some val_list) readonly)
    else
      mret (mkKeyValues name value_type disp_name dflt EmptyString None readonly).

(** [IODef.unserialise]. *)
Definition IODef_unserialise (from_dict : reader string) : reader IODef :=
  name ← from_dict;
  value_ind ← read_u8;
  value_type ← index_into VALUE_TYPE_ORDER value_ind;
  mret (mkIODef name value_type EmptyString).

(** One round of the loop over a count of [EntityDef.unserialise]: the
    name the block is stored under, and its tag map. *)
Definition read_attr {T} (unser : reader T) (name_of : T → string)
    (from_dict : reader string) : reader (string * tag_map T) :=
  tag_count ← read_u8;
  if tag_count =? 0 then
    obj ← unser;
    mret (name_of obj, [(∅, obj)])
  else
    tag ← read_tagset from_dict;
    obj ← unser;
    more ←
      r_repeat (Z.to_nat (tag_count - 1))
        (tag ← read_tagset from_dict; obj ← unser; mret (tag, obj));
    mret (name_of obj,
          foldl (fun m (item : gset string * T) => dict_set m item.1 item.2)
            [(tag, obj)] more).

Definition read_attrs {T} (count : Z) (unser : reader T) (name_of : T → string)
    (from_dict : reader string) : reader (attr_map T) :=
  blocks ← r_repeat (Z.to_nat count) (read_attr unser name_of from_dict);
  mret (foldl (fun m (block : string * tag_map T) => dict_set m block.1 block.2)
          [] blocks).

(** [EntityDef.unserialise]: the bases are the class names read. *)
Definition EntityDef_unserialise (from_dict : reader string) : reader EntityDef :=
  type_ind ← read_u8;
  base_count ← read_u8;
  kv_count ← read_u8;
  inp_count ← read_u8;
  out_count ← read_u8;
  typ ← index_into ENTITY_TYPE_ORDER type_ind;
  name ← from_dict;
  base_names ← r_repeat (Z.to_nat base_count) from_dict;
  kvs ← read_attrs kv_count (KeyValues_unserialise from_dict) kv_name from_dict;
  inps ← read_attrs inp_count (IODef_unserialise from_dict) io_name from_dict;
  outs ← read_attrs out_count (IODef_unserialise from_dict) io_name from_dict;
  mret (mkEntityDef typ name kvs inps outs [] (BaseName <$> base_names) []
          EmptyString).

(** The new objects enter the store and the database as they are read. *)
Definition register_new (st : FGD * heap) (ent : EntityDef) : FGD * heap :=
  let '(fgd, h) := st in
  let this : addr := fresh (dom h) in
  (set_entities (dict_set (entities fgd) (casefold (classname ent)) this) fgd,
   <[this := ent]> h).

(** [FGD.unserialise], building the new database in the store [h]. *)
Definition FGD_unserialise (h : heap) (file : list Z) : result (FGD * heap) :=
  '(magic, file) ← read_upto 3 file;
  if bool_decide (magic ≠ [70; 71; 68]) then Raise (ValueError "Not an FGD file!")
  else
    '(head, file) ← read_exactly 21 file;
    '(format_version, head) ← read_u8 head;
    '(map_min, head) ← read_exactly 8 head;
    '(map_max, head) ← read_exactly 8 head;
    '(ent_count, _) ← read_u32 head;
    if bool_decide (format_version ≠ BIN_FORMAT_VERSION) then
      Raise (TypeError "Unknown format version!")
    else
      '(inv_list, file) ← BinStrDict_unserialise file;
      '(ents, _) ←
        r_repeat (Z.to_nat ent_count) (EntityDef_unserialise (lookup inv_list)) file;
      let '(fgd, h) :=
        foldl register_new (mkFGD [] (NFloat map_min) (NFloat map_max), h) ents in
      match FGD_apply_bases fgd h with
      | (h, None) => Ok (fgd, h)
      | (_, Some err) => Raise err
      end.

(** ** What the binary format keeps

    The dictionary that has numbered the strings [seen]. *)
Definition dict_of (seen : list string) : BinStrDict :=
  mkBinStrDict (numbered seen) (Z.of_nat (List.length seen)).

(** A writer and a reader agree on [x]: from any dictionary over the
    strings [S] the writer succeeds, extends the dictionary within [S],
    and the reader, given any later state [inv] of the dictionary, reads
    [x] back from the bytes and stops after them. *)
Definition codec_ok {A} (S : gset string) (w : writer)
    (r : list string → reader A) (x : A) : Prop :=
  ∀ seen, NoDup seen → (∀ s, s ∈ seen → s ∈ S) →
    ∃ seen' bytes,
      w (dict_of seen) = Ok (dict_of seen', bytes) ∧
      NoDup seen' ∧ (∀ s, s ∈ seen' → s ∈ S) ∧ seen `prefix_of` seen' ∧
      ∀ inv rest, seen' `prefix_of` inv → r inv (bytes ++ rest) = Ok (x, rest).

(** What a record looks like after a round trip: the descriptions are
    gone, a spawnflags keyvalue has lost its default (the format has no
    field for it), and [readonly] is the bit of the type byte. *)
Definition kv_image (kv : KeyValues) : KeyValues :=
  mkKeyValues (kv_name kv) (kv_type kv) (kv_disp_name kv)
    (if decide (kv_type kv = ValueTypes.SPAWNFLAGS) then EmptyString
     else kv_default kv)
    EmptyString (kv_val_list kv)
    (PInt (if truthy (kv_readonly kv) then 128 else 0)).

Definition io_image (io : IODef) : IODef :=
  mkIODef (io_name io) (io_type io) EmptyString.

Definition tag_map_image {T} (image : T → T) (tm : tag_map T) : tag_map T :=
  (fun item => (item.1, image item.2)) <$> tm.

(** A block is read back under the name of its first record. *)
Definition block_name {T} (name_of : T → string) (entry : string * tag_map T)
    : string :=
  match entry.2 with
  | item :: _ => name_of item.2
  | [] => entry.1
  end.

Definition attrs_image {T} (image : T → T) (name_of : T → string)
    (am : attr_map T) : attr_map T :=
  (fun entry => (block_name name_of entry, tag_map_image image entry.2)) <$> am.

(** The shapes that the format can hold.  A value-list entry is the
    triple or pair that [KeyValues.unserialise] builds. *)
Definition flag_ready (entry : list pyval) : Prop :=
  ∃ k name b, entry = [PInt (2 ^ k); PStr name; PBool b] ∧ 0 <= k < 128.

Definition choice_ready (entry : list pyval) : Prop :=
  ∃ val name, entry = [PStr val; PStr name].

Definition kv_ready (kv : KeyValues) : Prop :=
  match kv_val_list kv with
  | Some l =>
      (kv_type kv = ValueTypes.SPAWNFLAGS ∧ Z.of_nat (List.length l) <= 255 ∧
       Forall flag_ready l) ∨
      (kv_type kv = ValueTypes.CHOICES ∧ Z.of_nat (List.length l) <= 65535 ∧
       Forall choice_ready l)
  | None =>
      kv_type kv ≠ ValueTypes.SPAWNFLAGS ∧ kv_type kv ≠ ValueTypes.CHOICES
  end.

Definition tag_map_ready {T} (ready : T → Prop) (tm : tag_map T) : Prop :=
  tm ≠ [] ∧ NoDup tm.*1 ∧ Z.of_nat (List.length tm) <= 255 ∧
  Forall (fun item => Z.of_nat (size item.1) <= 255 ∧ ready item.2) tm.

Definition attrs_ready {T} (ready : T → Prop) (name_of : T → string)
    (am : attr_map T) : Prop :=
  Z.of_nat (List.length am) <= 255 ∧
  Forall (fun entry => tag_map_ready ready entry.2) am ∧
  NoDup (block_name name_of <$> am).

(** The strings that the records hand to the dictionary. *)
Definition pyval_strings (v : pyval) : list string :=
  match v with
  | PStr s => [s]
  | _ => []
  end.

Definition kv_strings (kv : KeyValues) : list string :=
  kv_name kv :: kv_disp_name kv :: kv_default kv ::
  (default [] (kv_val_list kv) ≫= fun entry => entry ≫= pyval_strings).

Definition io_strings (io : IODef) : list string := [io_name io].

Definition tag_map_strings {T} (strs : T → list string) (tm : tag_map T)
    : list string :=
  tm ≫= fun item => elements item.1 ++ strs item.2.

Definition attrs_strings {T} (strs : T → list string) (am : attr_map T)
    : list string :=
  am ≫= fun entry => tag_map_strings strs entry.2.

(** The class name written for a base, and the entity as
    [EntityDef.unserialise] returns it, its bases still names. *)
Definition base_name_of (h : heap) (base : base_ref) : string :=
  match base_classname h base with
  | Ok name => name
  | Raise _ => EmptyString
  end.

Definition base_names (h : heap) (e : EntityDef) : list string :=
  base_name_of h <$> bases e.

Definition ent_wire (h : heap) (e : EntityDef) : EntityDef :=
  mkEntityDef (ent_type e) (classname e)
    (attrs_image kv_image kv_name (keyvalues e))
    (attrs_image io_image io_name (inputs e))
    (attrs_image io_image io_name (outputs e))
    [] (BaseName <$> base_names h e) [] EmptyString.

Definition io_ready (io : IODef) : Prop := True.

Definition ent_ready (h : heap) (e : EntityDef) : Prop :=
  Forall (fun base => is_ok (base_classname h base)) (bases e) ∧
  Z.of_nat (List.length (bases e)) <= 255 ∧
  attrs_ready kv_ready kv_name (keyvalues e) ∧
  attrs_ready io_ready io_name (inputs e) ∧
  attrs_ready io_ready io_name (outputs e).

Definition ent_strings (h : heap) (e : EntityDef) : list string :=
  classname e :: base_names h e ++
  attrs_strings kv_strings (keyvalues e) ++
  attrs_strings io_strings (inputs e) ++
  attrs_strings io_strings (outputs e).

(** A string that the dictionary block holds exactly: its length field
    counts characters while the bytes written are UTF-8, so the two agree
    on ASCII text only. *)
Definition str_ready (s : string) : Prop := is_ascii s ∧ py_len s <= 65535.

(** The eight bytes of a map bound. *)
Definition double_bytes (x : number) : list Z :=
  match pack_double x with
  | Ok bytes => bytes
  | Raise _ => []
  end.

Definition number_ready (x : number) : Prop := List.length (double_bytes x) = 8%nat.

(** The strings of a database, and the databases that the format holds:
    every entity is stored under its case-folded class name, its bases are
    entities of the database found under their own class names, and the
    strings fit the dictionary. *)
Definition db_strings (fgd : FGD) (h : heap) : list string :=
  FGD_iter fgd ≫= fun a => from_option (ent_strings h) [] (h !! a).

Definition registered (fgd : FGD) (h : heap) (base : base_ref) : Prop :=
  ∃ b be, base = BaseEnt b ∧ h !! b = Some be ∧
          dict_get (entities fgd) (casefold (classname be)) = Some b.

Definition entry_ready (fgd : FGD) (h : heap) (entry : string * addr) : Prop :=
  ∃ e, h !! entry.2 = Some e ∧ entry.1 = casefold (classname e) ∧
       ent_ready h e ∧ Forall (registered fgd h) (bases e).

Definition db_ready (fgd : FGD) (h : heap) : Prop :=
  number_ready (map_size_min fgd) ∧ number_ready (map_size_max fgd) ∧
  Z.of_nat (List.length (entities fgd)) <= 4294967295 ∧
  Forall (entry_ready fgd h) (entities fgd) ∧
  NoDup (entities fgd).*1 ∧
  Forall str_ready (db_strings fgd h) ∧
  Z.of_nat (size (list_to_set (C := gset string) (db_strings fgd h))) <= 65536.










(** The tokens of the keyvalue line
    [spawnflags(flags) = [ 1: "One" : 1 / 2: "Two" : 0 ]], after its name. *)
Definition spawnflags_line : tokens :=
  [(Token.PAREN_ARGS, "flags"); (Token.EQUALS, "="); (Token.BRACK_OPEN, "[");
   (Token.NEWLINE, ""); (Token.STRING, "1"); (Token.COLON, ":");
   (Token.STRING, "One"); (Token.COLON, ":"); (Token.STRING, "1");
   (Token.NEWLINE, ""); (Token.STRING, "2"); (Token.COLON, ":");
   (Token.STRING, "Two"); (Token.COLON, ":"); (Token.STRING, "0");
   (Token.NEWLINE, ""); (Token.BRACK_CLOSE, "]")].

(** The record that the parser builds from [spawnflags_line]. *)
Definition parsed_spawnflags : KeyValues :=
  mkKeyValues "spawnflags" ValueTypes.SPAWNFLAGS "spawnflags" "" ""
    (Some [[PInt 1; PStr "One"; PBool true; PTags ∅];
           [PInt 2; PStr "Two"; PBool false; PTags ∅]])
    (PBool false).

(** The same record with the tag sets dropped from its entries, the shape
    that [KeyValues.unserialise] builds. *)
Definition untagged_spawnflags : KeyValues :=
  mkKeyValues "spawnflags" ValueTypes.SPAWNFLAGS "spawnflags" "" ""
    (Some [[PInt 1; PStr "One"; PBool true]; [PInt 2; PStr "Two"; PBool false]])
    (PBool false).

(** Every keyvalue record of an entity has [readonly] equal to [False]. *)
Definition readonly_all_false (e : EntityDef) : Prop :=
  Forall (fun entry : string * tag_map KeyValues =>
      Forall (fun tagged : gset string * KeyValues =>
          kv_readonly tagged.2 = PBool false) entry.2)
    (keyvalues e).

(** The tokens of
    [= my_ent [ health(integer) readonly : "Health" : "5" ]]. *)
Definition readonly_line : tokens :=
  [(Token.EQUALS, "="); (Token.STRING, "my_ent"); (Token.BRACK_OPEN, "[");
   (Token.NEWLINE, ""); (Token.STRING, "health"); (Token.PAREN_ARGS, "integer");
   (Token.STRING, "readonly"); (Token.COLON, ":"); (Token.STRING, "Health");
   (Token.COLON, ":"); (Token.STRING, "5"); (Token.NEWLINE, "");
   (Token.BRACK_CLOSE, "]")].

(** What a merge may change in the entity: its three attribute maps. *)
Definition same_links (e e' : EntityDef) : Prop :=
  bases e' = bases e ∧ kv_order e' = kv_order e ∧ classname e' = classname e ∧
  ent_type e' = ent_type e.

(** * More of the module *)

(** ** Comparing records

    [self.val_list == other.val_list]: [None] equals only [None]; two
    lists are equal when they have the same length and their tuples are
    equal one by one. *)
Fixpoint py_list_eq (x y : list (list pyval)) : bool :=
  match x, y with
  | [], [] => true
  | a :: x, b :: y => py_tuple_eq a b && py_list_eq x y
  | _, _ => false
  end.

Definition val_list_eq (x y : option (list (list pyval))) : bool :=
  match x, y with
  | None, None => true
  | Some x, Some y => py_list_eq x y
  | _, _ => false
  end.

(** [KeyValues.__eq__] and [IODef.__eq__], on two records of the class. *)
Definition KeyValues_eq (self other : KeyValues) : bool :=
  String.eqb (kv_name self) (kv_name other)
  && bool_decide (kv_type self = kv_type other)
  && String.eqb (kv_disp_name self) (kv_disp_name other)
  && String.eqb (kv_default self) (kv_default other)
  && String.eqb (kv_desc self) (kv_desc other)
  && val_list_eq (kv_val_list self) (kv_val_list other)
  && py_eq (kv_readonly self) (kv_readonly other).

Definition IODef_eq (self other : IODef) : bool :=
  String.eqb (io_name self) (io_name other)
  && bool_decide (io_type self = io_type other)
  && String.eqb (io_desc self) (io_desc other).

(** A base that is an entity object, not a name still to be resolved. *)
Definition is_BaseEnt (base : base_ref) : Prop :=
  match base with
  | BaseEnt _ => True
  | BaseName _ => False
  end.

(** The example database before [apply_bases]: the base of [my_ent] is
    still the name read from the file. *)
Definition unlinked_heap : heap :=
  <[Base1_addr := Base1_def]>
    (<[my_ent_addr := set_bases [BaseName "Base1"] my_ent_def]> ∅).

(** An entity whose second base names no class of the database. *)
Definition orphan_def : EntityDef :=
  mkEntityDef EntityTypes.POINT "orphan" [] [] [] []
    [BaseName "Base1"; BaseName "Missing"; BaseName "Base1"] [] "".

Definition orphan_heap : heap :=
  <[3%positive := orphan_def]> example_heap.

Definition orphan_fgd : FGD :=
  mkFGD [("my_ent", my_ent_addr); ("base1", Base1_addr); ("orphan", 3%positive)]
    (NInt 0) (NInt 0).



(** A visiting order in which every entity comes after its bases:
    [visited] are the entities before [rest]. *)
Fixpoint bases_first (h : heap) (visited rest : list addr) : Prop :=
  match rest with
  | [] => True
  | a :: rest =>
      (∀ e b, h !! a = Some e → BaseEnt b ∈ bases e → b ∈ visited) ∧
      bases_first h (a :: visited) rest
  end.

(** ** EntityDef.strip_tags *)

(** [del d[k]]. *)
Fixpoint dict_del {K V} `{EqDecision K} (d : list (K * V)) (k : K) : list (K * V) :=
  match d with
  | [] => []
  | (k', v) :: r => if decide (k = k') then r else (k', v) :: dict_del r k
  end.

(** [match_tags(tags, val[-1])] for an entry of a value list.  The last
    field is meant to be a tag set; a string is iterated character by
    character, a false number or flag makes [match_tags] return at its
    first test, and any other number cannot be iterated. *)
Definition last_field_matches (tags : gset string) (val : list pyval) : result bool :=
  match last val with
  | None => Raise (IndexError "tuple index out of range")
  | Some (PTags t) => Ok (match_tags tags (elements t))
  | Some (PStr s) =>
      Ok (match_tags tags ((fun c => String c EmptyString) <$> list_ascii_of_string s))
  | Some v =>
      if truthy v then Raise (TypeError "object is not iterable") else Ok true
  end.

(** The list comprehension that filters a value list: the entries whose
    last field matches, each with that field replaced by the empty set. *)
Fixpoint strip_val_list (tags : gset string) (l : list (list pyval))
    : result (list (list pyval)) :=
  match l with
  | [] => Ok []
  | val :: rest =>
      keep ← last_field_matches tags val;
      rest ← strip_val_list tags rest;
      Ok (if keep : bool then (removelast val ++ [PTags ∅]) :: rest else rest)
  end.

(** [if isinstance(value, KeyValues) and value.val_list: ...]. *)
Definition strip_kv (tags : gset string) (kv : KeyValues) : result KeyValues :=
  match kv_val_list kv with
  | Some ((_ :: _) as l) =>
      l ← strip_val_list tags l; Ok (set_val_list (Some l) kv)
  | _ => Ok kv
  end.

(** The loop over one category, [list(category.items())] being a
    snapshot.  An exception leaves the entity partly stripped; the model
    keeps the exception only. *)
Definition strip_category {T} (strip_value : T → result T) (tags : gset string)
    (category : attr_map T) : result (attr_map T) :=
  foldl (fun acc '(key, tag_map) =>
      category ← acc;
      match first_match tags tag_map with
      | Some value =>
          value ← strip_value value;
          Ok (dict_set category key [(∅, value)])
      | None => Ok (dict_del category key)
      end)
    (Ok category) category.

(** [EntityDef.strip_tags]. *)
Definition EntityDef_strip_tags (tags : gset string) (self : EntityDef)
    : result EntityDef :=
  kvs ← strip_category (strip_kv tags) tags (keyvalues self);
  inps ← strip_category Ok tags (inputs self);
  outs ← strip_category Ok tags (outputs self);
  Ok (set_outputs outs (set_inputs inps (set_keyvalues kvs self))).

(** What the loop over a category comes to when no name is listed twice. *)
Fixpoint strip_entries {T} (strip_value : T → result T) (tags : gset string)
    (entries : attr_map T) : result (attr_map T) :=
  match entries with
  | [] => Ok []
  | (key, tag_map) :: rest =>
      match first_match tags tag_map with
      | Some value =>
          value ← strip_value value;
          rest ← strip_entries strip_value tags rest;
          Ok ((key, [(∅, value)]) :: rest)
      | None => strip_entries strip_value tags rest
      end
  end.

(** The keys of the three maps of an entity are distinct, as those of a
    [dict] are. *)
Definition keys_distinct (e : EntityDef) : Prop :=
  NoDup (keyvalues e).*1 ∧ NoDup (inputs e).*1 ∧ NoDup (outputs e).*1.


(** An entry of a value list that ends with the empty tag set. *)
Definition ends_untagged (val : list pyval) : Prop := last val = Some (PTags ∅).

(** An entity with a keyvalue that has a general and an [HL2] variant,
    and one that exists for [P2] only; and what stripping it for [HL2]
    leaves. *)
Definition variants_ent : EntityDef :=
  mkEntityDef EntityTypes.POINT "ent"
    [("k", [(∅, mkKeyValues "k" ValueTypes.STRING "K" "all" "" None (PBool false));
            ({[ "HL2" ]},
             mkKeyValues "k" ValueTypes.CHOICES "K" "hl2" ""
               (Some [[PStr "0"; PStr "Off"; PTags ∅];
                      [PStr "1"; PStr "On"; PTags {[ "P2" ]}]])
               (PBool false))]);
     ("m", [({[ "P2" ]},
             mkKeyValues "m" ValueTypes.INT "M" "1" "" None (PBool false))])]
    [] [] ["k"; "m"] [] [] "".

Definition variants_stripped : EntityDef :=
  mkEntityDef EntityTypes.POINT "ent"
    [("k", [(∅,
             mkKeyValues "k" ValueTypes.CHOICES "K" "hl2" ""
               (Some [[PStr "0"; PStr "Off"; PTags ∅]]) (PBool false))])]
    [] [] ["k"; "m"] [] [] "".

(** ** EntityDef.iter_bases

    The generator is run to its end: the entities yielded, the set
    [_done] as the call leaves it (the same object is handed down the
    recursion and mutated), and the exception that ended the walk, if
    any.  [fuel] bounds the depth of the recursion. *)

(** [_done.add(ent)]. *)
Definition done_add (done : list base_ref) (ent : base_ref) : list base_ref :=
  if decide (ent ∈ done) then done else done ++ [ent].

(** The loop [for ent in self.bases], [walk] being the recursive call
    [ent.iter_bases(_done)]. *)
Fixpoint iter_bases_each
    (walk : addr → list base_ref → list base_ref * list base_ref * option exn)
    (done : list base_ref) (todo : list base_ref)
    : list base_ref * list base_ref * option exn :=
  match todo with
  | [] => ([], done, None)
  | ent :: rest =>
      let done := done_add done ent in
      match ent with
      | BaseName _ =>
          ([ent], done,
           Some (AttributeError "'str' object has no attribute 'iter_bases'"))
      | BaseEnt b =>
          match walk b done with
          | (sub, done, Some err) => (ent :: sub, done, Some err)
          | (sub, done, None) =>
              let '(more, done, err) := iter_bases_each walk done rest in
              (ent :: sub ++ more, done, err)
          end
      end
  end.

Fixpoint iter_bases_from (fuel : nat) (h : heap) (self : addr) (done : list base_ref)
    : list base_ref * list base_ref * option exn :=
  match fuel with
  | O => ([], done, Some OutOfFuel)
  | S fuel =>
      match h !! self with
      | None => ([], done, Some Dangling)
      | Some e => iter_bases_each (iter_bases_from fuel h) done (bases e)
      end
  end.

(** [if not _done: _done = {self}]: a missing or empty set is replaced. *)
Definition EntityDef_iter_bases (fuel : nat) (h : heap) (self : addr)
    (_done : option (list base_ref)) : list base_ref * list base_ref * option exn :=
  let done :=
    match _done with
    | Some ((_ :: _) as done) => done
    | _ => [BaseEnt self]
    end in
  iter_bases_from fuel h self done.

(** An entity whose two bases share a base. *)
Definition diamond_heap : heap :=
  <[4%positive := mkEntityDef EntityTypes.POINT "top" [] [] [] []
                    [BaseEnt 2%positive; BaseEnt 3%positive] [] ""]>
  (<[3%positive := mkEntityDef EntityTypes.BASE "right" [] [] [] []
                     [BaseEnt 1%positive] [] ""]>
  (<[2%positive := mkEntityDef EntityTypes.BASE "left" [] [] [] []
                     [BaseEnt 1%positive] [] ""]>
  (<[1%positive := mkEntityDef EntityTypes.BASE "root" [] [] [] [] [] [] ""]> ∅))).

(** ** Iterating over an entity view *)

(** The maps of the loop [for base in ent.bases: yield from
    self._maps(base)], [walk] being the recursive call. *)
Fixpoint maps_of_bases {X} (walk : base_ref → result (list X)) (todo : list base_ref)
    : result (list X) :=
  match todo with
  | [] => Ok []
  | base :: rest =>
      maps ← walk base; more ← maps_of_bases walk rest; Ok (maps ++ more)
  end.

(** [_EntityView._maps], run to its end: the map of the entity, then
    those of its bases, depth first. *)
Fixpoint view_maps {T} (fuel : nat) (h : heap) (attr : EntityDef → attr_map T)
    (ent : base_ref) : result (list (attr_map T)) :=
  match fuel with
  | O => Raise OutOfFuel
  | S fuel =>
      match ent with
      | BaseName _ => Raise (AttributeError "'str' object has no such attribute")
      | BaseEnt a =>
          match h !! a with
          | None => Raise Dangling
          | Some e =>
              more ← maps_of_bases (view_maps fuel h attr) (bases e);
              Ok (attr e :: more)
          end
      end
  end.

(** [if name in seen: continue], else [seen.add(name); yield name]. *)
Definition iter_step (st : gset string * list string) (name : string)
    : gset string * list string :=
  if decide (name ∈ st.1) then st else ({[name]} ∪ st.1, st.2 ++ [name]).

(** [_EntityView.__iter__], as the list of the names yielded. *)
Definition EntityView_iter {T} (fuel : nat) (h : heap) (ent : addr)
    (attr : EntityDef → attr_map T) : result (list string) :=
  maps ← view_maps fuel h attr (BaseEnt ent);
  Ok (foldl (fun st (ent_map : attr_map T) => foldl iter_step st ent_map.*1)
        (∅, []) maps).2.

(** [_EntityView.__len__]. *)
Definition EntityView_len {T} (fuel : nat) (h : heap) (ent : addr)
    (attr : EntityDef → attr_map T) : result nat :=
  maps ← view_maps fuel h attr (BaseEnt ent);
  Ok (size (foldl (fun (seen : gset string) (ent_map : attr_map T) =>
                     seen ∪ list_to_set ent_map.*1) ∅ maps)).

Definition variants_heap : heap := <[1%positive := variants_ent]> ∅.

(** The keyvalue order of an entity lists the names of its keyvalues,
    each once and in the order of the dictionary, and no name has an
    empty tag map. *)
Definition kv_order_synced (e : EntityDef) : Prop :=
  kv_order e = (keyvalues e).*1 ∧ NoDup (kv_order e) ∧
  Forall (fun entry => entry.2 ≠ []) (keyvalues e).

(** The names of [names] that are not [known], each at its first
    occurrence: what the merge of a base adds to the keyvalue order. *)
Fixpoint fresh_names (known : gset string) (names : list string) : list string :=
  match names with
  | [] => []
  | name :: rest =>
      if decide (name ∈ known) then fresh_names known rest
      else name :: fresh_names ({[name]} ∪ known) rest
  end.

(** * Properties *)

(** ** Characters and case *)

Lemma upper_ascii_sigil c :
  (upper_ascii c = "!" ↔ c = "!")%char ∧ (upper_ascii c = "-" ↔ c = "-")%char ∧
  (upper_ascii c = "+" ↔ c = "+")%char.
Proof.
  destruct c as [[] [] [] [] [] [] [] []]; vm_compute;
    repeat split; intros; congruence.
Qed.

Lemma upper_lower_ascii c : upper_ascii (lower_ascii c) = upper_ascii c.
Proof. destruct c as [[] [] [] [] [] [] [] []]; reflexivity. Qed.

Lemma lower_upper_ascii c : lower_ascii (upper_ascii c) = lower_ascii c.
Proof. destruct c as [[] [] [] [] [] [] [] []]; reflexivity. Qed.

Lemma is_ascii_tail c s : is_ascii (String c s) → is_ascii s.
Proof. unfold is_ascii, utf8. cbn. by intros [_ H]%Forall_cons. Qed.

Lemma lstrip_sigils_ascii s : is_ascii s → is_ascii (lstrip_sigils s).
Proof.
  induction s as [|c s IH]; [done|]. intros Hs. cbn.
  destruct (is_sigil c); [|done]. by apply IH, (is_ascii_tail c).
Qed.

(** On ASCII text upper-casing and case-folding identify the same
    strings.  (Of Python's maps this holds for ASCII only: they part on
    letters such as the sharp s and the dotless i.) *)
Lemma upper_casefold s : is_ascii s → upper (casefold s) = upper s.
Proof.
  induction s as [|c s IH]; [done|]. intros Hs%is_ascii_tail.
  cbn. fold (casefold s) (upper (casefold s)) (upper s).
  by rewrite upper_lower_ascii, IH.
Qed.

Lemma casefold_upper s : is_ascii s → casefold (upper s) = casefold s.
Proof.
  induction s as [|c s IH]; [done|]. intros Hs%is_ascii_tail.
  cbn. fold (upper s) (casefold (upper s)) (casefold s).
  by rewrite lower_upper_ascii, IH.
Qed.

Lemma casefold_eq_upper_eq a b :
  is_ascii a → is_ascii b → (casefold a = casefold b ↔ upper a = upper b).
Proof.
  intros Ha Hb. split; intros H.
  - by rewrite <- (upper_casefold a), H, upper_casefold.
  - by rewrite <- (casefold_upper a), H, casefold_upper.
Qed.

(** ** match_tags *)

Lemma sigil_of_cases t :
  match sigil_of t with
  | Negative =>
      (String.eqb (first1 (upper t)) "!" || String.eqb (first1 (upper t)) "-") = true
      ∧ from1 (upper t) = label_of t
  | Positive =>
      (String.eqb (first1 (upper t)) "!" || String.eqb (first1 (upper t)) "-") = false
      ∧ String.eqb (first1 (upper t)) "+" = true
      ∧ from1 (upper t) = label_of t
  | Plain =>
      (String.eqb (first1 (upper t)) "!" || String.eqb (first1 (upper t)) "-") = false
      ∧ String.eqb (first1 (upper t)) "+" = false
      ∧ upper t = label_of t
  end.
Proof.
  destruct t as [|c t]; [done|].
  unfold label_of. change (upper (String c t)) with (String (upper_ascii c) (upper t)).
  destruct c as [[] [] [] [] [] [] [] []]; cbn -[upper]; repeat split.
Qed.

Lemma match_tags_loop_step Q b m t T :
  match_tags_loop Q b m (t :: T) =
    match sigil_of t with
    | Negative =>
        if bool_decide (label_of t ∈ Q) then false else match_tags_loop Q b m T
    | Positive =>
        if bool_decide (label_of t ∉ Q) then false else match_tags_loop Q b m T
    | Plain =>
        match_tags_loop Q b
          (if b || bool_decide (label_of t ∈ Q) then Some true
           else match m with None => Some false | _ => m end) T
    end.
Proof.
  pose proof (sigil_of_cases t) as H. cbn [match_tags_loop].
  destruct (sigil_of t).
  - destruct H as [-> ->]. done.
  - destruct H as (-> & -> & ->). done.
  - destruct H as (-> & -> & ->). done.
Qed.

Lemma match_tags_loop_true Q b m T :
  match_tags_loop Q b m T = true ↔
    Forall (λ t, ¬ neg_hit Q t) T ∧ Forall (λ t, ¬ pos_miss Q t) T ∧
    match m with
    | Some true => True
    | Some false => Exists (plain_ok Q b) T
    | None => Forall (λ t, sigil_of t ≠ Plain) T ∨ Exists (plain_ok Q b) T
    end.
Proof.
  revert m. induction T as [|t T IH]; intros m.
  - cbn [match_tags_loop].
    destruct m as [[]|]; rewrite ?Forall_nil, ?Exists_nil;
      case_bool_decide; cbn; intuition congruence.
  - rewrite match_tags_loop_step.
    destruct (sigil_of t) eqn:Hs.
    + case_bool_decide as Hin.
      * destruct m as [[]|]; rewrite ?Forall_cons, ?Exists_cons;
          unfold neg_hit, pos_miss, plain_ok; intuition congruence.
      * rewrite IH.
        destruct m as [[]|]; rewrite ?Forall_cons, ?Exists_cons;
          unfold neg_hit, pos_miss, plain_ok; intuition congruence.
    + case_bool_decide as Hin.
      * destruct m as [[]|]; rewrite ?Forall_cons, ?Exists_cons;
          unfold neg_hit, pos_miss, plain_ok; intuition congruence.
      * rewrite IH.
        destruct m as [[]|]; rewrite ?Forall_cons, ?Exists_cons;
          unfold neg_hit, pos_miss, plain_ok; intuition congruence.
    + rewrite IH.
      destruct b; cbn [orb]; [|case_bool_decide as Hin];
        destruct m as [[]|]; rewrite ?Forall_cons, ?Exists_cons;
          unfold neg_hit, pos_miss, plain_ok; intuition congruence.
Qed.

(** C1. [match_tags] on an empty candidate collection is true; a negative
    tag whose label is in the query, or a positive tag whose label is
    missing from it, makes the match false; otherwise the match is true
    exactly when there is no plain tag, or a plain tag's label is in the
    query, or the query holds the wildcard [<ALL>]. *)
Theorem match_tags_spec (Q : gset string) (T : list string) :
  match_tags Q [] = true ∧
  ((∃ t, t ∈ T ∧ neg_hit Q t) → match_tags Q T = false) ∧
  ((∃ t, t ∈ T ∧ pos_miss Q t) → match_tags Q T = false) ∧
  (¬ (∃ t, t ∈ T ∧ neg_hit Q t) → ¬ (∃ t, t ∈ T ∧ pos_miss Q t) →
   (match_tags Q T = true ↔
      (∀ t, t ∈ T → sigil_of t ≠ Plain) ∨
      (∃ t, t ∈ T ∧ plain_hit Q t) ∨
      "<ALL>" ∈ Q)).
Proof.
  assert (Hloop : T ≠ [] →
    match_tags Q T = match_tags_loop Q (bool_decide ("<ALL>" ∈ Q)) None T).
  { by destruct T. }
  assert (Hne : ∀ t, t ∈ T → T ≠ []).
  { intros t Ht ->. by apply elem_of_nil in Ht. }
  split; [done|]. split; [|split].
  - intros (t & Ht & Hn). rewrite Hloop by eauto.
    apply not_true_is_false. intros H.
    apply match_tags_loop_true in H as (H & _).
    rewrite Forall_forall in H. by apply (H t).
  - intros (t & Ht & Hn). rewrite Hloop by eauto.
    apply not_true_is_false. intros H.
    apply match_tags_loop_true in H as (_ & H & _).
    rewrite Forall_forall in H. by apply (H t).
  - intros Hn Hp. destruct (decide (T = [])) as [-> | HT].
    + split; [|done]. intros _. left. intros t Ht. by apply elem_of_nil in Ht.
    + rewrite Hloop by done.
      rewrite match_tags_loop_true, !Forall_forall, Exists_exists.
      unfold plain_ok, plain_hit. setoid_rewrite bool_decide_eq_true.
      split.
      * intros (_ & _ & [H | (t & Ht & Hs & [Hall | Hin])]); eauto 10.
      * intros H. split; [intros t Ht Hc; apply Hn; eauto|].
        split; [intros t Ht Hc; apply Hp; eauto|].
        destruct H as [H | [(t & Ht & Hs & Hin) | Hall]]; [eauto | eauto 10 |].
        destruct (decide (Forall (λ t, sigil_of t ≠ Plain) T)) as [Hnp | Hex].
        { left. by apply Forall_forall. }
        right. apply not_Forall_Exists in Hex; [|apply _].
        apply Exists_exists in Hex as (t & Ht & Hs).
        exists t. split; [done|]. split; [|by left].
        destruct (decide (sigil_of t = Plain)); [done|by exfalso].
Qed.

Lemma match_tags_spec_witness :
  match_tags {[ "A" ]} ["a"; "+b"] = false.
Proof.
  apply (proj1 (proj2 (proj2 (match_tags_spec {[ "A" ]} ["a"; "+b"])))).
  exists "+b". split; [set_solver|]. split; [reflexivity|]. vm_compute. set_solver.
Defined.

(** ** validate_tags *)

Lemma size_list_to_set_NoDup (l : list string) :
  size (list_to_set l : gset string) = List.length l ↔ NoDup l.
Proof.
  split; [|apply size_list_to_set].
  induction l as [|x l IH]; [constructor|].
  assert (Hle : ∀ k : list string, (size (list_to_set k : gset string) ≤ List.length k)%nat).
  { induction k as [|y k IHk]; [done|]. cbn.
    rewrite size_union_alt, size_singleton.
    assert (list_to_set k ∖ {[y]} ⊆ (list_to_set k : gset string)) as Hsub by set_solver.
    apply subseteq_size in Hsub. lia. }
  cbn. intros Hsz. destruct (decide (x ∈ l)) as [Hin | Hnin].
  - exfalso. assert ({[x]} ∪ list_to_set l = (list_to_set l : gset string)) as Heq.
    { apply set_eq. intros y. rewrite elem_of_union, elem_of_singleton, elem_of_list_to_set.
      naive_solver. }
    rewrite Heq in Hsz. specialize (Hle l). lia.
  - constructor; [done|]. apply IH.
    rewrite size_union, size_singleton in Hsz; [lia|]. set_solver.
Qed.

Lemma upper_not_any s : upper s ≠ "<any>".
Proof.
  destruct s as [|c0 [|c1 s]]; [done..|].
  intros H. injection H as _ H _.
  revert H. clear. destruct c1 as [[] [] [] [] [] [] [] []]; vm_compute; congruence.
Qed.

Lemma not_NoDup_lookup (l : list string) :
  ¬ NoDup l → ∃ (i j : nat) x, i ≠ j ∧ l !! i = Some x ∧ l !! j = Some x.
Proof.
  induction l as [|x l IH]; intros Hnd.
  - exfalso. apply Hnd. constructor.
  - destruct (decide (x ∈ l)) as [Hin | Hnin].
    + apply list_elem_of_lookup in Hin as [k Hk].
      exists 0%nat, (S k), x. done.
    + destruct IH as (i & j & y & Hij & Hi & Hj).
      { intros Hl. apply Hnd. by constructor. }
      exists (S i), (S j), y. split_and!; [lia|done..].
Qed.

Lemma duplicate_tags_NoDup tags :
  Forall is_ascii tags →
  (duplicate_tags tags ↔ ¬ NoDup ((fun t => upper (lstrip_sigils t)) <$> tags)).
Proof.
  intros Hascii.
  assert (Hbridge : ∀ i j a b, tags !! i = Some a → tags !! j = Some b →
            (casefold (lstrip_sigils a) = casefold (lstrip_sigils b)
             ↔ upper (lstrip_sigils a) = upper (lstrip_sigils b))).
  { intros i j a b Ha Hb.
    apply casefold_eq_upper_eq; apply lstrip_sigils_ascii;
      eapply Forall_lookup_1; eauto. }
  unfold duplicate_tags. split.
  - intros (i & j & a & b & Hij & Ha & Hb & Heq) Hnd.
    apply (Hbridge i j a b Ha Hb) in Heq. rewrite NoDup_alt in Hnd.
    apply Hij, (Hnd i j (upper (lstrip_sigils a))); rewrite list_lookup_fmap.
    + by rewrite Ha.
    + by rewrite Hb, Heq.
  - intros Hnd. apply not_NoDup_lookup in Hnd as (i & j & x & Hij & Hi & Hj).
    rewrite list_lookup_fmap in Hi, Hj.
    destruct (tags !! i) as [a|] eqn:Ha; [|done].
    destruct (tags !! j) as [b|] eqn:Hb; [|done].
    cbn in Hi, Hj. exists i, j, a, b. split_and!; try done.
    apply (Hbridge i j a b Ha Hb). congruence.
Qed.

(** C6 (as amended). For tags written in ASCII: [validate_tags] raises the
    supplied error when two of the tags are equal after stripping leading
    sigils and case-folding; otherwise, when no tag is the plain wildcard
    [<any>] in any letter case, it returns the set of the upper-cased
    tags, each still carrying its sigil. *)
Theorem validate_tags_amended (tags : list string) (error : string -> exn) :
  Forall is_ascii tags →
  (duplicate_tags tags →
     validate_tags tags error = Raise (error "Duplicate tags!")) ∧
  (¬ duplicate_tags tags → "<any>" ∉ (casefold <$> tags) →
     validate_tags tags error = Ok (list_to_set (upper <$> tags))).
Proof.
  intros Hascii. unfold validate_tags. split.
  - intros Hdup. apply duplicate_tags_NoDup in Hdup; [|done].
    rewrite bool_decide_eq_true_2; [done|].
    intros Hsz. apply Hdup, size_list_to_set_NoDup.
    by rewrite Hsz, length_fmap.
  - intros Hdup _. rewrite duplicate_tags_NoDup in Hdup by done.
    apply dec_stable in Hdup.
    rewrite bool_decide_eq_false_2.
    + rewrite bool_decide_eq_false_2; [done|].
      rewrite elem_of_list_to_set, list_elem_of_fmap.
      intros (t & Ht & _). symmetry in Ht. by apply upper_not_any in Ht.
    + intros Hsz. apply Hsz.
      rewrite (proj2 (size_list_to_set_NoDup _) Hdup). by rewrite length_fmap.
Qed.

Lemma validate_tags_amended_witness :
  validate_tags ["+a"; "!A"] ValueError = Raise (ValueError "Duplicate tags!") ∧
  validate_tags ["+a"; "b"] ValueError = Ok (list_to_set (upper <$> ["+a"; "b"])).
Proof.
  split.
  - refine (proj1 (validate_tags_amended ["+a"; "!A"] ValueError _) _).
    + unfold is_ascii. repeat constructor.
    + exists 0%nat, 1%nat, "+a", "!A". by split_and!.
  - refine (proj2 (validate_tags_amended ["+a"; "b"] ValueError _) _ _).
    + unfold is_ascii. repeat constructor.
    + intros (i & j & a & b & Hij & Ha & Hb & Heq).
      destruct i as [|[|i]], j as [|[|j]]; try done;
        injection Ha as <-; injection Hb as <-; by vm_compute in Heq.
    + intros Hin. vm_compute in Hin.
      repeat (apply elem_of_cons in Hin as [Hin|Hin]; [discriminate Hin|]).
      by apply elem_of_nil in Hin.
Defined.

(** C6, the claim as stated fails: for the single tag [+a] the code returns
    the set holding [+A], sigil included, where the claim expects the
    stripped label [A]. *)
Lemma validate_tags_keeps_sigil :
  validate_tags ["+a"] ValueError = Ok {[ "+A" ]} ∧
  validate_tags_spec ["+a"] ValueError = Ok {[ "A" ]} ∧
  validate_tags ["+a"] ValueError ≠ validate_tags_spec ["+a"] ValueError.
Proof.
  split_and!; [by vm_compute..|].
  intros H. vm_compute in H. discriminate H.
Qed.

(** The wildcard test of [validate_tags] compares the lower-case literal
    with upper-cased labels, so it lets the wildcard through. *)
Example validate_tags_any :
  validate_tags ["<any>"] ValueError = Ok {[ "<ANY>" ]}.
Proof. by vm_compute. Qed.

(** ** Dictionaries *)

Section dict_facts.
Context {K V : Type} `{EqDecision K}.
Implicit Types (d : list (K * V)) (k : K) (v : V).

Lemma dict_get_app d1 d2 k :
  dict_get (d1 ++ d2) k =
    match dict_get d1 k with Some v => Some v | None => dict_get d2 k end.
Proof.
  induction d1 as [|[k' v'] d1 IH]; [done|].
  cbn. by destruct (decide (k = k')).
Qed.

Lemma dict_set_fresh d k v : dict_get d k = None → dict_set d k v = d ++ [(k, v)].
Proof.
  induction d as [|[k' v'] d IH]; [done|].
  cbn. destruct (decide (k = k')); [done|]. intros Hd. by rewrite IH.
Qed.

Lemma dict_get_None d k : dict_get d k = None ↔ k ∉ d.*1.
Proof.
  induction d as [|[k' v'] d IH]; cbn.
  - split; [intros _|done]. apply not_elem_of_nil.
  - rewrite not_elem_of_cons. destruct (decide (k = k')); [naive_solver|].
    rewrite IH. naive_solver.
Qed.
End dict_facts.

(** ** BinStrDict *)

Lemma numbered_fst seen : (numbered seen).*1 = seen.
Proof.
  unfold numbered. apply list_eq. intros i.
  rewrite list_lookup_fmap, list_lookup_imap. by destruct (seen !! i).
Qed.

Lemma numbered_snoc seen s :
  numbered (seen ++ [s]) = numbered seen ++ [(s, Z.of_nat (List.length seen))].
Proof.
  unfold numbered. rewrite imap_app. cbn. by rewrite Nat.add_0_r.
Qed.

Lemma numbered_get seen s i :
  dict_get (numbered seen) s = Some i →
  0 <= i < Z.of_nat (List.length seen) ∧ seen !! Z.to_nat i = Some s.
Proof.
  induction seen as [|x seen IH] using rev_ind; [done|].
  rewrite numbered_snoc, dict_get_app, length_app. cbn.
  destruct (dict_get (numbered seen) s) as [j|] eqn:Hj.
  - intros [= ->]. destruct (IH eq_refl) as [Hr Hl]. split; [lia|].
    by apply lookup_app_l_Some.
  - destruct (decide (s = x)) as [->|]; [|done]. intros [= <-]. split; [lia|].
    rewrite Nat2Z.id. by apply list_lookup_middle.
Qed.

Lemma first_seen_from_prefix seen strs : seen `prefix_of` first_seen_from seen strs.
Proof.
  revert seen. induction strs as [|s rest IH]; intros seen; cbn; [done|].
  case_decide; [done|]. etrans; [|apply IH]. by apply prefix_app_r.
Qed.

Lemma first_seen_from_NoDup seen strs : NoDup seen → NoDup (first_seen_from seen strs).
Proof.
  revert seen. induction strs as [|s rest IH]; intros seen Hnd; cbn; [done|].
  case_decide; [by apply IH|]. apply IH, NoDup_app. split_and!; [done| |apply NoDup_singleton].
  intros x Hx Hs. apply list_elem_of_singleton in Hs as ->. done.
Qed.

Lemma first_seen_from_elem seen strs x :
  x ∈ first_seen_from seen strs ↔ x ∈ seen ∨ x ∈ strs.
Proof.
  revert seen. induction strs as [|s rest IH]; intros seen; cbn.
  - rewrite elem_of_nil. tauto.
  - case_decide as Hs; rewrite IH, ?elem_of_app, !elem_of_cons, ?elem_of_nil.
    + split; [tauto|]. intros [?|[->|?]]; auto.
    + tauto.
Qed.

Lemma pack_u16_ok n : 0 <= n <= 65535 → pack_u16 n = Ok [n / 256; n mod 256].
Proof.
  intros Hn. unfold pack_u16.
  destruct (0 <=? n) eqn:H0; [|lia]. destruct (n <=? 65535) eqn:H1; [done|lia].
Qed.

Lemma pack_u16_overflow n :
  65535 < n →
  pack_u16 n = Raise (StructError "'H' format requires 0 <= number <= 65535").
Proof.
  intros Hn. unfold pack_u16.
  destruct (n <=? 65535) eqn:H1; [lia|]. by rewrite andb_false_r.
Qed.

Lemma register_all_run seen strs :
  NoDup seen → Z.of_nat (List.length seen) <= 65536 →
  let self := mkBinStrDict (numbered seen) (Z.of_nat (List.length seen)) in
  let final := first_seen_from seen strs in
  (Z.of_nat (List.length final) <= 65536 →
    ∃ outs,
      register_all self strs =
        (mkBinStrDict (numbered final) (Z.of_nat (List.length final)), Ok outs) ∧
      Forall2 (fun s bytes => ∃ i, final !! i = Some s ∧ bytes = index_bytes i)
        strs outs) ∧
  (65536 < Z.of_nat (List.length final) →
    ∃ self',
      register_all self strs =
        (self', Raise (StructError "'H' format requires 0 <= number <= 65535"))).
Proof.
  revert seen. induction strs as [|s rest IH]; intros seen Hnd Hlen; cbn zeta.
  - cbn. split; [|lia]. intros _. exists []. split; [done|constructor].
  - pose proof (first_seen_from_prefix seen (s :: rest)) as Hpre.
    cbn [first_seen_from register_all] in *.
    unfold BinStrDict_call. cbn [_dict cur_index].
    destruct (decide (s ∈ seen)) as [Hin | Hnin].
    + destruct (dict_get (numbered seen) s) as [i|] eqn:Hget.
      2:{ apply dict_get_None in Hget. by rewrite numbered_fst in Hget. }
      apply numbered_get in Hget as [Hi Hs].
      rewrite pack_u16_ok by lia.
      destruct (IH seen Hnd Hlen) as [IHok IHbad]. split.
      * intros Hfin. destruct (IHok Hfin) as (outs & -> & Hall).
        eexists. split; [done|]. constructor; [|done].
        exists (Z.to_nat i). split; [by eapply prefix_lookup_Some|].
        unfold index_bytes. by rewrite Z2Nat.id by lia.
      * intros Hfin. destruct (IHbad Hfin) as (self' & ->). by eexists.
    + destruct (dict_get (numbered seen) s) as [i|] eqn:Hget.
      { apply numbered_get in Hget as [_ Hs]. exfalso. apply Hnin.
        by eapply list_elem_of_lookup_2. }
      rewrite dict_set_fresh by done.
      replace (Z.of_nat (List.length seen) >? Z.shiftl 1 16) with false
        by (change (Z.shiftl 1 16) with 65536; lia).
      assert (Hlen' : (List.length (seen ++ [s]) = S (List.length seen))%nat).
      { rewrite length_app. cbn. lia. }
      clear Hpre. pose proof (prefix_length _ _ (first_seen_from_prefix (seen ++ [s]) rest)) as Hpre.
      rewrite Hlen' in Hpre.
      destruct (decide (Z.of_nat (List.length seen) = 65536)) as [Hfull | Hroom].
      * rewrite pack_u16_overflow by lia. split; [lia|]. intros _. by eexists.
      * rewrite pack_u16_ok by lia.
        rewrite <- numbered_snoc.
        replace (Z.of_nat (List.length seen) + 1) with
          (Z.of_nat (List.length (seen ++ [s]))) by lia.
        destruct (IH (seen ++ [s])) as [IHok IHbad].
        { apply NoDup_app. split_and!; [done| |apply NoDup_singleton].
          intros x Hx Hsx. apply list_elem_of_singleton in Hsx as ->. done. }
        { lia. }
        split.
        -- intros Hfin. destruct (IHok Hfin) as (outs & -> & Hall).
           eexists. split; [done|]. constructor; [|done].
           exists (List.length seen). split; [|done].
           eapply prefix_lookup_Some; [|apply first_seen_from_prefix].
           by apply list_lookup_middle.
        -- intros Hfin. destruct (IHbad Hfin) as (self' & ->). by eexists.
Qed.

(** C8. The string dictionary numbers the distinct strings of a run in the
    order of their first occurrence; the run succeeds when there are at
    most 65536 of them and raises otherwise. *)
Theorem BinStrDict_overflow (strs : list string) :
  let final := first_seen strs in
  NoDup final ∧ (∀ s, s ∈ final ↔ s ∈ strs) ∧
  (Z.of_nat (List.length final) <= 65536 →
    ∃ outs,
      register_all BinStrDict_init strs =
        (mkBinStrDict (numbered final) (Z.of_nat (List.length final)), Ok outs) ∧
      Forall2 (fun s bytes => ∃ i, final !! i = Some s ∧ bytes = index_bytes i)
        strs outs) ∧
  (65536 < Z.of_nat (List.length final) →
    ∃ self' e, register_all BinStrDict_init strs = (self', Raise e)).
Proof.
  cbn zeta. unfold first_seen. split_and!.
  - apply first_seen_from_NoDup. constructor.
  - intros s. rewrite first_seen_from_elem, elem_of_nil. tauto.
  - apply (register_all_run [] strs); [constructor|cbn; lia].
  - intros Hbig.
    destruct (register_all_run [] strs) as [_ Hbad]; [constructor|cbn; lia|].
    destruct (Hbad Hbig) as (self' & Hrun). eauto.
Qed.

Lemma BinStrDict_overflow_witness :
  ∃ outs,
    register_all BinStrDict_init ["a"; "b"; "a"] =
      (mkBinStrDict (numbered (first_seen ["a"; "b"; "a"]))
         (Z.of_nat (List.length (first_seen ["a"; "b"; "a"]))), Ok outs) ∧
    Forall2 (fun s bytes =>
        ∃ i, first_seen ["a"; "b"; "a"] !! i = Some s ∧ bytes = index_bytes i)
      ["a"; "b"; "a"] outs.
Proof.
  apply (proj1 (proj2 (proj2 (BinStrDict_overflow ["a"; "b"; "a"])))).
  vm_compute. discriminate.
Defined.

Example register_all_example :
  register_all BinStrDict_init ["a"; "b"; "a"] =
    (mkBinStrDict [("a", 0); ("b", 1)] 2, Ok [[0; 0]; [0; 1]; [0; 0]]).
Proof. reflexivity. Qed.

(** ** The result monad *)

Lemma bind_Ok {A B} (m : result A) (k : A → result B) (b : B) :
  m ≫= k = Ok b ↔ ∃ a, m = Ok a ∧ k a = Ok b.
Proof.
  destruct m as [a|e]; cbn.
  - split; [eauto|]. by intros (a' & [= ->] & H).
  - split; [done|]. by intros (a' & ? & _).
Qed.

(** Take apart a hypothesis [H : <computation> = Ok _], down to the final
    [Ok _ = Ok _]. *)
Ltac inv_ok H :=
  cbv beta iota in H;
  first
    [ discriminate H
    | lazymatch type of H with
      | Ok _ = Ok _ => idtac
      | _ ≫= _ = Ok _ =>
          let a := fresh "a" in
          let Ha := fresh "Ha" in
          apply bind_Ok in H as (a & Ha & H); inv_ok H
      | (let '(_, _) := ?x in _) = Ok _ => destruct x; inv_ok H
      | (if ?c then _ else _) = Ok _ => destruct c eqn:?; inv_ok H
      | match ?x with _ => _ end = Ok _ => destruct x eqn:?; inv_ok H
      end ].

(** ** The parser *)

Section dict_Forall.
Context {K V : Type} `{EqDecision K} (P : V → Prop).
Implicit Types (d : list (K * V)).

Lemma dict_set_Forall d k v :
  Forall (fun p => P p.2) d → P v → Forall (fun p => P p.2) (dict_set d k v).
Proof.
  intros Hd Hv. induction d as [|[k' v'] d IH]; cbn.
  - by repeat constructor.
  - apply Forall_cons in Hd as [Hh Ht].
    destruct (decide (k = k')); constructor; auto.
Qed.

Lemma dict_get_Forall d k v :
  Forall (fun p => P p.2) d → dict_get d k = Some v → P v.
Proof.
  intros Hd. induction d as [|[k' v'] d IH]; cbn; [done|].
  apply Forall_cons in Hd as [Hh Ht].
  destruct (decide (k = k')); [by intros [= <-]|auto].
Qed.
End dict_Forall.

Lemma attr_store_Forall {T} (P : T → Prop) (d : attr_map T) name tags value :
  Forall (fun entry => Forall (fun tagged => P tagged.2) entry.2) d →
  P value →
  Forall (fun entry => Forall (fun tagged => P tagged.2) entry.2)
    (attr_store d name tags value).
Proof.
  intros Hd Hv. unfold attr_store.
  apply (dict_set_Forall (fun tm => Forall (fun tagged => P tagged.2) tm)); [done|].
  apply (dict_set_Forall P); [|done].
  destruct (dict_get d name) as [tm|] eqn:Hget; cbn; [|constructor].
  by eapply (dict_get_Forall (fun tm => Forall (fun tagged => P tagged.2) tm)).
Qed.

Lemma parse_keyvalue_readonly fuel entity name toks entity' toks' :
  parse_keyvalue fuel entity name toks = Ok (entity', toks') →
  readonly_all_false entity → readonly_all_false entity'.
Proof.
  unfold parse_keyvalue, readonly_all_false. intros H Hinv.
  inv_ok H; injection H as <- <-; cbn [keyvalues set_keyvalues set_kv_order];
    (apply (attr_store_Forall (fun kv => kv_readonly kv = PBool false));
     [by destruct (bool_decide _)| done]).
Qed.

Lemma parse_io_keyvalues fuel entity io_type toks entity' toks' :
  parse_io fuel entity io_type toks = Ok (entity', toks') →
  keyvalues entity' = keyvalues entity.
Proof. unfold parse_io. intros H. inv_ok H; by injection H as <- <-. Qed.

Lemma parse_body_readonly fuel entity toks entity' toks' :
  parse_body fuel entity toks = Ok (entity', toks') →
  readonly_all_false entity → readonly_all_false entity'.
Proof.
  revert entity toks. induction fuel as [|fuel IH]; intros entity toks H Hinv;
    [done|].
  cbn [parse_body] in H.
  destruct (tok_iter toks) as [[[token token_value]|] rest];
    [|by injection H as <- <-].
  destruct token; try done; [|by eapply IH|by injection H as <- <-].
  apply bind_Ok in H as ([entity1 toks1] & Hline & H).
  eapply IH; [done|].
  case_bool_decide.
  - unfold readonly_all_false. by rewrite (parse_io_keyvalues _ _ _ _ _ _ Hline).
  - by eapply parse_keyvalue_readonly.
Qed.

Lemma parse_header_keyvalues fuel fgd eval_bases entity help_type toks r :
  parse_header fuel fgd eval_bases entity help_type toks = Ok r →
  keyvalues r.1.1 = keyvalues entity.
Proof.
  revert entity help_type toks.
  induction fuel as [|fuel IH]; intros entity help_type toks H; [done|].
  cbn [parse_header] in H.
  destruct (tok_iter toks) as [[[token token_value]|] rest]; [|done].
  destruct token; try done.
  - destruct help_type as [ht|].
    + by rewrite (IH _ _ _ H).
    + destruct (HelperTypes.of_value token_value); [by eapply IH|done].
  - by eapply IH.
  - destruct help_type as [ht|]; [|done].
    destruct (decide (ht = HelperTypes.INHERIT)).
    + apply bind_Ok in H as (bs & _ & H). by rewrite (IH _ _ _ H).
    + by rewrite (IH _ _ _ H).
  - by injection H as <-.
Qed.

Lemma parse_desc_keyvalues fuel entity desc toks r :
  parse_desc fuel entity desc toks = Ok r → keyvalues r.1 = keyvalues entity.
Proof.
  revert entity desc toks.
  induction fuel as [|fuel IH]; intros entity desc toks H; [done|].
  cbn [parse_desc] in H.
  destruct (tok_iter toks) as [[[token token_value]|] rest];
    [|by injection H as <-].
  destruct token; try done.
  - destruct desc as [[|]|]; try done. by eapply IH.
  - by eapply IH.
  - destruct desc as [[|]|]; by injection H as <-.
  - destruct desc; [done|by eapply IH].
  - destruct desc as [[|]|]; try done.
    apply bind_Ok in H as ([more toks1] & _ & H). by eapply IH.
Qed.

(** C10. Every keyvalue record that [EntityDef.parse] builds has its
    [readonly] flag equal to [False], whatever the line says: the record is
    built with the detected flag compared against the string
    ['readonly']. *)
Theorem parse_readonly_always_false fuel (h : heap) fgd toks ent_type eval_bases
    h' fgd' toks' :
  EntityDef_parse fuel h fgd toks ent_type eval_bases = Ok (h', fgd', toks') →
  ∃ entity, h' !! fresh (dom h) = Some entity ∧ readonly_all_false entity.
Proof.
  unfold EntityDef_parse. intros H.
  apply bind_Ok in H as ([[entity1 help_type] toks1] & Hhead & H).
  apply bind_Ok in H as ([name toks2] & _ & H).
  apply bind_Ok in H as ([entity2 toks3] & Hdesc & H).
  apply bind_Ok in H as ([entity3 toks4] & Hbody & H).
  injection H as <- <- <-.
  exists entity3. split; [apply lookup_insert_eq|].
  eapply parse_body_readonly; [done|].
  apply parse_header_keyvalues in Hhead. apply parse_desc_keyvalues in Hdesc.
  cbn [fst] in Hhead, Hdesc.
  unfold readonly_all_false. rewrite Hdesc. cbn [fst keyvalues set_classname].
  replace (keyvalues (match help_type with
                      | Some ht => set_helpers (helpers entity1 ++ [(ht, [])]) entity1
                      | None => entity1
                      end)) with (keyvalues entity1) by (by destruct help_type).
  rewrite Hhead. constructor.
Qed.

Lemma parse_readonly_always_false_witness :
  ∃ entity,
    (<[fresh (dom (∅ : heap)) :=
        mkEntityDef EntityTypes.POINT "my_ent"
          [("health",
            [(∅, mkKeyValues "health" ValueTypes.INT "Health" "5" "" None
                   (PBool false))])]
          [] [] ["health"] [] [] ""]> (∅ : heap))
      !! fresh (dom (∅ : heap)) = Some entity ∧
    readonly_all_false entity.
Proof.
  apply (parse_readonly_always_false 20 ∅ FGD_init readonly_line EntityTypes.POINT
           false _ (mkFGD [("my_ent", fresh (dom (∅ : heap)))] (NInt 0) (NInt 0)) []).
  reflexivity.
Defined.

(** ** KeyValues.serialise on a parsed value list *)

Example VALUE_TYPE_INDEX_flags :
  dict_get VALUE_TYPE_INDEX ValueTypes.SPAWNFLAGS = Some 2.
Proof. reflexivity. Qed.

(** C7. The parser turns the entry list into four-field entries (value,
    name, default, tags), and [KeyValues.serialise] unpacks three fields
    from each entry, so serialising the parsed record raises [ValueError]
    and writes no entry byte.  For the entries without their tag sets the
    bytes are the ones the claim gives: [0x80] and [0x01], each followed
    by the two-byte reference of the entry name. *)
Theorem serialise_parsed_spawnflags :
  parse_keyvalue 20 (EntityDef_init EntityTypes.POINT) "spawnflags" spawnflags_line
    = Ok (mkEntityDef EntityTypes.POINT "" [("spawnflags", [(∅, parsed_spawnflags)])]
            [] [] ["spawnflags"] [] [] "", []) ∧
  KeyValues_serialise parsed_spawnflags BinStrDict_init
    = Raise (ValueError "too many values to unpack (expected 3)") ∧
  KeyValues_serialise untagged_spawnflags BinStrDict_init
    = Ok (mkBinStrDict [("spawnflags", 0); ("One", 1); ("Two", 2)] 3,
          [0; 0; 0; 0; 2; 2; 128; 0; 1; 1; 0; 2]).
Proof. split_and!; reflexivity. Qed.

(** ** collapse_bases *)

Lemma collapse_pass_no_bases st visit :
  (∀ a, a ∈ visit → ∃ e, ps_heap st !! a = Some e ∧ bases e = []) →
  collapse_pass st visit =
    (mkPass (ps_heap st) (list_to_set visit ∪ ps_done st) (ps_deferred st), None).
Proof.
  revert st. induction visit as [|ent rest IH]; intros st Hall.
  - cbn. destruct st. f_equal. f_equal. set_solver.
  - cbn [collapse_pass]. unfold collapse_visit.
    destruct (Hall ent) as (e & -> & Hb); [left|].
    rewrite bool_decide_eq_true_2 by done.
    rewrite IH.
    + cbn. f_equal. f_equal. set_solver.
    + intros a Ha. apply Hall. by right.
Qed.

(** C9. Once every entity of the database has an empty base list,
    [collapse_bases] returns without error and leaves the store, hence
    every entity's keyvalues, inputs, outputs, [kv_order] and bases, as it
    found it, whatever the order in which the sets are visited. *)
Theorem collapse_bases_idempotent (set_order : gset addr → list addr)
    (fgd : FGD) (h : heap) (fuel : nat) :
  (∀ X a, a ∈ set_order X → a ∈ X) →
  (∀ a, a ∈ FGD_iter fgd → ∃ e, h !! a = Some e ∧ bases e = []) →
  FGD_collapse_bases (S (S fuel)) set_order fgd h = (h, None).
Proof.
  intros Horder Hall. unfold FGD_collapse_bases. cbn [collapse_loop].
  case_bool_decide as Hempty; [done|].
  rewrite collapse_pass_no_bases.
  - cbn [ps_heap ps_deferred ps_done].
    rewrite bool_decide_eq_false_2 by done.
    by rewrite bool_decide_eq_true_2.
  - cbn. intros a Ha. apply Hall. apply Horder in Ha.
    by apply elem_of_list_to_set in Ha.
Qed.

(** *** Merging a base never fails on well-formed value lists *)

Lemma union_val_lists_cons x l vals :
  ∃ l', union_val_lists (x :: l) vals = x :: l'.
Proof.
  unfold union_val_lists. revert l. induction vals as [|v vals IH]; intros l; cbn.
  - eauto.
  - destruct (py_tuple_eq v x || existsb (py_tuple_eq v) l); [apply IH|].
    apply (IH (l ++ [v])).
Qed.

Lemma KeyValues_copy_listed kv : kv_listed kv → kv_listed (KeyValues_copy kv).
Proof.
  unfold kv_listed. cbn. intros H Hl. destruct (H Hl) as (x & l & ->). by exists x, l.
Qed.

Lemma merge_kv_ok m tag kv :
  kv_listed kv →
  Forall (fun tagged : gset string * KeyValues => kv_listed tagged.2) m →
  ∃ m', merge_kv m tag kv = Ok m' ∧
        Forall (fun tagged : gset string * KeyValues => kv_listed tagged.2) m'.
Proof.
  intros Hkv Hm. unfold merge_kv.
  destruct (dict_get m tag) as [target|] eqn:Hget.
  - destruct (ValueTypes.has_list (kv_type kv)) eqn:Hl; [|eauto].
    destruct (kv_val_list target) as [[|x l]|] eqn:Htl; [eauto| |eauto].
    destruct (Hkv Hl) as (y & vals & ->).
    eexists. split; [done|].
    apply (dict_set_Forall kv_listed); [done|].
    intros _. cbn [kv_val_list set_val_list snd].
    destruct (union_val_lists_cons x l (y :: vals)) as [l' ->]. eauto.
  - eexists. split; [done|].
    apply (dict_set_Forall kv_listed); [done|]. by apply KeyValues_copy_listed.
Qed.

Lemma merge_kv_fold_ok base_kv_map m :
  Forall (fun tagged : gset string * KeyValues => kv_listed tagged.2) base_kv_map →
  Forall (fun tagged : gset string * KeyValues => kv_listed tagged.2) m →
  ∃ m',
    foldl (fun acc '(tag, kv) => m ← acc; merge_kv m tag kv) (Ok m) base_kv_map
      = Ok m' ∧
    Forall (fun tagged : gset string * KeyValues => kv_listed tagged.2) m'.
Proof.
  revert m. induction base_kv_map as [|[tag kv] rest IH]; intros m Hb Hm; cbn.
  - eauto.
  - apply Forall_cons in Hb as [Hkv Hrest].
    destruct (merge_kv_ok m tag kv Hkv Hm) as (m1 & -> & Hm1). by apply IH.
Qed.

Lemma merge_kv_name_ok ent_kv base_kv names name base_kv_map :
  Forall (fun tagged : gset string * KeyValues => kv_listed tagged.2) base_kv_map →
  all_kv_listed ent_kv →
  ∃ ent_kv' base_kv' names',
    merge_kv_name (ent_kv, base_kv, names) name base_kv_map
      = Ok (ent_kv', base_kv', names') ∧
    all_kv_listed ent_kv'.
Proof.
  intros Hb He. unfold merge_kv_name.
  destruct (merge_kv_fold_ok base_kv_map (default [] (dict_get ent_kv name)))
    as (m' & -> & Hm'); [done| |].
  { destruct (dict_get ent_kv name) as [m|] eqn:Hget; cbn; [|constructor].
    by eapply (dict_get_Forall
      (fun tm => Forall (fun tagged : gset string * KeyValues => kv_listed tagged.2) tm)). }
  cbn.
  assert (all_kv_listed (dict_set ent_kv name m')).
  { by apply (dict_set_Forall
      (fun tm => Forall (fun tagged : gset string * KeyValues => kv_listed tagged.2) tm)). }
  case_bool_decide; eauto 10.
Qed.

Lemma merge_kv_names_ok base_kvs ent_kv base_kv names :
  all_kv_listed base_kvs → all_kv_listed ent_kv →
  ∃ ent_kv' base_kv' names',
    foldl (fun acc '(name, base_kv_map) =>
        st ← acc; merge_kv_name st name base_kv_map)
      (Ok (ent_kv, base_kv, names)) base_kvs
      = Ok (ent_kv', base_kv', names') ∧
    all_kv_listed ent_kv'.
Proof.
  revert ent_kv base_kv names.
  induction base_kvs as [|[name base_kv_map] rest IH]; intros ent_kv base_kv names Hb He.
  - cbn. eauto 10.
  - apply Forall_cons in Hb as [Hmap Hrest]. cbn [foldl].
    destruct (merge_kv_name_ok ent_kv base_kv names name base_kv_map Hmap He)
      as (ent_kv1 & base_kv1 & names1 & Heq & He1).
    cbn in Heq |- *. rewrite Heq. by apply IH.
Qed.

Lemma merge_base_ok (h : heap) ent e names b :
  val_lists_present h → h !! ent = Some e → is_Some (h !! b) →
  ∃ e' names',
    merge_base h ent names (BaseEnt b) = (<[ent := e']> h, Ok names') ∧
    same_links e e' ∧ all_kv_listed (keyvalues e').
Proof.
  intros Hvl He [base Hbase]. unfold merge_base. rewrite Hbase, He.
  destruct (merge_kv_names_ok (keyvalues base) (keyvalues e) names.1 names.2)
    as (ent_kv' & base_kv' & names' & -> & Hkv'); [by eapply Hvl..|].
  eexists _, _. split; [done|]. by split.
Qed.

Lemma merge_bases_ok (h : heap) ent e names bs :
  val_lists_present h → h !! ent = Some e →
  (∀ b, b ∈ bs → ∃ b', b = BaseEnt b' ∧ is_Some (h !! b')) →
  ∃ e' names',
    merge_bases h ent names bs = (<[ent := e']> h, Ok names') ∧
    same_links e e' ∧ all_kv_listed (keyvalues e').
Proof.
  revert h e names. induction bs as [|b bs IH]; intros h e names Hvl He Hbs.
  - exists e, names. cbn. rewrite insert_id by done.
    split; [done|]. split; [done|]. by eapply Hvl.
  - destruct (Hbs b) as (b' & -> & Hb'); [left|].
    destruct (merge_base_ok h ent e names b' Hvl He Hb')
      as (e1 & names1 & Heq & Hlinks1 & Hkv1).
    cbn [merge_bases]. rewrite Heq.
    destruct (IH (<[ent := e1]> h) e1 names1) as (e2 & names2 & Heq2 & Hlinks2 & Hkv2).
    + intros a ea. destruct (decide (a = ent)) as [->|Hne].
      * rewrite lookup_insert_eq. by intros [= <-].
      * rewrite lookup_insert_ne by done. apply Hvl.
    + apply lookup_insert_eq.
    + intros b Hb. destruct (Hbs b) as (b2 & -> & Hb2); [by right|].
      exists b2. split; [done|].
      destruct (decide (b2 = ent)) as [->|Hne];
        [by rewrite lookup_insert_eq|by rewrite lookup_insert_ne].
    + rewrite Heq2, insert_insert_eq. eexists _, _. split; [done|].
      split; [|done]. unfold same_links in *. intuition congruence.
Qed.

Lemma collapse_ent_ok (h : heap) ent e :
  val_lists_present h → bases_resolved h → h !! ent = Some e →
  ∃ e',
    collapse_ent h ent = (<[ent := e']> h, None) ∧
    bases e' = [] ∧ all_kv_listed (keyvalues e').
Proof.
  intros Hvl Hres He. unfold collapse_ent. rewrite He.
  destruct (merge_bases_ok h ent e ([], list_to_set (kv_order e)) (bases e))
    as (e1 & [base_kv names] & -> & Hlinks & Hkv); [done..|by eapply Hres|].
  rewrite lookup_insert_eq, insert_insert_eq. eexists. split; [done|]. by split.
Qed.

(** *** A cycle is reported, and its entities are left alone *)

Lemma check_bases_ok (h : heap) done deferred ready bs :
  (∀ b, b ∈ bs → ∃ b', b = BaseEnt b' ∧ is_Some (h !! b')) →
  ∃ deferred' ready',
    check_bases done deferred ready bs = Ok (deferred', ready') ∧
    deferred ⊆ deferred' ∧
    (∀ y, y ∈ deferred' → y ∈ deferred ∨ (BaseEnt y ∈ bs ∧ y ∉ done)) ∧
    (ready' = true → ∀ b', BaseEnt b' ∈ bs → b' ∈ done) ∧
    (ready = false → ready' = false).
Proof.
  revert deferred ready. induction bs as [|b bs IH]; intros deferred ready Hbs.
  - exists deferred, ready. cbn. split_and!; try done.
    + intros y Hy. by left.
    + intros _ b' Hb'. by apply elem_of_nil in Hb'.
  - destruct (Hbs b) as (b' & -> & _); [left|].
    assert (Hrest : ∀ b, b ∈ bs → ∃ b', b = BaseEnt b' ∧ is_Some (h !! b')).
    { intros b Hb. apply Hbs. by right. }
    cbn [check_bases]. case_bool_decide as Hin.
    + destruct (IH deferred ready Hrest) as (d' & r' & -> & Hsub & Hnew & Hall & Hfalse).
      exists d', r'. split_and!; try done.
      * intros y Hy. destruct (Hnew y Hy) as [?|[? ?]]; [by left|].
        right. split; [by right|done].
      * intros Hr b2 Hb2. apply elem_of_cons in Hb2 as [[= ->]|Hb2]; [done|].
        by apply Hall.
    + destruct (IH ({[b']} ∪ deferred) false Hrest)
        as (d' & r' & -> & Hsub & Hnew & Hall & Hfalse).
      exists d', r'. split_and!; try done.
      * set_solver.
      * intros y Hy. destruct (Hnew y Hy) as [Hy'|[? ?]].
        -- apply elem_of_union in Hy' as [Hy'|?]; [|by left].
           apply elem_of_singleton in Hy' as ->. right. split; [left|done].
        -- right. split; [by right|done].
      * intros Hr. rewrite Hfalse in Hr; done.
      * intros _. by apply Hfalse.
Qed.

Section cycle.
Context (A B : addr) (eA eB : EntityDef) (U : gset addr).
Hypothesis HAB : BaseEnt B ∈ bases eA.
Hypothesis HBA : BaseEnt A ∈ bases eB.

Lemma cycle_inv_not_done h done :
  cycle_inv A B eA eB U h done → A ∉ done ∧ B ∉ done.
Proof.
  intros (_ & _ & _ & Hdone & HA & HB). split; intros Hin.
  - destruct (Hdone A Hin) as (e & He & Hb). rewrite HA in He.
    injection He as <-. rewrite Hb in HAB. by apply elem_of_nil in HAB.
  - destruct (Hdone B Hin) as (e & He & Hb). rewrite HB in He.
    injection He as <-. rewrite Hb in HBA. by apply elem_of_nil in HBA.
Qed.

Lemma collapse_visit_ok st ent :
  cycle_inv A B eA eB U (ps_heap st) (ps_done st) → ent ∈ U →
  ∃ st',
    collapse_visit st ent = (st', None) ∧
    cycle_inv A B eA eB U (ps_heap st') (ps_done st') ∧
    pass_progress U st st' ∧
    (ent ∈ ps_done st' ∨ ent ∈ ps_deferred st') ∧
    (ent = A → A ∈ ps_deferred st').
Proof.
  intros Hinv Hent. pose proof (cycle_inv_not_done _ _ Hinv) as [HAd HBd].
  destruct Hinv as (Hdom & Hres & Hvl & Hdone & HA & HB).
  destruct st as [h done deferred]. cbn [ps_heap ps_done ps_deferred] in *.
  assert (is_Some (h !! ent)) as [e He].
  { apply elem_of_dom. by rewrite Hdom. }
  unfold collapse_visit. cbn [ps_heap ps_done ps_deferred]. rewrite He.
  case_bool_decide as Hb.
  - (* no bases *)
    eexists. split; [done|]. cbn [ps_heap ps_done ps_deferred].
    split_and!.
    + split_and!; try done. intros a Ha.
      apply elem_of_union in Ha as [Ha|Ha]; [|by apply Hdone].
      apply elem_of_singleton in Ha as ->. eauto.
    + split_and!; cbn; [set_solver|done|]. intros y Hy. by left.
    + left. set_solver.
    + intros ->. rewrite HA in He. injection He as <-.
      rewrite Hb in HAB. by apply elem_of_nil in HAB.
  - destruct (check_bases_ok h done deferred true (bases e))
      as (deferred' & ready' & -> & Hsub & Hnew & Hall & _); [by eapply Hres|].
    assert (Hent_nd : ent ∉ done).
    { intros Hin. destruct (Hdone ent Hin) as (e' & He' & Hb').
      rewrite He in He'. by injection He' as <-. }
    assert (HnewU : ∀ y, y ∈ deferred' → y ∈ deferred ∨ (y ∉ done ∧ y ∈ U)).
    { intros y Hy. destruct (Hnew y Hy) as [?|[Hyb Hyd]]; [by left|].
      right. split; [done|].
      destruct (Hres ent e He (BaseEnt y) Hyb) as (y' & [= <-] & Hsome).
      rewrite <- Hdom. by apply elem_of_dom. }
    destruct ready'.
    + (* ready: the entity is collapsed; it is neither [A] nor [B] *)
      assert (ent ≠ A) as HneA.
      { intros ->. rewrite HA in He. injection He as <-.
        apply HBd. by apply Hall. }
      assert (ent ≠ B) as HneB.
      { intros ->. rewrite HB in He. injection He as <-.
        apply HAd. by apply Hall. }
      destruct (collapse_ent_ok h ent e Hvl Hres He) as (e' & -> & Hb' & Hkv').
      eexists. split; [done|]. cbn [ps_heap ps_done ps_deferred].
      split_and!.
      * split_and!.
        -- rewrite dom_insert_L, Hdom. set_solver.
        -- intros a ea. destruct (decide (a = ent)) as [->|Hne].
           ++ rewrite lookup_insert_eq. intros [= <-] b Hbb.
              rewrite Hb' in Hbb. by apply elem_of_nil in Hbb.
           ++ rewrite lookup_insert_ne by done. intros Hea b Hbb.
              destruct (Hres a ea Hea b Hbb) as (b' & -> & Hsome).
              exists b'. split; [done|].
              destruct (decide (b' = ent)) as [->|Hne'];
                [by rewrite lookup_insert_eq|by rewrite lookup_insert_ne].
        -- intros a ea. destruct (decide (a = ent)) as [->|Hne].
           ++ rewrite lookup_insert_eq. by intros [= <-].
           ++ rewrite lookup_insert_ne by done. apply Hvl.
        -- intros a Ha. destruct (decide (a = ent)) as [->|Hne].
           ++ rewrite lookup_insert_eq. eauto.
           ++ rewrite lookup_insert_ne by done. apply Hdone. set_solver.
        -- by rewrite lookup_insert_ne.
        -- by rewrite lookup_insert_ne.
      * split_and!; cbn; [set_solver|done|done].
      * left. set_solver.
      * done.
    + (* not ready: deferred *)
      eexists. split; [done|]. cbn [ps_heap ps_done ps_deferred].
      split_and!.
      * by split_and!.
      * split_and!; cbn; [done|set_solver|].
        intros y Hy. apply elem_of_union in Hy as [Hy|Hy]; [|by apply HnewU].
        apply elem_of_singleton in Hy as ->. right. by split.
      * right. set_solver.
      * intros ->. set_solver.
Qed.

Lemma collapse_pass_ok st visit :
  cycle_inv A B eA eB U (ps_heap st) (ps_done st) →
  (∀ x, x ∈ visit → x ∈ U) →
  ∃ st',
    collapse_pass st visit = (st', None) ∧
    cycle_inv A B eA eB U (ps_heap st') (ps_done st') ∧
    pass_progress U st st' ∧
    (∀ x, x ∈ visit → x ∈ ps_done st' ∨ x ∈ ps_deferred st') ∧
    (A ∈ visit → A ∈ ps_deferred st').
Proof.
  revert st. induction visit as [|ent rest IH]; intros st Hinv HU.
  - exists st. cbn. split_and!; try done.
    + split_and!; try done. intros y Hy. by left.
    + intros x Hx. by apply elem_of_nil in Hx.
    + intros Hx. by apply elem_of_nil in Hx.
  - destruct (collapse_visit_ok st ent Hinv) as (st1 & Heq & Hinv1 & Hp1 & Hent & HentA).
    { apply HU. left. }
    destruct (IH st1 Hinv1) as (st2 & Heq2 & Hinv2 & Hp2 & Hall & HA2).
    { intros x Hx. apply HU. by right. }
    exists st2. cbn [collapse_pass]. rewrite Heq. split; [done|].
    destruct Hp1 as (Hd1 & Hf1 & Hn1). destruct Hp2 as (Hd2 & Hf2 & Hn2).
    split_and!; try done.
    + split_and!; [set_solver|set_solver|].
      intros y Hy. destruct (Hn2 y Hy) as [Hy1|[Hy1 HyU]].
      * by apply Hn1.
      * right. split; [|done]. intros Hyd. apply Hy1. by apply Hd1.
    + intros x Hx. apply elem_of_cons in Hx as [->|Hx]; [|by apply Hall].
      destruct Hent as [?|?]; [left|right]; set_solver.
    + intros HA. apply elem_of_cons in HA as [HA|HA]; [|by apply HA2].
      apply Hf2. by apply HentA.
Qed.

Lemma passes_left_decrease todo done deferred' done' :
  done ⊆ done' → done' ⊆ U → todo ⊆ U → deferred' ⊆ U →
  (∀ y, y ∈ deferred' → y ∉ done) →
  (∀ x, x ∈ todo → x ∈ done' ∨ x ∈ deferred') →
  todo ≠ deferred' →
  (passes_left U deferred' done' < passes_left U todo done)%nat.
Proof.
  intros Hdd Hd'U HtU HfU Hfd Hcover Hne. unfold passes_left.
  assert (size (U ∖ todo) ≤ size U)%nat by (apply subseteq_size; set_solver).
  assert (size (U ∖ deferred') ≤ size U)%nat by (apply subseteq_size; set_solver).
  destruct (decide (done' = done)) as [->|Hgrow].
  - rewrite (decide_True (P := deferred' ∩ done = ∅)) by set_solver.
    destruct (decide (todo ∩ done = ∅)) as [Hdisj|Hmeet]; [|lia].
    assert (U ∖ deferred' ⊂ U ∖ todo) as Hlt.
    { assert (todo ⊆ deferred') as Hsub.
      { intros x Hx. destruct (Hcover x Hx) as [Hxd|?]; [|done]. set_solver. }
      assert (∃ y, y ∈ deferred' ∧ y ∉ todo) as (y & Hy1 & Hy2).
      { apply dec_stable. intros Hno. apply Hne. apply set_eq. intros x.
        split; [apply Hsub|]. intros Hx. apply dec_stable. intros Hxt.
        apply Hno. eauto. }
      split; [set_solver|]. intros Hback.
      assert (y ∈ U ∖ todo) as Hy by set_solver.
      apply Hback in Hy. set_solver. }
    apply subset_size in Hlt. lia.
  - assert (U ∖ done' ⊂ U ∖ done) as Hlt.
    { assert (∃ y, y ∈ done' ∧ y ∉ done) as (y & Hy1 & Hy2).
      { apply dec_stable. intros Hno. apply Hgrow. apply set_eq. intros x.
        split; [|apply Hdd]. intros Hx. apply dec_stable. intros Hxd.
        apply Hno. eauto. }
      split; [set_solver|]. intros Hback.
      assert (y ∈ U ∖ done) as Hy by set_solver.
      apply Hback in Hy. set_solver. }
    apply subset_size in Hlt.
    destruct (decide (deferred' ∩ done' = ∅)); destruct (decide (todo ∩ done = ∅)); nia.
Qed.

Lemma collapse_loop_cycle (set_order : gset addr → list addr) fuel h todo done :
  (∀ X a, a ∈ set_order X ↔ a ∈ X) →
  cycle_inv A B eA eB U h done → todo ⊆ U → A ∈ todo →
  (passes_left U todo done < fuel)%nat →
  ∃ h',
    collapse_loop fuel set_order h todo done
      = (h', Some (ValueError "Loop in bases!")) ∧
    h' !! A = Some eA ∧ h' !! B = Some eB.
Proof.
  intros Horder. revert h todo done.
  induction fuel as [|fuel IH]; intros h todo done Hinv HtU HA Hfuel; [lia|].
  cbn [collapse_loop].
  rewrite bool_decide_eq_false_2 by set_solver.
  destruct (collapse_pass_ok (mkPass h done ∅) (set_order todo))
    as (st' & -> & Hinv' & (Hdd & _ & Hnew) & Hcover & HAdef); [done| |].
  { intros x Hx. apply HtU. by apply Horder. }
  cbn [ps_done ps_deferred ps_heap] in *.
  case_bool_decide as Hsame.
  - destruct Hinv' as (_ & _ & _ & _ & HA' & HB'). eauto.
  - apply IH; [done| | |].
    + intros y Hy. destruct (Hnew y Hy) as [Hy'|[_ ?]]; [set_solver|done].
    + apply HAdef. by apply Horder.
    + assert (passes_left U (ps_deferred st') (ps_done st') < passes_left U todo done)%nat;
        [|lia].
      apply passes_left_decrease; try done.
      * destruct Hinv' as (Hdom & _ & _ & Hdone & _).
        intros a Ha. destruct (Hdone a Ha) as (e & He & _).
        rewrite <- Hdom. apply elem_of_dom. eauto.
      * intros y Hy. destruct (Hnew y Hy) as [Hy'|[_ ?]]; [set_solver|done].
      * intros y Hy. destruct (Hnew y Hy) as [Hy'|[? _]]; [set_solver|done].
      * intros x Hx. apply Hcover. by apply Horder.
Qed.
End cycle.

(** C4 (as amended). In a database where every base of every entity is
    resolved to a stored entity and every keyvalue of a list type carries
    a non-empty value list, and which has a base cycle (A lists B and B
    lists A), [collapse_bases] raises the cycle error, whatever the order
    in which the sets are visited, and the failed call leaves A and B as
    they were: base lists, keyvalues, inputs, outputs and [kv_order].
    The step budget is quadratic in the number of stored entities. *)
Theorem collapse_bases_cycle (set_order : gset addr → list addr) (fgd : FGD)
    (h : heap) (A B : addr) (eA eB : EntityDef) (fuel : nat) :
  (∀ X a, a ∈ set_order X ↔ a ∈ X) →
  bases_resolved h → val_lists_present h →
  (∀ a, a ∈ FGD_iter fgd → is_Some (h !! a)) →
  A ∈ FGD_iter fgd → h !! A = Some eA → h !! B = Some eB →
  BaseEnt B ∈ bases eA → BaseEnt A ∈ bases eB →
  (size (dom h) * (2 * size (dom h) + 2) + 2 * size (dom h) + 2 ≤ fuel)%nat →
  ∃ h',
    FGD_collapse_bases fuel set_order fgd h
      = (h', Some (ValueError "Loop in bases!")) ∧
    h' !! A = Some eA ∧ h' !! B = Some eB.
Proof.
  intros Horder Hres Hvl Hreg HAreg HA HB HAB HBA Hfuel.
  unfold FGD_collapse_bases.
  assert (list_to_set (FGD_iter fgd) ⊆ dom h) as Hsub.
  { intros a Ha. apply elem_of_list_to_set in Ha. apply elem_of_dom. by apply Hreg. }
  apply (collapse_loop_cycle A B eA eB (dom h) HAB HBA); try done.
  - by apply elem_of_list_to_set.
  - unfold passes_left.
    assert (size (dom h ∖ ∅) ≤ size (dom h))%nat by (apply subseteq_size; set_solver).
    assert (size (dom h ∖ list_to_set (FGD_iter fgd)) ≤ size (dom h))%nat
      by (apply subseteq_size; set_solver).
    destruct (decide (list_to_set (FGD_iter fgd) ∩ ∅ = ∅)); nia.
Qed.


Lemma collapse_bases_idempotent_witness :
  FGD_collapse_bases 2 elements
    (mkFGD [("base1", Base1_addr)] (NInt 0) (NInt 0))
    (<[Base1_addr := Base1_def]> ∅)
  = (<[Base1_addr := Base1_def]> ∅, None).
Proof.
  apply (collapse_bases_idempotent elements).
  - intros X a. by rewrite elem_of_elements.
  - intros a Ha. apply list_elem_of_singleton in Ha as ->.
    exists Base1_def. split; reflexivity.
Defined.

(** Every base of the database of five entities is a stored entity. *)
Lemma chain_bases_resolved choices : bases_resolved (chain_heap_with choices).
Proof.
  intros a e Ha b Hb. unfold chain_heap_with in Ha.
  repeat (apply lookup_insert_Some in Ha as [[<- <-]|[_ Ha]];
    [cbn in Hb;
     first [by apply elem_of_nil in Hb
           |apply list_elem_of_singleton in Hb as ->; eexists;
            split; [done|vm_compute; by eexists]]|]).
  done.
Qed.

Lemma collapse_bases_cycle_witness :
  ∃ h',
    FGD_collapse_bases 72 elements chain_fgd
        (chain_heap_with [[PStr "1"; PStr "On"; PTags ∅]])
      = (h', Some (ValueError "Loop in bases!")) ∧
    h' !! chain_A = Some chain_A_def ∧ h' !! chain_B = Some chain_B_def.
Proof.
  apply (collapse_bases_cycle elements chain_fgd
           (chain_heap_with [[PStr "1"; PStr "On"; PTags ∅]]) chain_A chain_B
           chain_A_def chain_B_def 72).
  - intros X a. by rewrite elem_of_elements.
  - apply chain_bases_resolved.
  - intros a e Ha. unfold chain_heap_with in Ha.
    repeat (apply lookup_insert_Some in Ha as [[<- <-]|[_ Ha]];
      [repeat constructor; intros _; by do 2 eexists|]).
    done.
  - intros a Ha. cbn in Ha.
    repeat (apply elem_of_cons in Ha as [->|Ha]; [vm_compute; by eexists|]).
    by apply elem_of_nil in Ha.
  - cbn. set_solver.
  - reflexivity.
  - reflexivity.
  - cbn. set_solver.
  - cbn. set_solver.
  - vm_compute. lia.
Defined.

(** C4, the claim as stated fails: without the condition on value lists
    the call can end in another error.  The database is parsed from five
    declarations and linked; its bases are resolved and [A] and [B] are
    each other's base.  Visited in the order of the declarations, [E2]
    takes the keyvalue of [E1] by [KeyValues.copy], which stores [None]
    for the empty list; merging [E2] into [E3], whose own list is not
    empty, iterates over that [None] and raises [TypeError] before the
    pass ends, so the cycle of [A] and [B] is not reported. *)
Lemma collapse_bases_cycle_type_error :
  (chain_parsed ≫= fun '(h, fgd) => Ok (fgd, FGD_apply_bases fgd h))
    = Ok (chain_fgd, (chain_heap, None)) ∧
  bases_resolved chain_heap ∧
  chain_A ∈ FGD_iter chain_fgd ∧
  chain_heap !! chain_A = Some chain_A_def ∧
  chain_heap !! chain_B = Some chain_B_def ∧
  BaseEnt chain_B ∈ bases chain_A_def ∧ BaseEnt chain_A ∈ bases chain_B_def ∧
  ¬ val_lists_present chain_heap ∧
  (∀ fuel,
    FGD_collapse_bases (S fuel) (visit_in (FGD_iter chain_fgd)) chain_fgd chain_heap
    = (<[chain_E2 := chain_E2_collapsed]> chain_heap,
       Some (TypeError "'NoneType' object is not iterable"))).
Proof.
  split_and!.
  - by vm_compute.
  - apply chain_bases_resolved.
  - cbn. set_solver.
  - reflexivity.
  - reflexivity.
  - cbn. set_solver.
  - cbn. set_solver.
  - intros Hvl. specialize (Hvl chain_E1 _ eq_refl).
    apply Forall_cons in Hvl as [Hmode _]. apply Forall_cons in Hmode as [Hkv _].
    destruct (Hkv eq_refl) as (x & l & Hlist). discriminate Hlist.
  - intros fuel. by vm_compute.
Qed.

(** C5. The database of the example is the two parsed entities, linked by
    [apply_bases].  When the pass reaches [Base1] before [my_ent], the
    collapse gives [my_ent] the order [other, field] and no bases.  When the
    pass reaches [my_ent] first, [Base1] is put in the deferred set next to
    [my_ent]; the deferred set then equals the set of entities to do and the
    call fails with the cycle error, leaving [my_ent] as it was. *)
Theorem collapse_bases_example :
  (example_parsed ≫= fun '(h, fgd) => Ok (fgd, FGD_apply_bases fgd h))
    = Ok (example_fgd, (example_heap, None)) ∧
  FGD_collapse_bases 3 (visit_in [Base1_addr; my_ent_addr]) example_fgd example_heap
    = (<[my_ent_addr := my_ent_collapsed]> example_heap, None) ∧
  (∀ fuel,
    FGD_collapse_bases (S fuel) (visit_in [my_ent_addr; Base1_addr]) example_fgd
      example_heap
    = (example_heap, Some (ValueError "Loop in bases!"))).
Proof.
  split_and!.
  - by vm_compute.
  - by vm_compute.
  - intros fuel. by vm_compute.
Qed.

(** ** The entity view *)

(** C3. The lookup case-folds the tags of the query, while [match_tags]
    upper-cases the tags of each candidate and expects an upper-cased
    query: a keyvalue declared under the tag [A] matches the query {A},
    and the lookup with that query still ends in [KeyError].  The
    wildcard [<ALL>] is folded as well, and then matches nothing. *)
Theorem view_getitem_casefolds_query :
  dict_get (keyvalues tagged_ent) "k" = Some [({[ "A" ]}, tagged_kv)] ∧
  match_tags {[ "A" ]} (elements ({[ "A" ]} : gset string)) = true ∧
  (∀ fuel,
    EntityView_getitem (S fuel) tagged_heap 1%positive keyvalues (Tagged "k" ["A"])
      = Raise (KeyError "k")) ∧
  (∀ fuel,
    EntityView_getitem (S fuel) tagged_heap 1%positive keyvalues (Tagged "k" ["<ALL>"])
      = Raise (KeyError "k")).
Proof. split_and!; try intros fuel; by vm_compute. Qed.

(** ** The binary format: writers against readers *)

Lemma pack_u8_ok n : 0 <= n <= 255 → pack_u8 n = Ok [n].
Proof.
  intros Hn. unfold pack_u8.
  destruct (0 <=? n) eqn:H0; [|lia]. destruct (n <=? 255) eqn:H1; [done|lia].
Qed.

Lemma read_u16_index_bytes (i : nat) rest :
  Z.of_nat i <= 65535 → read_u16 (index_bytes i ++ rest) = Ok (Z.of_nat i, rest).
Proof.
  intros Hi. cbn. do 2 f_equal.
  pose proof (Z.div_mod (Z.of_nat i) 256). lia.
Qed.

Lemma lookup_index_bytes (inv : list string) (i : nat) s rest :
  inv !! i = Some s → Z.of_nat i <= 65535 →
  lookup inv (index_bytes i ++ rest) = Ok (s, rest).
Proof.
  intros Hi Hle. unfold lookup, mbind, reader_bind.
  rewrite read_u16_index_bytes by done. by rewrite Nat2Z.id, Hi.
Qed.

Lemma NoDup_length_le_size (S : gset string) (seen : list string) :
  NoDup seen → (∀ s, s ∈ seen → s ∈ S) → (List.length seen ≤ size S)%nat.
Proof.
  intros Hnd Hsub. rewrite <- (size_list_to_set (C := gset string) seen) by done.
  apply subseteq_size. intros s Hs. apply elem_of_list_to_set in Hs. auto.
Qed.

Section codec.
Context (S : gset string).
Hypothesis S_fits : Z.of_nat (size S) <= 65536.

Lemma codec_ok_str s : s ∈ S → codec_ok S (w_str s) lookup s.
Proof.
  intros Hs seen Hnd Hsub.
  pose proof (NoDup_length_le_size S seen Hnd Hsub) as Hlen.
  unfold w_str, BinStrDict_call, dict_of. cbn [_dict cur_index].
  destruct (dict_get (numbered seen) s) as [i|] eqn:Hget.
  - apply numbered_get in Hget as [Hi Hlook].
    exists seen, (index_bytes (Z.to_nat i)).
    rewrite pack_u16_ok by lia. split_and!; try done.
    + cbn. unfold index_bytes. by rewrite Z2Nat.id by lia.
    + intros inv rest Hpre. apply lookup_index_bytes; [|lia].
      by eapply prefix_lookup_Some.
  - apply dict_get_None in Hget. rewrite numbered_fst in Hget.
    assert (Hnd' : NoDup (seen ++ [s])).
    { apply NoDup_app. split_and!; [done| |apply NoDup_singleton].
      intros x Hx Hxs. apply list_elem_of_singleton in Hxs as ->. done. }
    assert (Hsub' : ∀ x, x ∈ seen ++ [s] → x ∈ S).
    { intros x Hx. apply elem_of_app in Hx as [?|Hx]; [auto|].
      by apply list_elem_of_singleton in Hx as ->. }
    pose proof (NoDup_length_le_size S _ Hnd' Hsub') as Hlen'.
    rewrite length_app in Hlen'. cbn in Hlen'.
    rewrite dict_set_fresh by (apply dict_get_None; by rewrite numbered_fst).
    replace (Z.of_nat (List.length seen) >? Z.shiftl 1 16) with false
      by (change (Z.shiftl 1 16) with 65536; lia).
    exists (seen ++ [s]), (index_bytes (List.length seen)).
    rewrite pack_u16_ok by lia. split_and!; try done.
    + cbn. rewrite numbered_snoc, length_app. cbn. do 3 f_equal. lia.
    + by apply prefix_app_r.
    + intros inv rest Hpre. apply lookup_index_bytes; [|lia].
      eapply prefix_lookup_Some; [|done]. by apply list_lookup_middle.
Qed.

Lemma codec_ok_bytes {A} packed bytes (r : reader A) x :
  packed = Ok bytes → (∀ rest, r (bytes ++ rest) = Ok (x, rest)) →
  codec_ok S (w_bytes packed) (fun _ => r) x.
Proof.
  intros -> Hr seen Hnd Hsub. exists seen, bytes. by split_and!.
Qed.

Lemma codec_ok_nop {A} (x : A) : codec_ok S w_nop (fun _ => mret x) x.
Proof. intros seen Hnd Hsub. exists seen, []. by split_and!. Qed.

Lemma codec_ok_seq {A B} w1 w2 (r1 : list string → reader A)
    (k : list string → A → reader B) x y :
  codec_ok S w1 r1 x → codec_ok S w2 (fun inv => k inv x) y →
  codec_ok S (w1 ;;; w2) (fun inv => r1 inv ≫= k inv) y.
Proof.
  intros H1 H2 seen Hnd Hsub.
  destruct (H1 seen Hnd Hsub) as (seen1 & b1 & Hw1 & Hnd1 & Hsub1 & Hpre1 & Hr1).
  destruct (H2 seen1 Hnd1 Hsub1) as (seen2 & b2 & Hw2 & Hnd2 & Hsub2 & Hpre2 & Hr2).
  exists seen2, (b1 ++ b2). unfold w_seq. rewrite Hw1. cbn. rewrite Hw2. cbn.
  split_and!; try done.
  - by etrans.
  - intros inv rest Hpre. unfold mbind, reader_bind.
    rewrite <- app_assoc, Hr1 by (by etrans). by apply Hr2.
Qed.

Lemma codec_ok_ext {A} w (r r' : list string → reader A) x :
  (∀ inv file, r inv file = r' inv file) → codec_ok S w r x → codec_ok S w r' x.
Proof.
  intros Heq H seen Hnd Hsub.
  destruct (H seen Hnd Hsub) as (seen' & bytes & ? & ? & ? & ? & Hr).
  exists seen', bytes. split_and!; try done.
  intros inv rest Hpre. rewrite <- Heq. by apply Hr.
Qed.

Lemma codec_ok_map {A B} w (r : list string → reader A) (f : A → B) x :
  codec_ok S w r x → codec_ok S w (fun inv => r inv ≫= fun a => mret (f a)) (f x).
Proof.
  intros H seen Hnd Hsub.
  destruct (H seen Hnd Hsub) as (seen' & bytes & ? & ? & ? & ? & Hr).
  exists seen', bytes. split_and!; try done.
  intros inv rest Hpre. unfold mbind, reader_bind. by rewrite Hr.
Qed.

Lemma codec_ok_each {A B} (f : A → writer) (r : list string → reader B) l xs :
  Forall2 (fun a x => codec_ok S (f a) r x) l xs →
  codec_ok S (w_each f l) (fun inv => r_repeat (List.length l) (r inv)) xs.
Proof.
  induction 1 as [|a x l xs Ha Hall IH]; cbn [w_each List.length r_repeat].
  - apply codec_ok_nop.
  - apply (codec_ok_seq _ _ r (fun inv a => rest ← r_repeat (List.length l) (r inv);
                                             mret (a :: rest)) x (x :: xs)); [done|].
    by apply (codec_ok_map _ _ (cons x)).
Qed.
Lemma codec_ok_pure {A B} w (k : list string → A → reader B) t y :
  codec_ok S w (fun inv => k inv t) y →
  codec_ok S w (fun inv => mret t ≫= k inv) y.
Proof. by apply codec_ok_ext. Qed.

Lemma codec_ok_map_eq {A B} w (r : list string → reader A) (f : A → B) x y :
  y = f x → codec_ok S w r x →
  codec_ok S w (fun inv => r inv ≫= fun a => mret (f a)) y.
Proof. intros ->. apply codec_ok_map. Qed.
End codec.

(** *** Tags, types and leaf records *)

Lemma value_type_index t :
  ∃ i, dict_get VALUE_TYPE_INDEX t = Some i ∧ 0 <= i < 127 ∧
       VALUE_TYPE_ORDER !! Z.to_nat i = Some t.
Proof. destruct t; eexists; (split; [reflexivity|]); by vm_compute. Qed.

Lemma entity_type_index t :
  ∃ i, dict_get ENTITY_TYPE_INDEX t = Some i ∧ 0 <= i <= 255 ∧
       ENTITY_TYPE_ORDER !! Z.to_nat i = Some t.
Proof. destruct t; eexists; (split; [reflexivity|]); by vm_compute. Qed.

(** The bit tricks on a seven-bit number and the flag bit, checked on
    every value. *)
Lemma seven_bits k :
  0 <= k < 128 →
  Z.lor k 128 = k + 128 ∧ Z.land (k + 128) 127 = k ∧ Z.land (k + 128) 128 = 128 ∧
  Z.land k 127 = k ∧ Z.land k 128 = 0.
Proof.
  intros Hk.
  assert (Hall : forallb (fun k =>
      (Z.lor k 128 =? k + 128) && (Z.land (k + 128) 127 =? k) &&
      (Z.land (k + 128) 128 =? 128) && (Z.land k 127 =? k) && (Z.land k 128 =? 0))
    (seqZ 0 128) = true) by (by vm_compute).
  rewrite forallb_forall in Hall. specialize (Hall k).
  rewrite <- list_elem_of_In, elem_of_seqZ in Hall.
  specialize (Hall ltac:(lia)).
  repeat (apply andb_prop in Hall as [Hall ?]). lia.
Qed.

Section leaves.
Context (S : gset string).
Hypothesis S_fits : Z.of_nat (size S) <= 65536.

Lemma codec_ok_strs (l : list string) :
  (∀ s, s ∈ l → s ∈ S) →
  codec_ok S (w_each w_str l) (fun inv => r_repeat (List.length l) (lookup inv)) l.
Proof.
  intros Hl. apply codec_ok_each. induction l as [|s l IH]; constructor.
  - apply codec_ok_str; [done|]. apply Hl. left.
  - apply IH. intros x Hx. apply Hl. by right.
Qed.

Lemma codec_ok_tags (tags : gset string) :
  Z.of_nat (size tags) <= 255 → (∀ t, t ∈ tags → t ∈ S) →
  codec_ok S (write_tags tags) (fun inv => read_tagset (lookup inv)) tags.
Proof.
  intros Hsz Hin. unfold write_tags, read_tagset.
  apply (codec_ok_seq S _ _ (fun _ => read_u8)
           (fun inv n => tags ← r_repeat (Z.to_nat n) (lookup inv);
                         mret (list_to_set tags))
           (Z.of_nat (size tags)) tags).
  - apply (codec_ok_bytes S _ [Z.of_nat (size tags)]); [|done].
    apply pack_u8_ok. lia.
  - rewrite Nat2Z.id.
    assert (Hel : ∀ s, s ∈ elements tags → s ∈ S).
    { intros s Hs. apply Hin. by apply elem_of_elements. }
    pose proof (codec_ok_map S _ _ (list_to_set (C := gset string)) _
                  (codec_ok_strs (elements tags) Hel)) as H.
    by rewrite list_to_set_elements_L in H.
Qed.

Lemma codec_ok_wext {A} (w w' : writer) (r : list string → reader A) x :
  (∀ dic, w dic = w' dic) → codec_ok S w r x → codec_ok S w' r x.
Proof.
  intros Heq H seen Hnd Hsub.
  destruct (H seen Hnd Hsub) as (seen' & bytes & Hw & ?).
  exists seen', bytes. by rewrite <- Heq.
Qed.

Lemma codec_ok_flag entry :
  flag_ready entry → (∀ s, s ∈ entry ≫= pyval_strings → s ∈ S) →
  codec_ok S (serialise_flag entry)
    (fun inv =>
       power ← read_u8;
       val_name ← lookup inv;
       mret [PInt (Z.shiftl 1 (Z.land power 127)); PStr val_name;
             PBool (negb (Z.land power 128 =? 0))])
    entry.
Proof.
  intros (k & name & b & -> & Hk) Hin.
  pose proof (seven_bits k Hk) as (Hlor & Hland1 & Hland2 & Hland3 & Hland4).
  set (power := if b then k + 128 else k).
  apply (codec_ok_wext (w_bytes (pack_u8 power) ;;; w_str name)).
  { intros dic. cbn [serialise_flag]. unfold math_log2_int.
    assert (0 < 2 ^ k) by (apply Z.pow_pos_nonneg; lia).
    destruct (2 ^ k <=? 0) eqn:Hle; [lia|]. cbn.
    rewrite Z.log2_pow2 by lia. unfold power. destruct b; cbn [truthy]; by rewrite ?Hlor. }
  apply (codec_ok_seq S _ _ (fun _ => read_u8)
           (fun inv power =>
              val_name ← lookup inv;
              mret [PInt (Z.shiftl 1 (Z.land power 127)); PStr val_name;
                    PBool (negb (Z.land power 128 =? 0))])
           power).
  - apply (codec_ok_bytes S _ [power]); [|done].
    apply pack_u8_ok. unfold power. destruct b; lia.
  - assert ([PInt (2 ^ k); PStr name; PBool b]
            = (fun val_name => [PInt (Z.shiftl 1 (Z.land power 127)); PStr val_name;
                                PBool (negb (Z.land power 128 =? 0))]) name) as ->.
    { cbn beta. unfold power. destruct b.
      - rewrite Hland1, Hland2, Z.shiftl_1_l. done.
      - rewrite Hland3, Hland4, Z.shiftl_1_l. done. }
    apply (codec_ok_map S _ lookup
             (fun val_name => [PInt (Z.shiftl 1 (Z.land power 127)); PStr val_name;
                               PBool (negb (Z.land power 128 =? 0))])).
    apply codec_ok_str; [done|]. apply Hin. cbn. set_solver.
Qed.

Lemma codec_ok_choice entry :
  choice_ready entry → (∀ s, s ∈ entry ≫= pyval_strings → s ∈ S) →
  codec_ok S (serialise_choice entry)
    (fun inv => val ← lookup inv; val_name ← lookup inv; mret [PStr val; PStr val_name])
    entry.
Proof.
  intros (val & name & ->) Hin. cbn [serialise_choice].
  apply (codec_ok_seq S _ _ lookup
           (fun inv val => val_name ← lookup inv; mret [PStr val; PStr val_name]) val).
  - apply codec_ok_str; [done|]. apply Hin. cbn. set_solver.
  - apply (codec_ok_map S _ lookup (fun val_name => [PStr val; PStr val_name])).
    apply codec_ok_str; [done|]. apply Hin. cbn. set_solver.
Qed.

Lemma codec_ok_KeyValues kv :
  kv_ready kv → (∀ s, s ∈ kv_strings kv → s ∈ S) →
  codec_ok S (KeyValues_serialise kv)
    (fun inv => KeyValues_unserialise (lookup inv)) (kv_image kv).
Proof.
  intros Hready Hin.
  destruct (value_type_index (kv_type kv)) as (i & Hi & Hrange & Horder).
  unfold KeyValues_serialise, KeyValues_unserialise, kv_image, kv_ready in *.
  rewrite Hi.
  set (value_ind := if truthy (kv_readonly kv) then Z.lor i 128 else i).
  assert (Hname : kv_name kv ∈ S) by (apply Hin; left).
  assert (Hdisp : kv_disp_name kv ∈ S) by (apply Hin; right; left).
  assert (Hdflt : kv_default kv ∈ S) by (apply Hin; right; right; left).
  assert (Hvals : ∀ l, kv_val_list kv = Some l →
            Forall (fun entry => ∀ s, s ∈ entry ≫= pyval_strings → s ∈ S) l).
  { intros l Hl. apply Forall_forall. intros entry Hentry s Hs. apply Hin.
    unfold kv_strings. rewrite Hl. cbn [default]. do 3 right.
    apply list_elem_of_bind. eauto. }
  pose proof (seven_bits i ltac:(lia)) as (Hlor & Hland1 & Hland2 & Hland3 & Hland4).
  assert (Hind : 0 <= value_ind <= 255 ∧ Z.land value_ind 127 = i ∧
                 Z.land value_ind 128 = if truthy (kv_readonly kv) then 128 else 0).
  { unfold value_ind. destruct (truthy (kv_readonly kv)); rewrite ?Hlor; lia. }
  destruct Hind as (Hind_range & Hind_type & Hind_ro).
  eapply (codec_ok_seq S _ _ lookup _ (kv_name kv)); [by apply codec_ok_str|].
  eapply (codec_ok_seq S _ _ lookup _ (kv_disp_name kv)); [by apply codec_ok_str|].
  eapply (codec_ok_seq S _ _ (fun _ => read_u8) _ value_ind).
  { apply (codec_ok_bytes S _ [value_ind]); [|done]. by apply pack_u8_ok. }
  cbn beta. rewrite Hind_type, Hind_ro.
  unfold index_into. rewrite Horder.
  apply codec_ok_pure. cbn beta.
  destruct (decide (kv_type kv = ValueTypes.SPAWNFLAGS)) as [Hs|Hns]; cbn beta iota.
  - (* spawnflags *)
    destruct (kv_val_list kv) as [l|] eqn:Hl; [|by destruct Hready].
    destruct Hready as [(_ & Hlen & Hflags)|(Htype & _)]; [|congruence].
    specialize (Hvals l eq_refl).
    eapply (codec_ok_seq S _ _ (fun _ => read_u8) _ (Z.of_nat (List.length l))).
    { apply (codec_ok_bytes S _ [Z.of_nat (List.length l)]); [|done].
      apply pack_u8_ok. lia. }
    cbn beta. rewrite Nat2Z.id.
    eapply codec_ok_map_eq; [reflexivity|].
    apply codec_ok_each, Forall_Forall2_diag, Forall_forall.
    intros entry Hentry. rewrite Forall_forall in Hflags, Hvals.
    apply codec_ok_flag; [by apply Hflags|by apply Hvals].
  - eapply (codec_ok_seq S _ _ lookup _ (kv_default kv)); [by apply codec_ok_str|].
    cbn beta.
    destruct (decide (kv_type kv = ValueTypes.CHOICES)) as [Hc|Hnc]; cbn beta iota.
    + (* choices *)
      destruct (kv_val_list kv) as [l|] eqn:Hl; [|by destruct Hready].
      destruct Hready as [(Htype & _)|(_ & Hlen & Hchoices)]; [congruence|].
      specialize (Hvals l eq_refl).
      eapply (codec_ok_seq S _ _ (fun _ => read_u16) _ (Z.of_nat (List.length l))).
      { apply (codec_ok_bytes S _ (index_bytes (List.length l))).
        - apply pack_u16_ok. lia.
        - intros rest. apply read_u16_index_bytes. lia. }
      cbn beta. rewrite Nat2Z.id.
      eapply codec_ok_map_eq; [reflexivity|].
      apply codec_ok_each, Forall_Forall2_diag, Forall_forall.
      intros entry Hentry. rewrite Forall_forall in Hchoices, Hvals.
      apply codec_ok_choice; [by apply Hchoices|by apply Hvals].
    + destruct (kv_val_list kv) as [l|] eqn:Hl.
      { destruct Hready as [(? & _)|(? & _)]; congruence. }
      apply codec_ok_nop.
Qed.

Lemma codec_ok_then {A B} w (r : list string → reader A)
    (k : list string → A → reader B) x y :
  codec_ok S w r x → (∀ inv file, k inv x file = Ok (y, file)) →
  codec_ok S w (fun inv => r inv ≫= k inv) y.
Proof.
  intros H Hk seen Hnd Hsub.
  destruct (H seen Hnd Hsub) as (seen' & bytes & ? & ? & ? & ? & Hr).
  exists seen', bytes. split_and!; try done.
  intros inv rest Hpre. unfold mbind, reader_bind. by rewrite Hr.
Qed.

Lemma codec_ok_IODef io :
  io_name io ∈ S →
  codec_ok S (IODef_serialise io) (fun inv => IODef_unserialise (lookup inv))
    (io_image io).
Proof.
  intros Hname.
  destruct (value_type_index (io_type io)) as (i & Hi & Hrange & Horder).
  unfold IODef_serialise, IODef_unserialise, io_image. rewrite Hi.
  eapply (codec_ok_seq S _ _ lookup _ (io_name io)); [by apply codec_ok_str|].
  cbn beta.
  eapply (codec_ok_then _ (fun _ => read_u8) _ i).
  - apply (codec_ok_bytes S _ [i]); [|done]. apply pack_u8_ok. lia.
  - intros inv file. unfold index_into. by rewrite Horder.
Qed.
End leaves.

(** ** Blocks of tagged records *)

Lemma w_seq_assoc (a b c : writer) dic :
  ((a ;;; b) ;;; c) dic = (a ;;; b ;;; c) dic.
Proof.
  unfold w_seq. destruct (a dic) as [[d1 x]|]; cbn; [|done].
  destruct (b d1) as [[d2 y]|]; cbn; [|done].
  destruct (c d2) as [[d3 z]|]; cbn; [|done]. by rewrite app_assoc.
Qed.

Lemma foldl_dict_set_fresh {K V} `{EqDecision K} (acc l : list (K * V)) :
  NoDup (acc ++ l).*1 →
  foldl (fun m (item : K * V) => dict_set m item.1 item.2) acc l = acc ++ l.
Proof.
  revert acc. induction l as [|[k v] l IH]; intros acc Hnd; cbn.
  - by rewrite app_nil_r.
  - rewrite dict_set_fresh.
    + rewrite IH; rewrite <- app_assoc; done.
    + apply dict_get_None. rewrite fmap_app in Hnd.
      apply NoDup_app in Hnd as (_ & Hdisj & _).
      intros Hk. apply (Hdisj k Hk). left.
Qed.

Section blocks.
Context (S : gset string).
Hypothesis S_fits : Z.of_nat (size S) <= 65536.

Lemma codec_ok_read {A} packed bytes w (r r' : list string → reader A) y :
  packed = Ok bytes →
  (∀ inv rest, r inv (bytes ++ rest) = r' inv rest) →
  codec_ok S w r' y → codec_ok S (w_bytes packed ;;; w) r y.
Proof.
  intros -> Hr H seen Hnd Hsub.
  destruct (H seen Hnd Hsub) as (seen' & back & Hw & ? & ? & ? & Hback).
  exists seen', (bytes ++ back). unfold w_seq, w_bytes. cbn. rewrite Hw. cbn.
  split_and!; try done.
  intros inv rest Hpre. rewrite <- app_assoc, Hr. by apply Hback.
Qed.

Lemma read_u8_bind {B} a file (k : Z → reader B) :
  (read_u8 ≫= k) (a :: file) = k a file.
Proof. done. Qed.

Lemma mret_bind_reader {A B} (x : A) (k : A → reader B) file :
  (mret x ≫= k) file = k x file.
Proof. done. Qed.

Section attrs.
Context {T : Type} (ser : T → writer) (unser : list string → reader T).
Context (image : T → T) (name_of : T → string).
Context (ready : T → Prop) (strs : T → list string).
Hypothesis name_of_image : ∀ x, name_of (image x) = name_of x.
Hypothesis ser_ok : ∀ x,
  ready x → (∀ s, s ∈ strs x → s ∈ S) → codec_ok S (ser x) unser (image x).

Lemma codec_ok_item (item : gset string * T) :
  Z.of_nat (size item.1) <= 255 → ready item.2 →
  (∀ s, s ∈ elements item.1 ++ strs item.2 → s ∈ S) →
  codec_ok S (write_tags item.1 ;;; ser item.2)
    (fun inv => tag ← read_tagset (lookup inv); obj ← unser inv; mret (tag, obj))
    (item.1, image item.2).
Proof.
  intros Hsz Hready Hin.
  eapply (codec_ok_seq S _ _ (fun inv => read_tagset (lookup inv)) _ item.1).
  { apply codec_ok_tags; [done..|]. intros t Ht. apply Hin.
    apply elem_of_app. left. by apply elem_of_elements. }
  cbn beta. eapply codec_ok_map_eq; [reflexivity|].
  apply ser_ok; [done|]. intros s Hs. apply Hin, elem_of_app. by right.
Qed.

Lemma codec_ok_items (tm : tag_map T) :
  Forall (fun item => Z.of_nat (size item.1) <= 255 ∧ ready item.2) tm →
  (∀ s, s ∈ tag_map_strings strs tm → s ∈ S) →
  codec_ok S (w_each (fun item => write_tags item.1 ;;; ser item.2) tm)
    (fun inv =>
       r_repeat (List.length tm)
         (tag ← read_tagset (lookup inv); obj ← unser inv; mret (tag, obj)))
    (tag_map_image image tm).
Proof.
  intros Hitems Hin. apply codec_ok_each. unfold tag_map_image.
  apply Forall2_fmap_r, Forall_Forall2_diag, Forall_forall.
  intros item Hitem. rewrite Forall_forall in Hitems.
  destruct (Hitems item Hitem) as [Hsz Hready].
  apply codec_ok_item; [done..|]. intros s Hs. apply Hin.
  unfold tag_map_strings. apply list_elem_of_bind. eauto.
Qed.

Lemma codec_ok_attr key (tm : tag_map T) :
  tag_map_ready ready tm → (∀ s, s ∈ tag_map_strings strs tm → s ∈ S) →
  codec_ok S (write_attr ser tm)
    (fun inv => read_attr (unser inv) name_of (lookup inv))
    (block_name name_of (key, tm), tag_map_image image tm).
Proof.
  intros (Hne & Hnd & Hlen & Hitems) Hin.
  assert (Htagged :
    codec_ok S
      (w_bytes (pack_u8 (Z.of_nat (List.length tm))) ;;;
       w_each (fun item => write_tags item.1 ;;; ser item.2) tm)
      (fun inv => read_attr (unser inv) name_of (lookup inv))
      (block_name name_of (key, tm), tag_map_image image tm)).
  { destruct tm as [|item rest]; [done|]. clear Hne.
    eapply codec_ok_read; [apply pack_u8_ok; lia| |].
    { intros inv file. unfold read_attr at 1. cbn [app].
      rewrite read_u8_bind. cbn [List.length].
      destruct (Z.eqb_spec (Z.of_nat (Datatypes.S (List.length rest))) 0) as [E|_]; [lia|].
      replace (Z.to_nat (Z.of_nat (Datatypes.S (List.length rest)) - 1))
        with (List.length rest) by lia.
      reflexivity. }
    cbn [w_each]. eapply codec_ok_wext; [intros dic; symmetry; apply w_seq_assoc|].
    assert (Hin_item : ∀ s, s ∈ elements item.1 ++ strs item.2 → s ∈ S).
    { intros s Hs. apply Hin. unfold tag_map_strings. cbn. apply elem_of_app. by left. }
    assert (Hin_rest : ∀ s, s ∈ tag_map_strings strs rest → s ∈ S).
    { intros s Hs. apply Hin. unfold tag_map_strings. cbn. apply elem_of_app. by right. }
    apply Forall_cons in Hitems as [[Hsz Hready] Hrest].
    eapply (codec_ok_seq S _ _ (fun inv => read_tagset (lookup inv)) _ item.1).
    { apply codec_ok_tags; [done..|]. intros t Ht. apply Hin_item.
      apply elem_of_app. left. by apply elem_of_elements. }
    cbn beta.
    eapply (codec_ok_seq S _ _ unser _ (image item.2)).
    { apply ser_ok; [done|]. intros s Hs. apply Hin_item, elem_of_app. by right. }
    cbn beta. eapply (codec_ok_map_eq S _ _ _ (tag_map_image image rest)).
    2:{ by apply codec_ok_items. }
    cbn beta. unfold block_name. cbn [snd]. rewrite name_of_image. f_equal.
    change (tag_map_image image (item :: rest))
      with ([(item.1, image item.2)] ++ tag_map_image image rest).
    symmetry. apply foldl_dict_set_fresh.
    change ([(item.1, image item.2)] ++ tag_map_image image rest)
      with (tag_map_image image (item :: rest)).
    unfold tag_map_image. by rewrite <- list_fmap_compose. }
  unfold write_attr. destruct tm as [|[tags value] [|item' rest]]; [done| |done].
  case_bool_decide as Htags; [|done]. subst tags.
  apply Forall_cons in Hitems as [[_ Hready] _].
  eapply codec_ok_read; [by apply pack_u8_ok| |].
  { intros inv file. unfold read_attr at 1. cbn [app]. rewrite read_u8_bind.
    cbn. reflexivity. }
  cbn beta. eapply codec_ok_map_eq.
  2:{ apply ser_ok; [done|]. intros s Hs. apply Hin.
      unfold tag_map_strings. cbn. rewrite app_nil_r. apply elem_of_app. by right. }
  cbn. by rewrite name_of_image.
Qed.

Lemma codec_ok_attrs (am : attr_map T) :
  attrs_ready ready name_of am → (∀ s, s ∈ attrs_strings strs am → s ∈ S) →
  codec_ok S (w_each (fun entry => write_attr ser entry.2) am)
    (fun inv =>
       read_attrs (Z.of_nat (List.length am)) (unser inv) name_of (lookup inv))
    (attrs_image image name_of am).
Proof.
  intros (Hlen & Hblocks & Hnd) Hin. unfold read_attrs. rewrite Nat2Z.id.
  eapply (codec_ok_map_eq S _ _ _ (attrs_image image name_of am)).
  - symmetry. apply (foldl_dict_set_fresh []). cbn [app].
    unfold attrs_image. by rewrite <- list_fmap_compose.
  - apply codec_ok_each. unfold attrs_image.
    apply Forall2_fmap_r, Forall_Forall2_diag, Forall_forall.
    intros [key tm] Hentry. rewrite Forall_forall in Hblocks.
    apply codec_ok_attr; [by apply (Hblocks (key, tm))|].
    intros s Hs. apply Hin. unfold attrs_strings. apply list_elem_of_bind. eauto.
Qed.
End attrs.

Lemma codec_ok_bases h (l : list base_ref) :
  Forall (fun base => is_ok (base_classname h base)) l →
  (∀ s, s ∈ base_name_of h <$> l → s ∈ S) →
  codec_ok S
    (w_each (fun base =>
        match base_classname h base with
        | Ok name => w_str name
        | Raise err => w_raise err
        end) l)
    (fun inv => r_repeat (List.length l) (lookup inv)) (base_name_of h <$> l).
Proof.
  intros Hok Hin. apply codec_ok_each.
  apply Forall2_fmap_r, Forall_Forall2_diag, Forall_forall.
  intros base Hbase. rewrite Forall_forall in Hok.
  specialize (Hok base Hbase).
  assert (Hs : base_name_of h base ∈ S).
  { apply Hin, list_elem_of_fmap. eauto. }
  unfold compose, base_name_of in *. cbn beta.
  destruct (base_classname h base); [|done].
  by apply codec_ok_str.
Qed.

Lemma codec_ok_EntityDef h e :
  ent_ready h e → (∀ s, s ∈ ent_strings h e → s ∈ S) →
  codec_ok S (EntityDef_serialise h e)
    (fun inv => EntityDef_unserialise (lookup inv)) (ent_wire h e).
Proof.
  intros (Hbases & Hnb & Hkv & Hinp & Hout) Hin.
  destruct (entity_type_index (ent_type e)) as (i & Hi & Hrange & Horder).
  destruct Hkv as (Hnkv & Hkv), Hinp as (Hninp & Hinp), Hout as (Hnout & Hout).
  unfold EntityDef_serialise. rewrite Hi.
  unfold ent_strings in Hin.
  eapply codec_ok_read.
  { unfold pack_ent_header. rewrite !pack_u8_ok by lia. reflexivity. }
  { intros inv file. unfold EntityDef_unserialise. cbn [app mbind result_bind].
    do 5 (rewrite read_u8_bind; cbn beta).
    unfold index_into. rewrite Horder, mret_bind_reader. rewrite Nat2Z.id.
    reflexivity. }
  cbn beta.
  eapply (codec_ok_seq S _ _ lookup _ (classname e)).
  { apply codec_ok_str; [done|]. apply Hin. left. }
  cbn beta.
  eapply (codec_ok_seq S _ _ (fun inv => r_repeat _ (lookup inv)) _ (base_names h e)).
  { apply codec_ok_bases; [done|]. intros s Hs. apply Hin. right.
    apply elem_of_app. by left. }
  cbn beta.
  eapply (codec_ok_seq S _ _ _ _ (attrs_image kv_image kv_name (keyvalues e))).
  { apply (codec_ok_attrs KeyValues_serialise
             (fun inv => KeyValues_unserialise (lookup inv)) kv_image kv_name
             kv_ready kv_strings); [done| |done|].
    - intros kv ??. by apply codec_ok_KeyValues.
    - intros s Hs. apply Hin. right. rewrite !elem_of_app. auto. }
  cbn beta.
  eapply (codec_ok_seq S _ _ _ _ (attrs_image io_image io_name (inputs e))).
  { apply (codec_ok_attrs IODef_serialise
             (fun inv => IODef_unserialise (lookup inv)) io_image io_name
             io_ready io_strings); [done| |done|].
    - intros io _ Hs. apply codec_ok_IODef; [done|]. apply Hs. left.
    - intros s Hs. apply Hin. right. rewrite !elem_of_app. auto. }
  cbn beta.
  eapply (codec_ok_map_eq S _ _ _ (attrs_image io_image io_name (outputs e)));
    [reflexivity|].
  apply (codec_ok_attrs IODef_serialise
           (fun inv => IODef_unserialise (lookup inv)) io_image io_name
           io_ready io_strings); [done| |done|].
  - intros io _ Hs. apply codec_ok_IODef; [done|]. apply Hs. left.
  - intros s Hs. apply Hin. right. rewrite !elem_of_app. auto.
Qed.
End blocks.

(** ** The dictionary block and the header *)

Lemma decode_utf8_utf8 s : decode_utf8 (utf8 s) = s.
Proof.
  unfold decode_utf8, utf8. rewrite <- list_fmap_compose.
  erewrite (list_fmap_ext _ id).
  - rewrite list_fmap_id. apply string_of_list_ascii_of_string.
  - intros i c _. cbn. by rewrite Nat2Z.id, ascii_nat_embedding.
Qed.

Lemma py_len_ascii s : is_ascii s → py_len s = Z.of_nat (List.length (utf8 s)).
Proof.
  unfold is_ascii, py_len. intros Hs. f_equal. f_equal.
  induction Hs as [|b l Hb Hl IH]; [done|].
  rewrite filter_cons_True by lia. by rewrite IH.
Qed.

Lemma read_string_ok s rest :
  str_ready s →
  ∃ bytes, write_string s = Ok bytes ∧ read_string (bytes ++ rest) = Ok (s, rest).
Proof.
  intros [Hascii Hlen]. unfold write_string.
  rewrite pack_u16_ok by (revert Hlen; unfold py_len; lia). cbn [mbind result_bind].
  eexists. split; [reflexivity|].
  rewrite py_len_ascii in * by done.
  set (n := List.length (utf8 s)) in *.
  unfold read_string. cbn [app]. unfold mbind at 1, reader_bind at 1. cbn [read_u16].
  replace (Z.of_nat n / 256 * 256 + Z.of_nat n mod 256) with (Z.of_nat n)
    by (pose proof (Z.div_mod (Z.of_nat n) 256); lia).
  unfold mbind, reader_bind, read_upto, mret, reader_ret. rewrite Nat2Z.id.
  subst n. by rewrite take_app_length, drop_app_length, decode_utf8_utf8.
Qed.

Lemma read_strings_ok l rest :
  Forall str_ready l →
  ∃ bytes, write_strings l = Ok bytes ∧
    r_repeat (List.length l) read_string (bytes ++ rest) = Ok (l, rest).
Proof.
  induction 1 as [|s l Hs Hl (back & Hback & Hread)].
  - by exists [].
  - cbn [write_strings List.length r_repeat].
    destruct (read_string_ok s (back ++ rest) Hs) as (front & Hfront & Hone).
    exists (front ++ back). rewrite Hfront, Hback. split; [done|].
    rewrite <- app_assoc. unfold mbind at 1, reader_bind at 1. rewrite Hone.
    unfold mbind at 1, reader_bind at 1. by rewrite Hread.
Qed.

Lemma inv_list_fold (pre suf : list string) :
  foldl (fun acc '(txt, ind) =>
      inv_list ← acc;
      if (0 <=? ind) && (ind <? Z.of_nat (List.length inv_list)) then
        Ok (<[Z.to_nat ind := txt]> inv_list)
      else Raise (IndexError "list assignment index out of range"))
    (Ok (pre ++ replicate (List.length suf) EmptyString))
    (imap (fun i s => (s, Z.of_nat (List.length pre + i))) suf)
  = Ok (pre ++ suf).
Proof.
  revert pre. induction suf as [|s suf IH]; intros pre; [done|].
  cbn [imap foldl List.length replicate mbind result_bind].
  rewrite Nat.add_0_r, length_app. cbn [List.length].
  destruct (Z.leb_spec 0 (Z.of_nat (List.length pre))); [|lia].
  destruct (Z.ltb_spec (Z.of_nat (List.length pre))
              (Z.of_nat (List.length pre + Datatypes.S (List.length (replicate (List.length suf) EmptyString)))));
    [|lia].
  cbn [andb]. rewrite Nat2Z.id, insert_app_r_alt, Nat.sub_diag by done.
  cbn [insert list_insert].
  specialize (IH (pre ++ [s])). rewrite <- !app_assoc in IH. cbn [app] in IH.
  rewrite <- IH. f_equal. apply imap_ext. intros i x _. cbn.
  rewrite length_app. cbn. do 2 f_equal. lia.
Qed.

Lemma BinStrDict_inv_list_ok seen : BinStrDict_inv_list (dict_of seen) = Ok seen.
Proof.
  unfold BinStrDict_inv_list, dict_of, numbered. cbn [_dict].
  rewrite length_imap. apply (inv_list_fold [] seen).
Qed.

Lemma read_u32_pack n rest :
  0 <= n <= 4294967295 →
  ∃ bytes, pack_u32 n = Ok bytes ∧ List.length bytes = 4%nat ∧
    read_u32 (bytes ++ rest) = Ok (n, rest).
Proof.
  intros Hn. unfold pack_u32.
  destruct (Z.leb_spec 0 n); [|lia]. destruct (Z.leb_spec n 4294967295); [|lia].
  eexists. split; [reflexivity|]. split; [done|]. cbn. do 2 f_equal.
  assert (E1 : n / 65536 = n / 256 / 256) by (by rewrite Z.div_div by lia).
  assert (E2 : n / 16777216 = n / 256 / 256 / 256) by (by rewrite !Z.div_div by lia).
  rewrite E1, E2.
  pose proof (Z.div_mod n 256). pose proof (Z.div_mod (n / 256) 256).
  pose proof (Z.div_mod (n / 256 / 256) 256). lia.
Qed.

Lemma BinStrDict_roundtrip seen rest :
  Z.of_nat (List.length seen) <= 65536 → Forall str_ready seen →
  ∃ bytes, BinStrDict_serialise (dict_of seen) = Ok bytes ∧
    BinStrDict_unserialise (bytes ++ rest) = Ok (seen, rest).
Proof.
  intros Hlen Hstrs. unfold BinStrDict_serialise, BinStrDict_unserialise.
  rewrite BinStrDict_inv_list_ok. cbn [mbind result_bind].
  destruct (read_strings_ok seen rest Hstrs) as (strs & Hstrs_w & Hstrs_r).
  destruct (read_u32_pack (Z.of_nat (List.length seen)) (strs ++ rest))
    as (count & Hcount_w & _ & Hcount_r); [lia|].
  exists (count ++ strs). rewrite Hcount_w, Hstrs_w. split; [done|].
  rewrite <- app_assoc. unfold mbind at 1, reader_bind at 1.
  by rewrite Hcount_r, Nat2Z.id.
Qed.

Lemma read_exactly_app n l rest :
  List.length l = n → read_exactly n (l ++ rest) = Ok (l, rest).
Proof.
  intros <-. unfold read_exactly. rewrite length_app.
  destruct (Nat.ltb_spec (List.length l + List.length rest) (List.length l)); [lia|].
  by rewrite take_app_length, drop_app_length.
Qed.



Lemma wires_length fgd h (ents : list (string * addr)) :
  Forall (entry_ready fgd h) ents →
  List.length (ents.*2 ≫= fun a => from_option (fun e => [ent_wire h e]) [] (h !! a))
  = List.length ents.
Proof.
  induction 1 as [|[key a] l (e & Hlook & _) _ IH]; [done|].
  cbn [snd] in Hlook. rewrite fmap_cons, bind_cons. cbn [snd].
  rewrite Hlook. cbn. by rewrite IH.
Qed.


(** ** Registering the entities read and resolving their bases *)











(** ** The round trip *)

(** When every base is in the database under its own class name,
    [_fix_missing_bases] changes nothing. *)
Lemma fix_missing_bases_registered fuel fgd h ent e :
  h !! ent = Some e → Forall (registered fgd h) (bases e) →
  fix_missing_bases (Datatypes.S fuel) fgd h ent = (fgd, h, None).
Proof.
  intros He Hreg. cbn [fix_missing_bases]. rewrite He.
  induction Hreg as [|base l (b & be & -> & Hbe & Hget) _ IH]; [done|].
  rewrite Hbe. unfold FGD_getitem at 1. rewrite Hget.
  rewrite decide_True by done. exact IH.
Qed.

Lemma fix_all_registered fuel fgd h ents :
  Forall (fun a => ∃ e, h !! a = Some e ∧ Forall (registered fgd h) (bases e)) ents →
  fix_all (Datatypes.S fuel) fgd h ents = (fgd, h, None).
Proof.
  induction 1 as [|a l (e & He & Hreg) _ IH]; [done|].
  cbn [fix_all]. by rewrite (fix_missing_bases_registered _ _ _ _ e).
Qed.

Lemma db_ready_fixed fuel fgd h :
  db_ready fgd h →
  fix_all (Datatypes.S fuel) fgd h (FGD_iter fgd) = (fgd, h, None).
Proof.
  intros (_ & _ & _ & Hents & _). apply fix_all_registered.
  unfold FGD_iter. apply Forall_fmap. eapply Forall_impl; [exact Hents|].
  intros [key a] (e & He & _ & _ & Hreg). by exists e.
Qed.


Ltac ready :=
  repeat first
    [ done | apply not_elem_of_nil | compute_done | (vm_compute; done) | constructor ].



(** * Further properties *)

(** ** The string dictionary *)

Lemma dict_get_set_eq {K V} `{EqDecision K} (d : list (K * V)) k v :
  dict_get (dict_set d k v) k = Some v.
Proof.
  induction d as [|[k' v'] d IH]; cbn.
  - by rewrite decide_True.
  - destruct (decide (k = k')) as [->|Hne]; cbn.
    + by rewrite decide_True.
    + by rewrite decide_False.
Qed.

Lemma dict_get_set_ne {K V} `{EqDecision K} (d : list (K * V)) k k' v :
  k' ≠ k → dict_get (dict_set d k v) k' = dict_get d k'.
Proof.
  intros Hne. induction d as [|[k0 v0] d IH]; cbn.
  - by rewrite decide_False.
  - destruct (decide (k = k0)) as [->|Hk]; cbn.
    + by rewrite !decide_False.
    + destruct (decide (k' = k0)); [done|]. exact IH.
Qed.

(** X1: once [BinStrDict.__call__] has returned the bytes of a string,
    asking for the same string again returns the same bytes and leaves
    the dictionary as it is; and the call has not changed the index of any
    string that was already entered. *)
Theorem BinStrDict_call_again (self self' : BinStrDict) (s : string) (bytes : list Z) :
  BinStrDict_call self s = (self', Ok bytes) →
  BinStrDict_call self' s = (self', Ok bytes) ∧
  ∀ t i, dict_get (_dict self) t = Some i → dict_get (_dict self') t = Some i.
Proof.
  unfold BinStrDict_call at 1.
  destruct (dict_get (_dict self) s) as [index|] eqn:Hget.
  - intros [= <- Hbytes]. split; [|done].
    unfold BinStrDict_call. by rewrite Hget, Hbytes.
  - destruct (cur_index self >? Z.shiftl 1 16); [done|].
    intros [= <- Hbytes]. split.
    + unfold BinStrDict_call. cbn [_dict]. by rewrite dict_get_set_eq, Hbytes.
    + intros t i Ht. cbn [_dict]. rewrite dict_get_set_ne; [done|].
      intros ->. congruence.
Qed.

Lemma BinStrDict_call_again_witness :
  BinStrDict_call (mkBinStrDict [("a", 0)] 1) "b"
    = (mkBinStrDict [("a", 0); ("b", 1)] 2, Ok [0; 1]) ∧
  BinStrDict_call (mkBinStrDict [("a", 0); ("b", 1)] 2) "b"
    = (mkBinStrDict [("a", 0); ("b", 1)] 2, Ok [0; 1]).
Proof.
  split; [reflexivity|].
  apply (BinStrDict_call_again (mkBinStrDict [("a", 0)] 1)). reflexivity.
Defined.

(** X2: the strings of a run of [BinStrDict.__call__] survive the
    dictionary block.  When the run has at most 65536 distinct strings,
    all ASCII and shorter than 65536 characters, [serialise] succeeds,
    [unserialise] reads the strings back in the order of their first
    occurrence and stops at the end of the block, and the [lookup]
    function it returns maps the bytes that [__call__] gave for each
    string of the run back to that string. *)
Theorem BinStrDict_block_roundtrip (strs : list string) :
  Forall str_ready strs →
  Z.of_nat (List.length (first_seen strs)) <= 65536 →
  ∃ dic outs block,
    register_all BinStrDict_init strs = (dic, Ok outs) ∧
    BinStrDict_serialise dic = Ok block ∧
    (∀ rest, BinStrDict_unserialise (block ++ rest) = Ok (first_seen strs, rest)) ∧
    Forall2 (fun s bytes =>
        ∀ rest, lookup (first_seen strs) (bytes ++ rest) = Ok (s, rest))
      strs outs.
Proof.
  intros Hstrs Hlen.
  destruct (register_all_run [] strs) as [Hrun _]; [constructor|cbn; lia|].
  destruct (Hrun Hlen) as (outs & Hreg & Hidx).
  assert (Hready : Forall str_ready (first_seen strs)).
  { apply Forall_forall. intros s Hs. unfold first_seen in Hs.
    apply first_seen_from_elem in Hs as [Hs|Hs]; [by apply elem_of_nil in Hs|].
    rewrite Forall_forall in Hstrs. by apply Hstrs. }
  destruct (BinStrDict_roundtrip (first_seen strs) [] Hlen Hready) as (block & Hser & _).
  exists (dict_of (first_seen strs)), outs, block. split_and!; try done.
  - intros rest.
    destruct (BinStrDict_roundtrip (first_seen strs) rest Hlen Hready)
      as (block' & Hser' & Hread).
    rewrite Hser in Hser'. by injection Hser' as <-.
  - eapply Forall2_impl; [exact Hidx|].
    intros s bytes (i & Hi & ->) rest. apply lookup_index_bytes; [done|].
    apply lookup_lt_Some in Hi. unfold first_seen in Hlen. lia.
Qed.

Lemma BinStrDict_block_roundtrip_witness :
  ∃ dic outs block,
    register_all BinStrDict_init ["b"; "a"; "b"] = (dic, Ok outs) ∧
    BinStrDict_serialise dic = Ok block ∧
    (∀ rest, BinStrDict_unserialise (block ++ rest)
             = Ok (first_seen ["b"; "a"; "b"], rest)) ∧
    Forall2 (fun s bytes =>
        ∀ rest, lookup (first_seen ["b"; "a"; "b"]) (bytes ++ rest) = Ok (s, rest))
      ["b"; "a"; "b"] outs.
Proof.
  apply (BinStrDict_block_roundtrip ["b"; "a"; "b"]).
  - unfold str_ready, is_ascii. repeat constructor; vm_compute; done.
  - vm_compute. done.
Defined.

(** ** Records on the wire *)

Lemma codec_ok_fresh {A} (S : gset string) (w : writer)
    (r : list string → reader A) (x : A) :
  codec_ok S w r x →
  ∃ dic bytes,
    w BinStrDict_init = Ok (dic, bytes) ∧
    ∀ inv rest, (_dict dic).*1 `prefix_of` inv → r inv (bytes ++ rest) = Ok (x, rest).
Proof.
  intros H. destruct (H [] NoDup_nil_2) as (seen & bytes & Hw & _ & _ & _ & Hr).
  { intros s Hs. by apply elem_of_nil in Hs. }
  exists (dict_of seen), bytes. split; [exact Hw|].
  intros inv rest Hpre. apply Hr. unfold dict_of in Hpre. cbn [_dict] in Hpre.
  by rewrite numbered_fst in Hpre.
Qed.



(** X4: [KeyValues.unserialise] reads back what [KeyValues.serialise]
    wrote, up to what the format drops.  For a record whose value list is
    present exactly for choices and spawnflags, in the two- and
    three-field shapes with at most 65535 choices or 255 flags (each a
    power of two below 2^128), the bytes are read back as the record with
    its description emptied, [readonly] replaced by the bit 128 or 0, and
    the default emptied when the type is spawnflags. *)
Theorem KeyValues_roundtrip (kv : KeyValues) :
  kv_ready kv →
  Z.of_nat (size (list_to_set (C := gset string) (kv_strings kv))) <= 65536 →
  ∃ dic bytes,
    KeyValues_serialise kv BinStrDict_init = Ok (dic, bytes) ∧
    ∀ inv rest, (_dict dic).*1 `prefix_of` inv →
      KeyValues_unserialise (lookup inv) (bytes ++ rest) = Ok (kv_image kv, rest).
Proof.
  intros Hready Hsize.
  apply (codec_ok_fresh (list_to_set (kv_strings kv)) (KeyValues_serialise kv)
           (fun inv => KeyValues_unserialise (lookup inv))).
  apply codec_ok_KeyValues; [done..|].
  intros s Hs. by apply elem_of_list_to_set.
Qed.

Lemma KeyValues_roundtrip_witness :
  ∃ dic bytes,
    KeyValues_serialise untagged_spawnflags BinStrDict_init = Ok (dic, bytes) ∧
    ∀ inv rest, (_dict dic).*1 `prefix_of` inv →
      KeyValues_unserialise (lookup inv) (bytes ++ rest)
      = Ok (kv_image untagged_spawnflags, rest).
Proof.
  apply (KeyValues_roundtrip untagged_spawnflags).
  - left. split_and!; [done|vm_compute; done|].
    repeat constructor.
    + exists 0, "One", true. by split.
    + exists 1, "Two", false. by split.
  - vm_compute. done.
Defined.

(** X5: every [IODef] survives [serialise] followed by [unserialise] with
    its name and type; the description comes back empty. *)
Theorem IODef_roundtrip (io : IODef) :
  ∃ dic bytes,
    IODef_serialise io BinStrDict_init = Ok (dic, bytes) ∧
    ∀ inv rest, (_dict dic).*1 `prefix_of` inv →
      IODef_unserialise (lookup inv) (bytes ++ rest) = Ok (io_image io, rest).
Proof.
  apply (codec_ok_fresh {[ io_name io ]} (IODef_serialise io)
           (fun inv => IODef_unserialise (lookup inv))).
  apply codec_ok_IODef; [|set_solver].
  rewrite size_singleton. done.
Qed.

(** X6: [EntityDef.unserialise] reads back what [EntityDef.serialise]
    wrote: the type, the class name, the keyvalue, input and output maps
    as their records read back, each block stored under the name of its
    first record, and the bases as the class names of the base entities
    (to be resolved by [apply_bases]); helpers, keyvalue order and
    description come back empty.  The entity must fit the format: at most
    255 bases, names per map, tag sets per name and tags per set, no empty
    tag map, record names that differ between blocks. *)
Theorem EntityDef_roundtrip (h : heap) (e : EntityDef) :
  ent_ready h e →
  Z.of_nat (size (list_to_set (C := gset string) (ent_strings h e))) <= 65536 →
  ∃ dic bytes,
    EntityDef_serialise h e BinStrDict_init = Ok (dic, bytes) ∧
    ∀ inv rest, (_dict dic).*1 `prefix_of` inv →
      EntityDef_unserialise (lookup inv) (bytes ++ rest) = Ok (ent_wire h e, rest).
Proof.
  intros Hready Hsize.
  apply (codec_ok_fresh (list_to_set (ent_strings h e)) (EntityDef_serialise h e)
           (fun inv => EntityDef_unserialise (lookup inv))).
  apply codec_ok_EntityDef; [done..|].
  intros s Hs. by apply elem_of_list_to_set.
Qed.

Lemma EntityDef_roundtrip_witness :
  ∃ dic bytes,
    EntityDef_serialise example_heap my_ent_def BinStrDict_init = Ok (dic, bytes) ∧
    ∀ inv rest, (_dict dic).*1 `prefix_of` inv →
      EntityDef_unserialise (lookup inv) (bytes ++ rest)
      = Ok (ent_wire example_heap my_ent_def, rest).
Proof.
  apply (EntityDef_roundtrip example_heap my_ent_def).
  - unfold ent_ready, attrs_ready, tag_map_ready, kv_ready, io_ready.
    split_and!; ready.
  - vm_compute. done.
Defined.

(** X7: the type byte of a keyvalue is lossless.  Every value type has an
    index below 127 in [VALUE_TYPE_INDEX]; with or without the readonly
    bit 128 the byte fits [0, 255], its low seven bits select the same
    type in [VALUE_TYPE_ORDER], and its high bit is set exactly when the
    record is readonly.  Every entity type has a one-byte index that
    selects it in [ENTITY_TYPE_ORDER]. *)
Theorem type_byte_lossless :
  (∀ (t : ValueTypes.t) (readonly : bool),
     ∃ i, dict_get VALUE_TYPE_INDEX t = Some i ∧
       let byte := if readonly then Z.lor i 128 else i in
       0 <= byte <= 255 ∧
       VALUE_TYPE_ORDER !! Z.to_nat (Z.land byte 127) = Some t ∧
       (Z.land byte 128 ≠ 0 ↔ readonly = true)) ∧
  (∀ t : EntityTypes.t,
     ∃ i, dict_get ENTITY_TYPE_INDEX t = Some i ∧ 0 <= i <= 255 ∧
          ENTITY_TYPE_ORDER !! Z.to_nat i = Some t).
Proof.
  split; [|apply entity_type_index].
  intros t readonly. destruct (value_type_index t) as (i & Hi & Hrange & Horder).
  exists i. split; [done|].
  destruct (seven_bits i) as (Hlor & H1 & H2 & H3 & H4); [lia|].
  destruct readonly; cbn zeta.
  - rewrite Hlor, H1, H2. split_and!; [lia..|done|]. split; [done|lia].
  - rewrite H3, H4. split_and!; [lia..|done|]. split; [done|done].
Qed.

(** ** Copies *)

Lemma py_eq_refl x : py_eq x x = true.
Proof.
  destruct x; cbn.
  - apply Z.eqb_refl.
  - apply String.eqb_refl.
  - by destruct b.
  - by apply bool_decide_eq_true.
Qed.

Lemma py_tuple_eq_refl x : py_tuple_eq x x = true.
Proof. induction x as [|a x IH]; [done|]. cbn. by rewrite py_eq_refl, IH. Qed.

Lemma py_list_eq_refl x : py_list_eq x x = true.
Proof. induction x as [|a x IH]; [done|]. cbn. by rewrite py_tuple_eq_refl, IH. Qed.

(** X8: [KeyValues.copy] gives a record that [==] the original, except
    when the original has an empty value list: [copy] then stores [None]
    (its test is the truth of the list), and the two compare unequal.  An
    [IODef] always equals its copy. *)
Theorem copy_eq :
  (∀ kv : KeyValues,
     KeyValues_eq (KeyValues_copy kv) kv
     = negb (bool_decide (kv_val_list kv = Some []))) ∧
  (∀ io : IODef, IODef_eq (IODef_copy io) io = true).
Proof.
  split.
  - intros [name type disp dflt desc val_list readonly].
    unfold KeyValues_eq, KeyValues_copy. cbn.
    rewrite !String.eqb_refl, py_eq_refl, bool_decide_eq_true_2 by done. cbn.
    destruct val_list as [[|entry l]|]; cbn; [done| |done].
    by rewrite py_tuple_eq_refl, py_list_eq_refl.
  - intros [name type desc]. unfold IODef_eq, IODef_copy. cbn.
    by rewrite !String.eqb_refl, bool_decide_eq_true_2.
Qed.

(** ** FGD.apply_bases *)

Lemma resolve_bases_resolved fgd cn l acc :
  Forall is_BaseEnt l → resolve_bases fgd cn l acc = (acc ++ l, None).
Proof.
  intros H. revert acc. induction H as [|[s|b] l Hb _ IH]; intros acc; cbn.
  - by rewrite app_nil_r.
  - done.
  - rewrite IH, <- app_assoc. done.
Qed.

Lemma resolve_bases_success fgd cn l acc new_bases :
  resolve_bases fgd cn l acc = (new_bases, None) →
  Forall is_BaseEnt acc → Forall is_BaseEnt new_bases.
Proof.
  revert acc. induction l as [|[s|b] l IH]; intros acc; cbn.
  - by intros [= <-].
  - destruct (FGD_getitem fgd s) as [b|]; [|done].
    intros H Hacc. apply (IH _ H). apply Forall_app. by repeat constructor.
  - intros H Hacc. apply (IH _ H). apply Forall_app. by repeat constructor.
Qed.

Lemma set_bases_same e : set_bases (bases e) e = e.
Proof. by destruct e. Qed.

Lemma apply_bases_loop_resolved fgd h ents :
  Forall (fun a => ∃ e, h !! a = Some e ∧ Forall is_BaseEnt (bases e)) ents →
  apply_bases_loop fgd h ents = (h, None).
Proof.
  induction 1 as [|a ents (e & He & Hres) _ IH]; [done|].
  cbn [apply_bases_loop]. rewrite He, resolve_bases_resolved by done. cbn [app].
  by rewrite set_bases_same, insert_id.
Qed.

Lemma apply_bases_loop_success fgd h ents h' :
  apply_bases_loop fgd h ents = (h', None) →
  Forall (fun a => ∃ e, h' !! a = Some e ∧ Forall is_BaseEnt (bases e)) ents ∧
  (∀ a e, h !! a = Some e → Forall is_BaseEnt (bases e) → h' !! a = Some e).
Proof.
  revert h. induction ents as [|ent ents IH]; intros h; cbn [apply_bases_loop].
  - intros [= <-]. split; [constructor|done].
  - destruct (h !! ent) as [e|] eqn:He; [|done].
    destruct (resolve_bases fgd (classname e) (bases e) []) as [new_bases err] eqn:Hres.
    destruct err as [err|]; [done|]. intros Hloop.
    destruct (IH _ Hloop) as [Hents Hkeep].
    pose proof (resolve_bases_success _ _ _ _ _ Hres (Forall_nil_2 _)) as Hnew.
    split.
    + constructor; [|done]. exists (set_bases new_bases e). split; [|done].
      apply Hkeep; [apply lookup_insert_eq|done].
    + intros a e0 Ha He0. apply Hkeep; [|done].
      destruct (decide (a = ent)) as [->|Hne].
      * rewrite He in Ha. injection Ha as <-.
        rewrite resolve_bases_resolved in Hres by done. injection Hres as <-.
        cbn [app]. rewrite set_bases_same. apply lookup_insert_eq.
      * by rewrite lookup_insert_ne.
Qed.

(** X9: when [FGD.apply_bases] returns, every entity of the database has
    only entity objects as bases, and applying the bases a second time
    changes nothing. *)
Theorem apply_bases_idempotent (fgd : FGD) (h h' : heap) :
  FGD_apply_bases fgd h = (h', None) →
  Forall (fun a => ∃ e, h' !! a = Some e ∧ Forall is_BaseEnt (bases e)) (FGD_iter fgd) ∧
  FGD_apply_bases fgd h' = (h', None).
Proof.
  unfold FGD_apply_bases. intros H.
  destruct (apply_bases_loop_success _ _ _ _ H) as [Hents _].
  split; [done|]. by apply apply_bases_loop_resolved.
Qed.

Lemma apply_bases_idempotent_witness :
  Forall (fun a => ∃ e, example_heap !! a = Some e ∧ Forall is_BaseEnt (bases e))
    (FGD_iter example_fgd) ∧
  FGD_apply_bases example_fgd example_heap = (example_heap, None).
Proof.
  apply (apply_bases_idempotent example_fgd unlinked_heap example_heap).
  vm_compute. reflexivity.
Defined.

Lemma resolve_bases_app fgd cn l1 l2 acc :
  resolve_bases fgd cn (l1 ++ l2) acc =
    match resolve_bases fgd cn l1 acc with
    | (new_bases, None) => resolve_bases fgd cn l2 new_bases
    | failed => failed
    end.
Proof.
  revert acc. induction l1 as [|[s|b] l1 IH]; intros acc; cbn; [done| |done].
  by destruct (FGD_getitem fgd s).
Qed.

Lemma apply_bases_loop_app fgd h l1 l2 :
  apply_bases_loop fgd h (l1 ++ l2) =
    match apply_bases_loop fgd h l1 with
    | (h1, None) => apply_bases_loop fgd h1 l2
    | failed => failed
    end.
Proof.
  revert h. induction l1 as [|a l1 IH]; intros h; cbn; [done|].
  destruct (h !! a) as [e|]; [|done].
  destruct (resolve_bases fgd (classname e) (bases e) []) as [nb [err|]]; [done|].
  apply IH.
Qed.

(** X10: [FGD.apply_bases] stops at the first base name that is not a
    class of the database and raises [ValueError].  The entities visited
    before keep their resolved bases; the entity with the unknown name is
    left with the bases resolved so far only: the unknown name and every
    base listed after it are gone from its base list. *)
Theorem apply_bases_unknown_base (fgd : FGD) (h h1 : heap) (visited later : list addr)
    (ent : addr) (e : EntityDef) (pre post new_bases : list base_ref) (base : string) :
  FGD_iter fgd = visited ++ ent :: later →
  apply_bases_loop fgd h visited = (h1, None) →
  h1 !! ent = Some e →
  bases e = pre ++ BaseName base :: post →
  resolve_bases fgd (classname e) pre [] = (new_bases, None) →
  dict_get (entities fgd) (casefold base) = None →
  FGD_apply_bases fgd h =
    (<[ent := set_bases new_bases e]> h1,
     Some (ValueError ("Unknown base (" +:+ base +:+ ") for " +:+ classname e))).
Proof.
  intros Hiter Hvisited He Hbases Hpre Hbase.
  unfold FGD_apply_bases. rewrite Hiter, apply_bases_loop_app, Hvisited.
  cbn [apply_bases_loop]. rewrite He, Hbases, resolve_bases_app, Hpre.
  cbn [resolve_bases]. unfold FGD_getitem. by rewrite Hbase.
Qed.

Lemma apply_bases_unknown_base_witness :
  FGD_apply_bases orphan_fgd orphan_heap =
    (<[3%positive := set_bases [BaseEnt Base1_addr] orphan_def]> orphan_heap,
     Some (ValueError "Unknown base (Missing) for orphan")).
Proof.
  apply (apply_bases_unknown_base orphan_fgd orphan_heap orphan_heap
           [my_ent_addr; Base1_addr] [] 3%positive orphan_def
           [BaseName "Base1"] [BaseName "Base1"] [BaseEnt Base1_addr] "Missing");
    vm_compute; reflexivity.
Defined.

(** ** FGD._fix_missing_bases *)

(** X11: when every base of every entity is an entity that the database
    holds under its own class name, the repair that [FGD.serialise] runs
    first changes neither the database nor any entity, and [serialise]
    writes the database as it stands. *)
Theorem fix_missing_bases_noop (fuel : nat) (fgd : FGD) (h : heap) :
  Forall (fun a => ∃ e, h !! a = Some e ∧ Forall (registered fgd h) (bases e))
    (FGD_iter fgd) →
  fix_all (Datatypes.S fuel) fgd h (FGD_iter fgd) = (fgd, h, None) ∧
  FGD_serialise (Datatypes.S fuel) fgd h = (fgd, h, FGD_encode fgd h).
Proof.
  intros H. pose proof (fix_all_registered fuel fgd h _ H) as Hfix.
  split; [done|]. unfold FGD_serialise. by rewrite Hfix.
Qed.

Lemma fix_missing_bases_noop_witness :
  fix_all 1 example_fgd example_heap (FGD_iter example_fgd)
    = (example_fgd, example_heap, None) ∧
  FGD_serialise 1 example_fgd example_heap
    = (example_fgd, example_heap, FGD_encode example_fgd example_heap).
Proof.
  apply (fix_missing_bases_noop 0 example_fgd example_heap).
  repeat constructor.
  - exists my_ent_def. split; [reflexivity|].
    repeat constructor. exists Base1_addr, Base1_def. by split_and!.
  - exists Base1_def. split; [reflexivity|]. constructor.
Defined.

(** X12: [_fix_missing_bases] cannot repair a base whose class name is
    not in the database at all: its test [self[base.classname] is base]
    raises [KeyError] for such a base, after the bases before it were
    passed over, and nothing has been changed. *)
Theorem fix_missing_bases_absent (fuel : nat) (fgd : FGD) (h : heap) (ent b : addr)
    (e be : EntityDef) (pre post : list base_ref) :
  h !! ent = Some e →
  bases e = pre ++ BaseEnt b :: post →
  Forall (registered fgd h) pre →
  h !! b = Some be →
  dict_get (entities fgd) (casefold (classname be)) = None →
  fix_missing_bases (Datatypes.S fuel) fgd h ent
    = (fgd, h, Some (KeyError ("No class " +:+ classname be))).
Proof.
  intros He Hbases Hpre Hbe Hget. cbn [fix_missing_bases]. rewrite He, Hbases.
  clear He Hbases.
  induction Hpre as [|base l (b' & be' & -> & Hbe' & Hget') _ IH]; cbn [app].
  - rewrite Hbe. unfold FGD_getitem. by rewrite Hget.
  - rewrite Hbe'. unfold FGD_getitem at 1. rewrite Hget'.
    rewrite decide_True by done. exact IH.
Qed.

Lemma fix_missing_bases_absent_witness :
  fix_missing_bases 1 (mkFGD [("my_ent", my_ent_addr)] (NInt 0) (NInt 0))
    example_heap my_ent_addr
  = (mkFGD [("my_ent", my_ent_addr)] (NInt 0) (NInt 0), example_heap,
     Some (KeyError "No class Base1")).
Proof.
  apply (fix_missing_bases_absent 0 _ example_heap my_ent_addr Base1_addr
           my_ent_def Base1_def [] []); try reflexivity. constructor.
Defined.




(** ** FGD.collapse_bases in a good order *)

Lemma check_bases_all_done done deferred ready bs :
  (∀ b, b ∈ bs → ∃ b', b = BaseEnt b' ∧ b' ∈ done) →
  check_bases done deferred ready bs = Ok (deferred, ready).
Proof.
  induction bs as [|b bs IH]; intros Hbs; [done|].
  destruct (Hbs b) as (b' & -> & Hb'); [left|].
  cbn [check_bases]. rewrite bool_decide_eq_true_2 by done.
  apply IH. intros x Hx. apply Hbs. by right.
Qed.

Lemma collapse_pass_bases_first (h0 : heap) (rest visited : list addr) (st : pass_state) :
  ps_deferred st = ∅ →
  (∀ a, a ∈ visited → a ∈ ps_done st) →
  bases_resolved (ps_heap st) → val_lists_present (ps_heap st) →
  dom (ps_heap st) = dom h0 →
  (∀ a, a ∉ visited → ps_heap st !! a = h0 !! a) →
  (∀ a, a ∈ visited → ∃ e, ps_heap st !! a = Some e ∧ bases e = []) →
  (∀ a, a ∈ rest → is_Some (h0 !! a)) →
  bases_first h0 visited rest →
  ∃ st',
    collapse_pass st rest = (st', None) ∧ ps_deferred st' = ∅ ∧
    dom (ps_heap st') = dom h0 ∧
    (∀ a, a ∈ visited ∨ a ∈ rest → ∃ e, ps_heap st' !! a = Some e ∧ bases e = []) ∧
    (∀ a, a ∉ visited → a ∉ rest → ps_heap st' !! a = h0 !! a).
Proof.
  revert visited st.
  induction rest as [|a rest IH];
    intros visited st Hdef Hdone Hres Hvl Hdom Hsame Hvis Hstored Hfirst.
  - exists st. cbn. split_and!; try done.
    + intros a [Ha|Ha]; [by apply Hvis|by apply elem_of_nil in Ha].
    + intros a Ha _. by apply Hsame.
  - destruct Hfirst as [Hbefore Hfirst].
    destruct st as [h done deferred]. cbn [ps_heap ps_done ps_deferred] in *. subst deferred.
    assert (Hstep : ∃ h1,
      collapse_visit (mkPass h done ∅) a = (mkPass h1 ({[a]} ∪ done) ∅, None) ∧
      bases_resolved h1 ∧ val_lists_present h1 ∧ dom h1 = dom h0 ∧
      (∀ x, x ≠ a → h1 !! x = h !! x) ∧
      (∃ e, h1 !! a = Some e ∧ bases e = [])).
    { assert (is_Some (h !! a)) as [e He].
      { apply elem_of_dom. rewrite Hdom. apply elem_of_dom, Hstored. left. }
      unfold collapse_visit. cbn [ps_heap ps_done ps_deferred]. rewrite He.
      case_bool_decide as Hb.
      { exists h. split_and!; try done. by exists e. }
      assert (Hnew : a ∉ visited).
      { intros Ha. destruct (Hvis a Ha) as (e' & He' & Hb'). congruence. }
      rewrite check_bases_all_done.
      2:{ intros b Hin. destruct (Hres a e He b Hin) as (b' & -> & _).
          exists b'. split; [done|]. apply Hdone.
          apply (Hbefore e b'); [|done]. by rewrite <- Hsame. }
      destruct (collapse_ent_ok h a e Hvl Hres He) as (e' & Heq & Hb' & Hkv').
      rewrite Heq. exists (<[a := e']> h). split_and!; try done.
      - intros x ex Hx y Hy. destruct (decide (x = a)) as [->|Hne].
        + rewrite lookup_insert_eq in Hx. injection Hx as <-.
          rewrite Hb' in Hy. by apply elem_of_nil in Hy.
        + rewrite lookup_insert_ne in Hx by done.
          destruct (Hres x ex Hx y Hy) as (b' & -> & Hsome).
          exists b'. split; [done|].
          destruct (decide (b' = a)) as [->|Hne'].
          * rewrite lookup_insert_eq. by eexists.
          * by rewrite lookup_insert_ne.
      - intros x ex Hx. destruct (decide (x = a)) as [->|Hne].
        + rewrite lookup_insert_eq in Hx. by injection Hx as <-.
        + rewrite lookup_insert_ne in Hx by done. by eapply Hvl.
      - rewrite dom_insert_L. apply elem_of_dom_2 in He. set_solver.
      - intros x Hx. by rewrite lookup_insert_ne.
      - exists e'. split; [apply lookup_insert_eq|done]. }
    destruct Hstep as (h1 & Hvisit & Hres1 & Hvl1 & Hdom1 & Hother & Ha).
    destruct (IH (a :: visited) (mkPass h1 ({[a]} ∪ done) ∅))
      as (st' & Hpass & Hdef' & Hdom' & Hall & Hrest); cbn [ps_heap ps_done ps_deferred];
      try done.
    + intros x Hx. apply elem_of_cons in Hx as [->|Hx]; [set_solver|].
      apply elem_of_union_r. by apply Hdone.
    + intros x Hx. apply not_elem_of_cons in Hx as [Hne Hx].
      rewrite Hother by done. by apply Hsame.
    + intros x Hx. apply elem_of_cons in Hx as [->|Hx]; [done|].
      destruct (decide (x = a)) as [->|Hne]; [done|].
      rewrite Hother by done. by apply Hvis.
    + intros x Hx. apply Hstored. by right.
    + exists st'. cbn [collapse_pass]. rewrite Hvisit. split_and!; try done.
      * intros x [Hx|Hx]; apply Hall.
        -- left. by right.
        -- apply elem_of_cons in Hx as [->|Hx]; [left; left|by right].
      * intros x Hx Hx'. apply not_elem_of_cons in Hx' as [Hne Hx'].
        apply Hrest; [|done]. apply not_elem_of_cons. by split.
Qed.

(** X14: when the set [todo] is iterated in an order that has every
    entity after its bases, [collapse_bases] needs one pass: it returns
    without error, every entity of the database ends with an empty base
    list, and no object is added to or removed from the store.  (The
    bases must be stored entities and list-typed keyvalues must carry
    their lists, as [apply_bases] and the parser leave them.) *)
Theorem collapse_bases_bases_first (fuel : nat) (set_order : gset addr → list addr)
    (fgd : FGD) (h : heap) :
  let order := set_order (list_to_set (FGD_iter fgd)) in
  (∀ a, a ∈ order ↔ a ∈ FGD_iter fgd) →
  (∀ a, a ∈ order → is_Some (h !! a)) →
  bases_resolved h → val_lists_present h →
  bases_first h [] order →
  ∃ h',
    FGD_collapse_bases (Datatypes.S (Datatypes.S fuel)) set_order fgd h = (h', None) ∧
    dom h' = dom h ∧
    ∀ a, a ∈ FGD_iter fgd → ∃ e, h' !! a = Some e ∧ bases e = [].
Proof.
  intros order Horder Hstored Hres Hvl Hfirst.
  unfold FGD_collapse_bases. cbn [collapse_loop]. fold order.
  case_bool_decide as Hempty.
  - exists h. split_and!; try done. intros a Ha.
    assert (a ∈ (list_to_set (FGD_iter fgd) : gset addr)) as Hin
      by by apply elem_of_list_to_set.
    rewrite Hempty in Hin. set_solver.
  - destruct (collapse_pass_bases_first h order [] (mkPass h ∅ ∅))
      as (st' & Hpass & Hdef & Hdom & Hall & _); cbn [ps_heap ps_done ps_deferred];
      try done.
    { intros a Ha. by apply elem_of_nil in Ha. }
    { intros a Ha. by apply elem_of_nil in Ha. }
    rewrite Hpass, Hdef. rewrite bool_decide_eq_false_2 by done.
    rewrite bool_decide_eq_true_2 by done.
    exists (ps_heap st'). split_and!; try done.
    intros a Ha. apply Hall. right. by apply Horder.
Qed.

Lemma collapse_bases_bases_first_witness :
  ∃ h',
    FGD_collapse_bases 2 (visit_in [Base1_addr; my_ent_addr]) example_fgd example_heap
      = (h', None) ∧
    dom h' = dom example_heap ∧
    ∀ a, a ∈ FGD_iter example_fgd → ∃ e, h' !! a = Some e ∧ bases e = [].
Proof.
  apply (collapse_bases_bases_first 0 (visit_in [Base1_addr; my_ent_addr])
           example_fgd example_heap).
  - intros a. vm_compute visit_in. cbn. set_solver.
  - intros a Ha. vm_compute in Ha.
    apply elem_of_cons in Ha as [->|Ha]; [by eexists|].
    apply list_elem_of_singleton in Ha as ->. by eexists.
  - intros a e Ha b Hb. unfold example_heap in Ha.
    apply lookup_insert_Some in Ha as [[<- <-]|[_ Ha]].
    { by apply elem_of_nil in Hb. }
    apply lookup_insert_Some in Ha as [[<- <-]|[_ Ha]]; [|done].
    apply list_elem_of_singleton in Hb as ->.
    exists Base1_addr. split; [done|]. by eexists.
  - intros a e Ha. unfold example_heap in Ha.
    apply lookup_insert_Some in Ha as [[<- <-]|[_ Ha]].
    { repeat constructor. intros H. by vm_compute in H. }
    apply lookup_insert_Some in Ha as [[<- <-]|[_ Ha]]; [|done].
    repeat constructor. intros H. by vm_compute in H.
  - vm_compute visit_in. cbn. split_and!; try done.
    + intros e b He Hb. vm_compute in He. injection He as <-.
      by apply elem_of_nil in Hb.
    + intros e b He Hb. vm_compute in He. injection He as <-.
      apply list_elem_of_singleton in Hb. injection Hb as ->. left.
Defined.

(** ** EntityDef.strip_tags *)

Lemma dict_set_middle {K V} `{EqDecision K} (d1 d2 : list (K * V)) k v v' :
  k ∉ d1.*1 → dict_set (d1 ++ (k, v) :: d2) k v' = d1 ++ (k, v') :: d2.
Proof.
  induction d1 as [|[k0 v0] d1 IH]; cbn; intros Hk.
  - by rewrite decide_True.
  - apply not_elem_of_cons in Hk as [Hne Hk]. rewrite decide_False by done.
    by rewrite IH.
Qed.

Lemma dict_del_middle {K V} `{EqDecision K} (d1 d2 : list (K * V)) k v :
  k ∉ d1.*1 → dict_del (d1 ++ (k, v) :: d2) k = d1 ++ d2.
Proof.
  induction d1 as [|[k0 v0] d1 IH]; cbn; intros Hk.
  - by rewrite decide_True.
  - apply not_elem_of_cons in Hk as [Hne Hk]. rewrite decide_False by done.
    by rewrite IH.
Qed.

Lemma strip_entries_kept {T} (f : T → result T) tags entries out :
  strip_entries f tags entries = Ok out →
  out.*1 = (filter (fun entry => is_Some (first_match tags entry.2)) entries).*1 ∧
  Forall (fun entry => ∃ v0 v, entry.2 = [(∅, v)] ∧ f v0 = Ok v) out.
Proof.
  unfold attr_map in *.
  revert out. induction entries as [|[key tm] rest IH]; intros out; cbn [strip_entries].
  - intros [= <-]. split; [done|constructor].
  - destruct (first_match tags tm) as [value|] eqn:Hfirst.
    + destruct (f value) as [value'|] eqn:Hf; [|done]. cbn [mbind result_bind].
      destruct (strip_entries f tags rest) as [rest'|]; [|done]. cbn [mbind result_bind].
      intros [= <-]. destruct (IH rest' eq_refl) as [Hkeys Hall].
      rewrite filter_cons_True by (cbn [snd]; rewrite Hfirst; by eexists).
      split; [cbn; by rewrite Hkeys|]. constructor; [by eexists _, _|done].
    + intros H. destruct (IH out H) as [Hkeys Hall]. split; [|done].
      rewrite filter_cons_False; [done|]. cbn [snd]. rewrite Hfirst. by intros [? ?].
Qed.

Lemma strip_category_entries {T} (f : T → result T) tags (category : attr_map T) :
  NoDup category.*1 →
  strip_category f tags category = strip_entries f tags category.
Proof.
  intros Hnd. unfold strip_category.
  assert (Hgen : ∀ (kept todo : attr_map T),
    NoDup (kept ++ todo).*1 →
    foldl (fun acc '(key, tag_map) =>
        category ← acc;
        match first_match tags tag_map with
        | Some value => value ← f value; Ok (dict_set category key [(∅, value)])
        | None => Ok (dict_del category key)
        end) (Ok (kept ++ todo)) todo
    = rest ← strip_entries f tags todo; Ok (kept ++ rest)).
  { intros kept todo. revert kept.
    induction todo as [|[key tm] rest IH]; intros kept Hk; [done|].
    assert (Hfresh : key ∉ kept.*1).
    { rewrite fmap_app in Hk. apply NoDup_app in Hk as (_ & Hdisj & _).
      intros Hin. apply (Hdisj key Hin). left. }
    cbn [foldl strip_entries mbind result_bind].
    destruct (first_match tags tm) as [value|].
    - destruct (f value) as [value'|err]; cbn [mbind result_bind].
      + rewrite dict_set_middle by done.
        change (kept ++ (key, [(∅, value')]) :: rest)
          with (kept ++ [(key, [(∅, value')])] ++ rest).
        rewrite app_assoc, IH.
        * destruct (strip_entries f tags rest); cbn; [|done].
          by rewrite <- app_assoc.
        * rewrite <- app_assoc. cbn.
          rewrite !fmap_app in *. cbn in *. done.
      + clear. induction rest as [|[k t] rest IH]; [done|]. exact IH.
    - rewrite dict_del_middle by done. apply IH.
      rewrite !fmap_app in *. cbn in Hk.
      apply NoDup_app in Hk as (H1 & H2 & H3). apply NoDup_cons in H3 as [_ H3].
      apply NoDup_app. split_and!; try done.
      intros x Hx Hx'. apply (H2 x Hx). by right. }
  etrans; [exact (Hgen [] category Hnd)|].
  by destruct (strip_entries f tags category).
Qed.

Lemma first_match_untagged {T} tags (v : T) : first_match tags [(∅, v)] = Some v.
Proof. unfold first_match. cbn. by rewrite elements_empty. Qed.

Lemma strip_entries_fixed {T} (f : T → result T) tags (out : attr_map T) :
  Forall (fun entry => ∃ v, entry.2 = [(∅, v)] ∧ f v = Ok v) out →
  strip_entries f tags out = Ok out.
Proof.
  induction 1 as [|[key tm] rest (v & Htm & Hf) _ IH]; [done|].
  cbn in Htm. subst tm. cbn [strip_entries].
  by rewrite first_match_untagged, Hf, IH.
Qed.

Lemma removelast_snoc_last {A} (l : list A) x :
  last l = Some x → removelast l ++ [x] = l.
Proof.
  induction l as [|a [|b l] IH]; [done| |].
  - cbn. by intros [= ->].
  - intros H. change (a :: (removelast (b :: l) ++ [x]) = a :: b :: l).
    f_equal. by apply IH.
Qed.

Lemma strip_val_list_ends tags l l' :
  strip_val_list tags l = Ok l' → Forall ends_untagged l'.
Proof.
  revert l'. induction l as [|val l IH]; intros l'; cbn.
  - intros [= <-]. constructor.
  - destruct (last_field_matches tags val) as [keep|]; [|done]. cbn.
    destruct (strip_val_list tags l) as [rest|]; [|done]. cbn.
    intros [= <-]. destruct keep; [|by apply IH].
    constructor; [|by apply IH]. unfold ends_untagged. apply last_snoc.
Qed.

Lemma strip_val_list_fixed tags l :
  Forall ends_untagged l → strip_val_list tags l = Ok l.
Proof.
  induction 1 as [|val l Hval _ IH]; [done|].
  cbn. unfold last_field_matches. rewrite Hval, elements_empty. cbn.
  rewrite IH. cbn. by rewrite removelast_snoc_last.
Qed.

Lemma strip_kv_ends tags kv kv' :
  strip_kv tags kv = Ok kv' →
  ∀ l, kv_val_list kv' = Some l → l = [] ∨ Forall ends_untagged l.
Proof.
  unfold strip_kv. destruct (kv_val_list kv) as [[|val l0]|] eqn:Hl.
  - intros [= <-] l Hl'. left. congruence.
  - destruct (strip_val_list tags (val :: l0)) as [l1|] eqn:Hstrip; [|done].
    cbn. intros [= <-] l [= <-]. right. by eapply strip_val_list_ends.
  - intros [= <-] l Hl'. congruence.
Qed.

Lemma strip_kv_fixed tags kv kv' :
  strip_kv tags kv = Ok kv' → strip_kv tags kv' = Ok kv'.
Proof.
  intros H. pose proof (strip_kv_ends _ _ _ H) as Hends. unfold strip_kv.
  destruct (kv_val_list kv') as [[|val l]|] eqn:Hl; [done| |done].
  destruct (Hends _ eq_refl) as [?|Hall]; [done|].
  rewrite strip_val_list_fixed by done. cbn.
  destruct kv'. cbn in Hl. by subst.
Qed.


Lemma filter_keys_NoDup {T} (P : string * T → Prop) `{∀ x, Decision (P x)}
    (l : list (string * T)) :
  NoDup l.*1 → NoDup (filter P l).*1.
Proof.
  intros Hnd. eapply sublist_NoDup; [exact Hnd|].
  apply fmap_sublist, sublist_filter.
Qed.

(** X16: stripping an entity twice with the same tags gives what
    stripping it once gave. *)
Theorem strip_tags_idempotent (tags : gset string) (e e' : EntityDef) :
  keys_distinct e →
  EntityDef_strip_tags tags e = Ok e' →
  EntityDef_strip_tags tags e' = Ok e'.
Proof.
  intros (Hkv & Hin & Hout) Hstrip. unfold EntityDef_strip_tags in Hstrip.
  rewrite !strip_category_entries in Hstrip by done.
  destruct (strip_entries (strip_kv tags) tags (keyvalues e)) as [kvs|] eqn:Hkvs; [|done].
  destruct (strip_entries Ok tags (inputs e)) as [inps|] eqn:Hinps; [|done].
  destruct (strip_entries Ok tags (outputs e)) as [outs|] eqn:Houts; [|done].
  cbn [mbind result_bind] in Hstrip. injection Hstrip as <-.
  destruct (strip_entries_kept _ _ _ _ Hkvs) as [Hk1 Hk2].
  destruct (strip_entries_kept _ _ _ _ Hinps) as [Hi1 Hi2].
  destruct (strip_entries_kept _ _ _ _ Houts) as [Ho1 Ho2].
  unfold EntityDef_strip_tags.
  cbn [keyvalues inputs outputs set_outputs set_inputs set_keyvalues].
  rewrite (strip_category_entries (strip_kv tags))
    by (rewrite Hk1; by apply filter_keys_NoDup).
  rewrite (strip_category_entries Ok tags inps)
    by (rewrite Hi1; by apply filter_keys_NoDup).
  rewrite (strip_category_entries Ok tags outs)
    by (rewrite Ho1; by apply filter_keys_NoDup).
  rewrite (strip_entries_fixed (strip_kv tags)).
  2:{ eapply Forall_impl; [exact Hk2|]. intros entry (v0 & v & Hv & Hf).
      exists v. split; [done|]. by eapply strip_kv_fixed. }
  rewrite (strip_entries_fixed Ok tags inps).
  2:{ eapply Forall_impl; [exact Hi2|]. intros entry (v0 & v & Hv & Hf). by exists v. }
  rewrite (strip_entries_fixed Ok tags outs).
  2:{ eapply Forall_impl; [exact Ho2|]. intros entry (v0 & v & Hv & Hf). by exists v. }
  done.
Qed.


Lemma strip_tags_idempotent_witness :
  EntityDef_strip_tags {[ "HL2" ]} variants_stripped = Ok variants_stripped.
Proof.
  apply (strip_tags_idempotent {[ "HL2" ]} variants_ent variants_stripped).
  - unfold keys_distinct. split_and!; ready.
  - vm_compute. reflexivity.
Defined.

(** ** EntityDef.iter_bases *)

Lemma iter_bases_each_done walk todo done1 done2 :
  (∀ b d1 d2, (walk b d1).1.1 = (walk b d2).1.1 ∧ (walk b d1).2 = (walk b d2).2) →
  (iter_bases_each walk done1 todo).1.1 = (iter_bases_each walk done2 todo).1.1 ∧
  (iter_bases_each walk done1 todo).2 = (iter_bases_each walk done2 todo).2.
Proof.
  intros Hwalk. revert done1 done2.
  induction todo as [|[s|b] rest IH]; intros done1 done2; [done|done|].
  cbn [iter_bases_each].
  destruct (Hwalk b (done_add done1 (BaseEnt b)) (done_add done2 (BaseEnt b))) as [Hy He].
  destruct (walk b (done_add done1 (BaseEnt b))) as [[sub1 d1] err1].
  destruct (walk b (done_add done2 (BaseEnt b))) as [[sub2 d2] err2].
  cbn in Hy, He. subst sub2 err2. destruct err1 as [err|]; [done|].
  destruct (IH d1 d2) as [Hy' He'].
  destruct (iter_bases_each walk d1 rest) as [[more1 e1] r1].
  destruct (iter_bases_each walk d2 rest) as [[more2 e2] r2].
  cbn in *. by subst.
Qed.

Lemma iter_bases_from_done fuel h self done1 done2 :
  (iter_bases_from fuel h self done1).1.1 = (iter_bases_from fuel h self done2).1.1 ∧
  (iter_bases_from fuel h self done1).2 = (iter_bases_from fuel h self done2).2.
Proof.
  revert self done1 done2. induction fuel as [|fuel IH]; intros self done1 done2; [done|].
  cbn [iter_bases_from]. destruct (h !! self) as [e|]; [|done].
  apply iter_bases_each_done. intros b d1 d2. apply IH.
Qed.

Lemma iter_bases_each_sublist walk todo seen :
  (iter_bases_each walk seen todo).2 = None →
  todo `sublist_of` (iter_bases_each walk seen todo).1.1.
Proof.
  revert seen. induction todo as [|[s|b] rest IH]; intros seen; [done|done|].
  cbn [iter_bases_each].
  destruct (walk b (done_add seen (BaseEnt b))) as [[sub d] [err|]]; [done|].
  specialize (IH d).
  destruct (iter_bases_each walk d rest) as [[more d'] err']. cbn in *.
  intros Herr. constructor. apply sublist_inserts_l. by apply IH.
Qed.

(** X17: [EntityDef.iter_bases] never consults the set [_done] that it
    fills: whatever set the caller passes, the same entities are yielded
    and the walk ends the same way.  When it ends without an exception the
    bases of the entity are among the yielded entities as often as they
    are listed, in their order (followed each by its own bases): an entity
    that is a base twice is yielded twice, although the docstring says
    that repeats are yielded once. *)
Theorem iter_bases_ignores_done (fuel : nat) (h : heap) (self : addr) (e : EntityDef)
    (done1 done2 : option (list base_ref)) :
  h !! self = Some e →
  let run1 := EntityDef_iter_bases (Datatypes.S fuel) h self done1 in
  let run2 := EntityDef_iter_bases (Datatypes.S fuel) h self done2 in
  run1.1.1 = run2.1.1 ∧ run1.2 = run2.2 ∧
  (run1.2 = None → bases e `sublist_of` run1.1.1).
Proof.
  intros He. cbn zeta. unfold EntityDef_iter_bases. split_and!.
  - apply iter_bases_from_done.
  - apply iter_bases_from_done.
  - cbn [iter_bases_from]. rewrite He. apply iter_bases_each_sublist.
Qed.

Lemma iter_bases_ignores_done_witness :
  let run1 := EntityDef_iter_bases 3 diamond_heap 4%positive None in
  let run2 :=
    EntityDef_iter_bases 3 diamond_heap 4%positive (Some [BaseEnt 1%positive]) in
  run1.1.1 = run2.1.1 ∧ run1.2 = run2.2 ∧
  (run1.2 = None → [BaseEnt 2%positive; BaseEnt 3%positive] `sublist_of` run1.1.1).
Proof.
  apply (iter_bases_ignores_done 2 diamond_heap 4%positive
           (mkEntityDef EntityTypes.POINT "top" [] [] [] []
              [BaseEnt 2%positive; BaseEnt 3%positive] [] "")).
  reflexivity.
Defined.

(** ** Iterating over an entity view *)

Lemma iter_step_names (names : list string) (st : gset string * list string) :
  NoDup st.2 → st.1 = list_to_set st.2 →
  NoDup (foldl iter_step st names).2 ∧
  (foldl iter_step st names).1 = list_to_set (foldl iter_step st names).2 ∧
  (foldl iter_step st names).1 = st.1 ∪ list_to_set names.
Proof.
  revert st. induction names as [|name names IH]; intros [seen out] Hnd Hseen.
  - cbn. split_and!; try done. set_solver.
  - cbn [foldl]. cbn [fst snd] in *.
    assert (Hstep : NoDup (iter_step (seen, out) name).2 ∧
                    (iter_step (seen, out) name).1
                    = list_to_set (iter_step (seen, out) name).2 ∧
                    (iter_step (seen, out) name).1 = seen ∪ {[name]}).
    { unfold iter_step. cbn [fst snd].
      destruct (decide (name ∈ seen)) as [Hin|Hnew]; cbn [fst snd].
      - split_and!; try done. set_solver.
      - split_and!.
        + apply NoDup_app. split_and!; [done| |apply NoDup_singleton].
          intros x Hx Hx'. apply list_elem_of_singleton in Hx' as ->.
          apply Hnew. rewrite Hseen. by apply elem_of_list_to_set.
        + rewrite list_to_set_app_L, Hseen. cbn. set_solver.
        + set_solver. }
    destruct Hstep as (Hs1 & Hs2 & Hs3).
    destruct (IH _ Hs1 Hs2) as (H1 & H2 & H3). split_and!; try done.
    rewrite H3, Hs3. cbn. set_solver.
Qed.

Lemma iter_step_maps {T} (maps : list (attr_map T)) (st : gset string * list string) :
  NoDup st.2 → st.1 = list_to_set st.2 →
  NoDup (foldl (fun st (ent_map : attr_map T) => foldl iter_step st ent_map.*1)
           st maps).2 ∧
  (foldl (fun st (ent_map : attr_map T) => foldl iter_step st ent_map.*1) st maps).1
  = list_to_set
      (foldl (fun st (ent_map : attr_map T) => foldl iter_step st ent_map.*1)
         st maps).2 ∧
  (foldl (fun st (ent_map : attr_map T) => foldl iter_step st ent_map.*1) st maps).1
  = foldl (fun (seen : gset string) (ent_map : attr_map T) =>
             seen ∪ list_to_set ent_map.*1) st.1 maps.
Proof.
  revert st. induction maps as [|m maps IH]; intros st Hnd Hseen; [done|].
  cbn [foldl].
  destruct (iter_step_names m.*1 st Hnd Hseen) as (H1 & H2 & H3).
  destruct (IH _ H1 H2) as (H4 & H5 & H6). split_and!; try done.
  by rewrite H6, H3.
Qed.

Lemma foldl_union_names {T} (maps : list (attr_map T)) (seen : gset string) name :
  name ∈ foldl (fun (seen : gset string) (ent_map : attr_map T) =>
                  seen ∪ list_to_set ent_map.*1) seen maps
  ↔ name ∈ seen ∨ ∃ m, m ∈ maps ∧ name ∈ m.*1.
Proof.
  revert seen. induction maps as [|m maps IH]; intros seen; cbn [foldl].
  - split; [by left|]. intros [?|(m & Hm & _)]; [done|]. by apply elem_of_nil in Hm.
  - rewrite IH, elem_of_union, elem_of_list_to_set. split.
    + intros [[?|?]|(m' & Hm' & ?)]; [by left| |].
      * right. exists m. split; [left|done].
      * right. exists m'. split; [by right|done].
    + intros [?|(m' & Hm' & ?)]; [by left; left|].
      apply elem_of_cons in Hm' as [->|Hm']; [left; by right|].
      right. by exists m'.
Qed.

(** X18: iterating over an entity view yields every name of the maps of
    the entity and of its bases (walked depth first) exactly once, and
    the length of the view is the number of names yielded. *)
Theorem view_iter_len {T} (fuel : nat) (h : heap) (ent : addr)
    (attr : EntityDef → attr_map T) (names : list string) :
  EntityView_iter fuel h ent attr = Ok names →
  NoDup names ∧
  EntityView_len fuel h ent attr = Ok (List.length names) ∧
  ∃ maps, view_maps fuel h attr (BaseEnt ent) = Ok maps ∧
    ∀ name, name ∈ names ↔ ∃ m, m ∈ maps ∧ name ∈ m.*1.
Proof.
  unfold EntityView_iter, EntityView_len.
  destruct (view_maps fuel h attr (BaseEnt ent)) as [maps|]; [|done].
  cbn [mbind result_bind]. intros [= <-].
  destruct (iter_step_maps maps (∅, [])) as (Hnd & Hseen & Hunion);
    [constructor|done|].
  cbn [fst] in Hunion. split_and!.
  - done.
  - rewrite <- Hunion, Hseen. by rewrite size_list_to_set.
  - exists maps. split; [done|]. intros name.
    rewrite <- (elem_of_list_to_set (C := gset string)), <- Hseen, Hunion.
    rewrite foldl_union_names. set_solver.
Qed.

Lemma view_iter_len_witness :
  NoDup ["field"; "other"] ∧
  EntityView_len 2 example_heap my_ent_addr keyvalues = Ok (List.length ["field"; "other"]) ∧
  ∃ maps, view_maps 2 example_heap keyvalues (BaseEnt my_ent_addr) = Ok maps ∧
    ∀ name, name ∈ ["field"; "other"] ↔ ∃ m, m ∈ maps ∧ name ∈ m.*1.
Proof.
  apply (view_iter_len 2 example_heap my_ent_addr keyvalues ["field"; "other"]).
  vm_compute. reflexivity.
Defined.

(** ** Looking a name up in an entity view *)

Lemma match_tags_no_search (T : list string) :
  match_tags ∅ T = true ↔ Forall (fun t => sigil_of t = Negative) T.
Proof.
  destruct T as [|t T]; [by split; [constructor|]|].
  unfold match_tags. rewrite match_tags_loop_true.
  rewrite bool_decide_eq_false_2 by set_solver.
  generalize (t :: T). clear. intros T. split.
  - intros (_ & Hpos & [Hplain|Hex]).
    + rewrite Forall_forall in *. intros x Hx.
      specialize (Hpos x Hx). specialize (Hplain x Hx).
      unfold pos_miss in Hpos. destruct (sigil_of x); [done| |done].
      exfalso. apply Hpos. split; [done|set_solver].
    + apply Exists_exists in Hex as (x & _ & _ & [?|?]); [done|set_solver].
  - intros Hneg. split_and!.
    + eapply Forall_impl; [exact Hneg|]. intros x _ [_ Hin]. set_solver.
    + eapply Forall_impl; [exact Hneg|]. intros x Hx [Hp _]. congruence.
    + left. eapply Forall_impl; [exact Hneg|]. intros x Hx. congruence.
Qed.

Lemma sorted_by_size_elem {T} (items : tag_map T) x :
  x ∈ sorted_by_size items ↔ x ∈ items.
Proof.
  assert (Hins : ∀ (y : gset string * T) l, x ∈ insert_by_size y l ↔ x = y ∨ x ∈ l).
  { intros y l. induction l as [|z l IH]; cbn [insert_by_size].
    - rewrite list_elem_of_singleton, elem_of_nil. tauto.
    - destruct (size y.1 <? size z.1)%nat.
      + rewrite !elem_of_cons, IH. tauto.
      + rewrite !elem_of_cons. tauto. }
  unfold sorted_by_size. induction items as [|y items IH]; cbn [foldr]; [done|].
  rewrite Hins, elem_of_cons, IH. tauto.
Qed.

Lemma first_match_found {T} search (items : tag_map T) v :
  first_match search items = Some v →
  ∃ tags, (tags, v) ∈ items ∧ match_tags search (elements tags) = true.
Proof.
  unfold first_match.
  destruct (find _ (sorted_by_size items)) as [[tags v']|] eqn:Hfind; [|done].
  cbn. intros [= ->]. apply find_some in Hfind as [Hin Hmatch].
  exists tags. split; [|done].
  apply sorted_by_size_elem. by apply list_elem_of_In.
Qed.

Lemma view_find_found {T} fuel h (attr : EntityDef → attr_map T) name search ent v :
  view_find fuel h attr name search ent = Ok (Some v) →
  ∃ a e tm tags,
    h !! a = Some e ∧ dict_get (attr e) name = Some tm ∧ (tags, v) ∈ tm ∧
    match_tags search (elements tags) = true.
Proof.
  revert ent. induction fuel as [|fuel IH]; intros ent; [done|].
  cbn [view_find]. destruct ent as [s|a]; [done|].
  destruct (h !! a) as [e|] eqn:He; [|done].
  destruct (dict_get (attr e) name ≫= first_match search) as [value|] eqn:Hown.
  - intros [= ->]. destruct (dict_get (attr e) name) as [tm|] eqn:Htm; [|done].
    cbn in Hown. apply first_match_found in Hown as (tags & Hin & Hmatch).
    by exists a, e, tm, tags.
  - clear Hown He. induction (bases e) as [|base rest IHrest]; [done|].
    destruct (view_find fuel h attr name search base) as [[value|]|err] eqn:Hbase.
    + intros [= ->]. by eapply IH.
    + exact IHrest.
    + done.
Qed.

(** X19: what a lookup in an entity view returns is a value stored in
    some entity of the store under the case-folded name, with a tag set
    that [match_tags] accepts for the case-folded query.  For a bare
    name the query is empty, so the tag set holds negated tags only: a
    value declared for a plain or [+] tag is never found by its name
    alone. *)
Theorem view_getitem_sound {T} (fuel : nat) (h : heap) (ent : addr)
    (attr : EntityDef → attr_map T) (key : view_key) (v : T) :
  EntityView_getitem fuel h ent attr key = Ok v →
  ∃ a e tm tags,
    h !! a = Some e ∧ (tags, v) ∈ tm ∧
    match key with
    | Bare name =>
        dict_get (attr e) (casefold name) = Some tm ∧
        Forall (fun t => sigil_of t = Negative) (elements tags)
    | Tagged name query =>
        dict_get (attr e) (casefold name) = Some tm ∧
        match_tags (list_to_set (casefold <$> query)) (elements tags) = true
    end.
Proof.
  unfold EntityView_getitem. destruct key as [name|name query].
  - destruct (view_find fuel h attr (casefold name) ∅ (BaseEnt ent))
      as [[value|]|] eqn:Hfind; [|done..].
    cbn. intros [= ->].
    apply view_find_found in Hfind as (a & e & tm & tags & He & Htm & Hin & Hmatch).
    exists a, e, tm, tags. split_and!; try done. by apply match_tags_no_search.
  - destruct (view_find fuel h attr (casefold name)
                (list_to_set (casefold <$> query)) (BaseEnt ent))
      as [[value|]|] eqn:Hfind; [|done..].
    cbn. intros [= ->].
    apply view_find_found in Hfind as (a & e & tm & tags & He & Htm & Hin & Hmatch).
    by exists a, e, tm, tags.
Qed.

Lemma view_getitem_sound_witness :
  ∃ a e tm tags,
    variants_heap !! a = Some e ∧
    (tags, mkKeyValues "k" ValueTypes.STRING "K" "all" "" None (PBool false)) ∈ tm ∧
    dict_get (keyvalues e) (casefold "K") = Some tm ∧
    Forall (fun t => sigil_of t = Negative) (elements tags).
Proof.
  apply (view_getitem_sound 1 variants_heap 1%positive keyvalues (Bare "K")
           (mkKeyValues "k" ValueTypes.STRING "K" "all" "" None (PBool false))).
  vm_compute. reflexivity.
Defined.

(** ** Limits of the binary format *)

Lemma pack_u8_cases n :
  pack_u8 n = Ok [n] ∨
  pack_u8 n = Raise (StructError "ubyte format requires 0 <= number <= 255").
Proof. unfold pack_u8. destruct ((0 <=? n) && (n <=? 255)); auto. Qed.




(** X21: [FGD.unserialise] refuses any input that does not start with
    the three bytes [FGD], the empty input included, with [ValueError],
    before it reads further; and after the magic bytes it refuses a
    complete header whose version byte is not 2 with [TypeError]. *)
Theorem FGD_unserialise_rejects (h : heap) :
  (∀ file, take 3 file ≠ [70; 71; 68] →
     FGD_unserialise h file = Raise (ValueError "Not an FGD file!")) ∧
  (∀ version header rest,
     version ≠ BIN_FORMAT_VERSION → List.length header = 20%nat →
     FGD_unserialise h ([70; 71; 68] ++ version :: header ++ rest)
       = Raise (TypeError "Unknown format version!")).
Proof.
  split.
  - intros file Hmagic. unfold FGD_unserialise, read_upto. cbn [mbind result_bind].
    by rewrite bool_decide_eq_true_2.
  - intros version header rest Hversion Hlen.
    unfold FGD_unserialise, read_upto. cbn [take drop app mbind result_bind].
    rewrite bool_decide_eq_false_2 by (intros H; by apply H).
    pose proof (read_exactly_app 21 (version :: header) rest) as Hhead.
    cbn [app] in Hhead. rewrite Hhead by (cbn; lia). cbn [mbind result_bind read_u8].
    do 20 (destruct header as [|? header]; [done|]). destruct header; [|done].
    cbn. by rewrite bool_decide_eq_true_2.
Qed.

Lemma FGD_unserialise_rejects_witness :
  FGD_unserialise ∅ [] = Raise (ValueError "Not an FGD file!").
Proof. apply (proj1 (FGD_unserialise_rejects ∅) []). done. Defined.

(** ** Names of the value types *)

(** X22: every value type is found in [VALUE_TYPE_LOOKUP] by its own
    name written in any letter case, the way the parser looks it up;
    [bool] and [int] are accepted for the boolean and integer types; and
    each member of the three enumerations is recovered from its value. *)
Theorem value_type_names :
  (∀ (t : ValueTypes.t) (raw : string),
     casefold raw = ValueTypes.value t → lookup_value_type raw = Ok t) ∧
  (∀ raw, casefold raw = "bool" → lookup_value_type raw = Ok ValueTypes.BOOL) ∧
  (∀ raw, casefold raw = "int" → lookup_value_type raw = Ok ValueTypes.INT) ∧
  (∀ t, ValueTypes.of_value (ValueTypes.value t) = Some t) ∧
  (∀ t, EntityTypes.of_value (EntityTypes.value t) = Some t) ∧
  (∀ t, HelperTypes.of_value (HelperTypes.value t) = Some t).
Proof.
  split_and!.
  - intros t raw H. unfold lookup_value_type. rewrite H. by destruct t.
  - intros raw H. unfold lookup_value_type. by rewrite H.
  - intros raw H. unfold lookup_value_type. by rewrite H.
  - by intros [].
  - by intros [].
  - by intros [].
Qed.

Lemma value_type_names_witness : lookup_value_type "Integer" = Ok ValueTypes.INT.
Proof. apply (proj1 value_type_names ValueTypes.INT "Integer"). reflexivity. Defined.

(** ** Reading tags and colon lists *)

Lemma read_tags_loop_strings (ts : list string) acc fuel tail :
  (List.length ts < fuel)%nat →
  read_tags_loop fuel acc (((fun t => (Token.STRING, t)) <$> ts) ++ tail)
  = match tail with
    | (Token.BRACK_CLOSE, _) :: rest =>
        Ok (acc ++ ((fun t => rstrip_comma (casefold t)) <$> ts), rest)
    | [] => Raise (TokError "Unclosed tags!")
    | _ =>
        read_tags_loop (fuel - List.length ts)
          (acc ++ ((fun t => rstrip_comma (casefold t)) <$> ts)) tail
    end.
Proof.
  revert acc fuel. induction ts as [|t ts IH]; intros acc fuel Hfuel.
  - cbn [fmap list_fmap app List.length]. rewrite app_nil_r, Nat.sub_0_r.
    destruct fuel as [|fuel]; [cbn in Hfuel; lia|].
    destruct tail as [|[[] v] rest]; done.
  - destruct fuel as [|fuel]; [cbn in Hfuel; lia|].
    cbn [fmap list_fmap app read_tags_loop tok_call List.length].
    rewrite IH by (cbn in Hfuel; lia).
    rewrite <- app_assoc. cbn [app]. done.
Qed.

(** X23: [read_tags] reads the strings up to the closing bracket, folds
    their case, drops trailing commas and hands them to [validate_tags];
    the stream continues after the bracket.  When the input ends before a
    closing bracket, it raises [Unclosed tags!]. *)
Theorem read_tags_reads (ts : list string) (fuel : nat) :
  (List.length ts < fuel)%nat →
  (∀ v rest,
     read_tags fuel (((fun t => (Token.STRING, t)) <$> ts) ++ (Token.BRACK_CLOSE, v) :: rest)
     = (tagset ← validate_tags ((fun t => rstrip_comma (casefold t)) <$> ts) TokError;
        Ok (tagset, rest))) ∧
  read_tags fuel ((fun t => (Token.STRING, t)) <$> ts) = Raise (TokError "Unclosed tags!").
Proof.
  intros Hfuel. split.
  - intros v rest. unfold read_tags. by rewrite read_tags_loop_strings.
  - unfold read_tags.
    rewrite <- (app_nil_r ((fun t => (Token.STRING, t)) <$> ts)).
    by rewrite read_tags_loop_strings.
Qed.

Lemma read_tags_reads_witness :
  read_tags 3 [(Token.STRING, "hl2,"); (Token.STRING, "!P2"); (Token.BRACK_CLOSE, "]")]
  = Ok ({[ "HL2"; "!P2" ]}, []).
Proof.
  etrans.
  { exact (proj1 (read_tags_reads ["hl2,"; "!P2"] 3 ltac:(cbn; lia)) "]" []). }
  vm_compute. reflexivity.
Defined.

Lemma read_colon_list_loop_fields (ss : list string) acc fuel end_tok v rest :
  (2 * List.length ss < fuel)%nat →
  end_tok ∉ [Token.STRING; Token.COLON; Token.PLUS; Token.EOF] →
  read_colon_list_loop fuel acc false
    ((ss ≫= fun s => [(Token.COLON, ":"); (Token.STRING, s)]) ++ (end_tok, v) :: rest)
  = Ok (acc ++ ss, end_tok, rest).
Proof.
  intros Hfuel Hend. revert acc fuel Hfuel.
  induction ss as [|s ss IH]; intros acc fuel Hfuel.
  - destruct fuel as [|fuel]; [cbn in Hfuel; lia|].
    cbn [mbind list_bind app read_colon_list_loop tok_iter tok_call].
    rewrite app_nil_r. destruct end_tok; try done; exfalso; apply Hend; set_solver.
  - destruct fuel as [|[|fuel]]; [cbn in Hfuel; lia..|].
    rewrite bind_cons. cbn [app read_colon_list_loop tok_iter tok_call negb].
    rewrite IH by (cbn in Hfuel |- *; lia). by rewrite <- app_assoc.
Qed.

(** X24: [read_colon_list] reads the fields of a line.  On any number of
    [: "string"] pairs followed by a token that ends the list (anything
    but a string, a colon, a plus or the end of input) it returns the
    strings in order together with that token, and leaves the stream
    after it. *)
Theorem read_colon_list_fields (ss : list string) (fuel : nat) (end_tok : Token.t)
    (v : string) (rest : tokens) :
  (2 * List.length ss < fuel)%nat →
  end_tok ∉ [Token.STRING; Token.COLON; Token.PLUS; Token.EOF] →
  read_colon_list fuel
    ((ss ≫= fun s => [(Token.COLON, ":"); (Token.STRING, s)]) ++ (end_tok, v) :: rest)
    false
  = Ok (ss, end_tok, rest).
Proof.
  intros Hfuel Hend. unfold read_colon_list.
  by rewrite read_colon_list_loop_fields.
Qed.

Lemma read_colon_list_fields_witness :
  read_colon_list 5
    [(Token.COLON, ":"); (Token.STRING, "Name"); (Token.COLON, ":");
     (Token.STRING, "0"); (Token.NEWLINE, "")] false
  = Ok (["Name"; "0"], Token.NEWLINE, []).
Proof.
  apply (read_colon_list_fields ["Name"; "0"] 5 Token.NEWLINE "" []).
  - cbn. lia.
  - set_solver.
Defined.

(** ** What EntityDef.parse builds *)

Lemma dict_set_keys_present {K V} `{EqDecision K} (d : list (K * V)) k v v0 :
  dict_get d k = Some v0 → (dict_set d k v).*1 = d.*1.
Proof.
  induction d as [|[k' v'] d IH]; [done|]. cbn.
  destruct (decide (k = k')) as [->|Hne]; [done|]. intros H. cbn. by rewrite IH.
Qed.

Lemma dict_set_not_nil {K V} `{EqDecision K} (d : list (K * V)) k v :
  dict_set d k v ≠ [].
Proof. destruct d as [|[k' v'] d]; cbn; [done|]. by destruct (decide (k = k')). Qed.

Lemma dict_get_elem {K V} `{EqDecision K} (d : list (K * V)) k v :
  dict_get d k = Some v → (k, v) ∈ d.
Proof.
  induction d as [|[k' v'] d IH]; [done|]. cbn.
  destruct (decide (k = k')) as [->|Hne].
  - intros [= ->]. left.
  - intros H. right. by apply IH.
Qed.

Lemma attr_store_order (kvs : attr_map KeyValues) (order : list string) key tags value :
  order = kvs.*1 → NoDup order → Forall (fun entry => entry.2 ≠ []) kvs →
  let tags_map := default [] (dict_get kvs key) in
  let order' := if bool_decide (tags_map = []) then order ++ [key] else order in
  let kvs' := attr_store kvs key tags value in
  order' = kvs'.*1 ∧ NoDup order' ∧ Forall (fun entry => entry.2 ≠ []) kvs'.
Proof.
  intros -> Hnd Hne. cbn zeta. unfold attr_store.
  destruct (dict_get kvs key) as [tm|] eqn:Hget; cbn [default].
  - assert (tm ≠ []) as Htm.
    { rewrite Forall_forall in Hne. apply (Hne (key, tm)). by apply dict_get_elem. }
    rewrite bool_decide_eq_false_2 by done.
    rewrite (dict_set_keys_present _ _ _ tm) by done. split_and!; try done.
    apply (dict_set_Forall (fun tm => tm ≠ [])); [done|apply dict_set_not_nil].
  - rewrite bool_decide_eq_true_2 by done. rewrite dict_set_fresh by done.
    rewrite fmap_app. split_and!; [done| |].
    + apply NoDup_app. split_and!; [done| |apply NoDup_singleton].
      intros x Hx Hx'. apply list_elem_of_singleton in Hx' as ->.
      by apply dict_get_None in Hget.
    + apply Forall_app. split; [done|]. by repeat constructor.
Qed.

Lemma parse_keyvalue_order fuel entity name toks entity' toks' :
  parse_keyvalue fuel entity name toks = Ok (entity', toks') →
  kv_order_synced entity →
  kv_order_synced entity' ∧ classname entity' = classname entity ∧
  ent_type entity' = ent_type entity.
Proof.
  unfold parse_keyvalue, kv_order_synced. intros H (Hord & Hnd & Hne).
  inv_ok H; injection H as <- <-;
    (split; [|by destruct (bool_decide _)]);
    match goal with
    | |- context [attr_store (keyvalues ?e) ?key ?tags ?value] =>
        pose proof (attr_store_order (keyvalues entity) (kv_order entity)
                      key tags value Hord Hnd Hne) as Hstore
    end; cbn zeta in Hstore;
    destruct (bool_decide (default [] (dict_get (keyvalues entity) (casefold name)) = []));
    exact Hstore.
Qed.

Lemma parse_io_same fuel entity io_type toks entity' toks' :
  parse_io fuel entity io_type toks = Ok (entity', toks') →
  keyvalues entity' = keyvalues entity ∧ kv_order entity' = kv_order entity ∧
  classname entity' = classname entity ∧ ent_type entity' = ent_type entity.
Proof. unfold parse_io. intros H. inv_ok H; by injection H as <- <-. Qed.

Lemma parse_body_order fuel entity toks entity' toks' :
  parse_body fuel entity toks = Ok (entity', toks') →
  kv_order_synced entity →
  kv_order_synced entity' ∧ classname entity' = classname entity ∧
  ent_type entity' = ent_type entity.
Proof.
  revert entity toks. induction fuel as [|fuel IH]; intros entity toks H Hinv;
    [done|].
  cbn [parse_body] in H.
  destruct (tok_iter toks) as [[[token token_value]|] rest];
    [|by injection H as <- <-].
  destruct token; try done; [|by eapply IH|by injection H as <- <-].
  apply bind_Ok in H as ([entity1 toks1] & Hline & H).
  assert (kv_order_synced entity1 ∧ classname entity1 = classname entity ∧
          ent_type entity1 = ent_type entity) as (Hinv1 & Hc1 & Ht1).
  { case_bool_decide.
    - apply parse_io_same in Hline as (Hk & Ho & Hc & Ht).
      unfold kv_order_synced. by rewrite Hk, Ho.
    - by eapply parse_keyvalue_order. }
  destruct (IH _ _ H Hinv1) as (Hinv' & Hc' & Ht').
  split_and!; [done|congruence..].
Qed.

Lemma parse_header_same fuel fgd eval_bases entity help_type toks r :
  parse_header fuel fgd eval_bases entity help_type toks = Ok r →
  keyvalues r.1.1 = keyvalues entity ∧ kv_order r.1.1 = kv_order entity ∧
  ent_type r.1.1 = ent_type entity.
Proof.
  revert entity help_type toks.
  induction fuel as [|fuel IH]; intros entity help_type toks H; [done|].
  cbn [parse_header] in H.
  destruct (tok_iter toks) as [[[token token_value]|] rest]; [|done].
  destruct token; try done.
  - destruct help_type as [ht|].
    + by destruct (IH _ _ _ H) as (-> & -> & ->).
    + destruct (HelperTypes.of_value token_value); [by eapply IH|done].
  - by eapply IH.
  - destruct help_type as [ht|]; [|done].
    destruct (decide (ht = HelperTypes.INHERIT)).
    + apply bind_Ok in H as (bs & _ & H). by destruct (IH _ _ _ H) as (-> & -> & ->).
    + by destruct (IH _ _ _ H) as (-> & -> & ->).
  - by injection H as <-.
Qed.

Lemma parse_desc_same fuel entity desc toks r :
  parse_desc fuel entity desc toks = Ok r →
  keyvalues r.1 = keyvalues entity ∧ kv_order r.1 = kv_order entity ∧
  classname r.1 = classname entity ∧ ent_type r.1 = ent_type entity.
Proof.
  revert entity desc toks.
  induction fuel as [|fuel IH]; intros entity desc toks H; [done|].
  cbn [parse_desc] in H.
  destruct (tok_iter toks) as [[[token token_value]|] rest];
    [|by injection H as <-].
  destruct token; try done.
  - destruct desc as [[|]|]; try done. by eapply IH.
  - by eapply IH.
  - destruct desc as [[|]|]; by injection H as <-.
  - destruct desc; [done|by eapply IH].
  - destruct desc as [[|]|]; try done.
    apply bind_Ok in H as ([more toks1] & _ & H). by eapply IH.
Qed.

(** X25: the entity that [EntityDef.parse] builds has its keyvalue order
    in step with its keyvalues: [kv_order] lists the names of the
    keyvalue dictionary, each once, in the order in which they first
    appear in the body, and every name has at least one value. *)
Theorem parse_kv_order fuel (h : heap) fgd toks ent_type eval_bases h' fgd' toks' :
  EntityDef_parse fuel h fgd toks ent_type eval_bases = Ok (h', fgd', toks') →
  ∃ entity, h' !! fresh (dom h) = Some entity ∧ kv_order_synced entity.
Proof.
  unfold EntityDef_parse. intros H.
  apply bind_Ok in H as ([[entity1 help_type] toks1] & Hhead & H).
  apply bind_Ok in H as ([name toks2] & _ & H).
  apply bind_Ok in H as ([entity2 toks3] & Hdesc & H).
  apply bind_Ok in H as ([entity3 toks4] & Hbody & H).
  injection H as <- <- <-.
  exists entity3. split; [apply lookup_insert_eq|].
  eapply parse_body_order; [done|].
  apply parse_header_same in Hhead as (Hk1 & Ho1 & _).
  apply parse_desc_same in Hdesc as (Hk2 & Ho2 & _).
  cbn [fst] in *. unfold kv_order_synced. rewrite Hk2, Ho2.
  cbn [keyvalues kv_order set_classname].
  replace (keyvalues (match help_type with
                      | Some ht => set_helpers (helpers entity1 ++ [(ht, [])]) entity1
                      | None => entity1
                      end)) with (keyvalues entity1) by (by destruct help_type).
  replace (kv_order (match help_type with
                     | Some ht => set_helpers (helpers entity1 ++ [(ht, [])]) entity1
                     | None => entity1
                     end)) with (kv_order entity1) by (by destruct help_type).
  rewrite Hk1, Ho1. cbn. split_and!; constructor.
Qed.

(** X26: when [EntityDef.parse] succeeds, the new entity is a new object
    of the requested type, entered in the database under its case-folded
    class name, so that [fgd[classname]] finds it whatever the letter
    case; the objects that were in the store are untouched, and the other
    names of the database still lead where they led. *)
Theorem parse_registers fuel (h : heap) fgd toks typ eval_bases h' fgd' toks' :
  EntityDef_parse fuel h fgd toks typ eval_bases = Ok (h', fgd', toks') →
  ∃ entity,
    h' = <[fresh (dom h) := entity]> h ∧ fresh (dom h) ∉ dom h ∧
    ent_type entity = typ ∧
    (∀ name, casefold name = casefold (classname entity) →
       FGD_getitem fgd' name = Ok (fresh (dom h))) ∧
    (∀ name, casefold name ≠ casefold (classname entity) →
       FGD_getitem fgd' name = FGD_getitem fgd name).
Proof.
  unfold EntityDef_parse. intros H.
  apply bind_Ok in H as ([[entity1 help_type] toks1] & Hhead & H).
  apply bind_Ok in H as ([name toks2] & _ & H).
  apply bind_Ok in H as ([entity2 toks3] & Hdesc & H).
  apply bind_Ok in H as ([entity3 toks4] & Hbody & H).
  injection H as <- <- <-.
  apply parse_header_same in Hhead as (_ & _ & Ht1).
  apply parse_desc_same in Hdesc as (_ & _ & Hc2 & Ht2).
  assert (Hbody' : classname entity3 = classname entity2 ∧
                   ent_type entity3 = ent_type entity2).
  { revert Hbody. clear. revert entity2 toks3.
    induction fuel as [|fuel IH]; intros entity toks H; [done|].
    cbn [parse_body] in H.
    destruct (tok_iter toks) as [[[token token_value]|] rest];
      [|by injection H as <- <-].
    destruct token; try done; [|by eapply IH|by injection H as <- <-].
    apply bind_Ok in H as ([entitya toksa] & Hline & H).
    destruct (IH _ _ H) as [Hc Ht]. rewrite Hc, Ht.
    case_bool_decide.
    - by apply parse_io_same in Hline as (_ & _ & ? & ?).
    - unfold parse_keyvalue in Hline.
      inv_ok Hline; injection Hline as <- <-; by destruct (bool_decide _). }
  destruct Hbody' as [Hc3 Ht3]. cbn [fst] in *.
  exists entity3. split_and!.
  - done.
  - apply is_fresh.
  - rewrite Ht3, Ht2. cbn [ent_type set_classname]. by destruct help_type.
  - intros key Hkey. unfold FGD_getitem. cbn [entities set_entities].
    rewrite Hkey, Hc3. by rewrite dict_get_set_eq.
  - intros key Hkey. unfold FGD_getitem. cbn [entities set_entities].
    rewrite dict_get_set_ne; [done|]. by rewrite <- Hc3.
Qed.

Lemma parse_kv_order_witness :
  ∃ entity,
    (<[1%positive := set_bases [BaseName "Base1"] my_ent_def]> (∅ : heap))
      !! fresh (dom (∅ : heap)) = Some entity ∧
    kv_order_synced entity.
Proof.
  apply (parse_kv_order 20 ∅ FGD_init my_ent_tokens EntityTypes.POINT false _
           (mkFGD [("my_ent", 1%positive)] (NInt 0) (NInt 0)) []).
  vm_compute. reflexivity.
Defined.

Lemma parse_registers_witness :
  ∃ entity,
    <[1%positive := set_bases [BaseName "Base1"] my_ent_def]> (∅ : heap)
      = <[fresh (dom (∅ : heap)) := entity]> ∅ ∧
    fresh (dom (∅ : heap)) ∉ dom (∅ : heap) ∧
    ent_type entity = EntityTypes.POINT ∧
    (∀ name, casefold name = casefold (classname entity) →
       FGD_getitem (mkFGD [("my_ent", 1%positive)] (NInt 0) (NInt 0)) name
       = Ok (fresh (dom (∅ : heap)))) ∧
    (∀ name, casefold name ≠ casefold (classname entity) →
       FGD_getitem (mkFGD [("my_ent", 1%positive)] (NInt 0) (NInt 0)) name
       = FGD_getitem FGD_init name).
Proof.
  apply (parse_registers 20 ∅ FGD_init my_ent_tokens EntityTypes.POINT false _ _ []).
  vm_compute. reflexivity.
Defined.

Lemma IODef_roundtrip_witness :
  ∃ dic bytes,
    IODef_serialise (mkIODef "Kill" ValueTypes.VOID "Removes this") BinStrDict_init
      = Ok (dic, bytes) ∧
    ∀ inv rest, (_dict dic).*1 `prefix_of` inv →
      IODef_unserialise (lookup inv) (bytes ++ rest)
      = Ok (io_image (mkIODef "Kill" ValueTypes.VOID "Removes this"), rest).
Proof. exact (IODef_roundtrip (mkIODef "Kill" ValueTypes.VOID "Removes this")). Defined.

(** ** match_tags and the order of the tags *)

(** X27: the answer of [match_tags] depends on which candidate tags there
    are, not on the order in which they are iterated nor on repeats; so
    it is well defined on a [frozenset], whose iteration order Python
    leaves open. *)
Theorem match_tags_order (search : gset string) (tags tags' : list string) :
  (∀ t, t ∈ tags ↔ t ∈ tags') →
  match_tags search tags = match_tags search tags'.
Proof.
  intros Hsame.
  assert (Hmem : ∀ (P : string → Prop) (l l' : list string),
            (∀ t, t ∈ l ↔ t ∈ l') →
            (Forall P l ↔ Forall P l') ∧ (Exists P l ↔ Exists P l')).
  { intros P l l' H. rewrite !Forall_forall, !Exists_exists. split.
    - split; intros HP x Hx; apply HP; by apply H.
    - split; intros (x & Hx & HPx); exists x; (split; [by apply H|done]). }
  destruct tags as [|t tags]; destruct tags' as [|t' tags'].
  - done.
  - exfalso. apply (elem_of_nil t'), Hsame. left.
  - exfalso. apply (elem_of_nil t), Hsame. left.
  - unfold match_tags. apply eq_true_iff_eq. rewrite !match_tags_loop_true.
    destruct (Hmem (fun t => ¬ neg_hit search t) _ _ Hsame) as [-> _].
    destruct (Hmem (fun t => ¬ pos_miss search t) _ _ Hsame) as [-> _].
    destruct (Hmem (fun t => sigil_of t ≠ Plain) _ _ Hsame) as [-> _].
    destruct (Hmem (plain_ok search (bool_decide ("<ALL>" ∈ search))) _ _ Hsame)
      as [_ ->].
    done.
Qed.

Lemma match_tags_order_witness :
  match_tags {[ "A" ]} ["a"; "!b"; "a"] = match_tags {[ "A" ]} ["!b"; "a"].
Proof. apply match_tags_order. set_solver. Defined.

(** ** The keyvalue order after a merge *)

Lemma merge_kv_names_order base_kvs ent_kv base_kv names ent_kv' base_kv' names' :
  foldl (fun acc '(name, base_kv_map) =>
      st ← acc; merge_kv_name st name base_kv_map)
    (Ok (ent_kv, base_kv, names)) base_kvs
    = Ok (ent_kv', base_kv', names') →
  base_kv' = base_kv ++ fresh_names names base_kvs.*1.
Proof.
  revert ent_kv base_kv names.
  induction base_kvs as [|[name base_kv_map] rest IH]; intros ent_kv base_kv names.
  - cbn. intros [= <- <- <-]. by rewrite app_nil_r.
  - cbn [foldl mbind result_bind fmap list_fmap fst fresh_names].
    destruct (merge_kv_name (ent_kv, base_kv, names) name base_kv_map)
      as [[[ent_kv1 base_kv1] names1]|err] eqn:Hstep.
    + intros H. apply IH in H as ->.
      unfold merge_kv_name in Hstep.
      destruct (foldl _ _ base_kv_map) as [m|]; [|done]. cbn in Hstep.
      case_bool_decide as Hin; injection Hstep as <- <- <-.
      * by rewrite decide_True.
      * rewrite decide_False by done. by rewrite <- app_assoc.
    + intros H. exfalso. clear -H.
      induction rest as [|[n m] rest IH]; [done|]. by apply IH.
Qed.

(** X28: when an entity with a single base is collapsed, the names of
    the keyvalues of the base that the entity did not list come first in
    its keyvalue order, in the order the base has them, followed by the
    names it listed before; and its base list is emptied. *)
Theorem collapse_ent_kv_order (h h' : heap) (ent b : addr) (e be : EntityDef) :
  h !! ent = Some e → bases e = [BaseEnt b] → h !! b = Some be →
  collapse_ent h ent = (h', None) →
  ∃ e', h' !! ent = Some e' ∧ bases e' = [] ∧
    kv_order e'
    = fresh_names (list_to_set (kv_order e)) (keyvalues be).*1 ++ kv_order e.
Proof.
  intros He Hbases Hbe. unfold collapse_ent. rewrite He, Hbases.
  cbn [merge_bases]. unfold merge_base. rewrite Hbe, He. cbn [fst snd].
  destruct (foldl _ _ (keyvalues be)) as [[[ent_kv base_kv] names]|err] eqn:Hfold;
    [|done].
  apply merge_kv_names_order in Hfold. cbn [app] in Hfold. subst base_kv.
  rewrite lookup_insert_eq. intros [= <-].
  eexists. split; [apply lookup_insert_eq|]. by split.
Qed.

Lemma collapse_ent_kv_order_witness :
  ∃ e', (<[my_ent_addr := my_ent_collapsed]> example_heap) !! my_ent_addr = Some e' ∧
    bases e' = [] ∧
    kv_order e'
    = fresh_names (list_to_set (kv_order my_ent_def)) (keyvalues Base1_def).*1
      ++ kv_order my_ent_def.
Proof.
  apply (collapse_ent_kv_order example_heap _ my_ent_addr Base1_addr
           my_ent_def Base1_def); reflexivity.
Defined.
